(** * syn: the grammar compiler (lexerBuilder), the lexer registry and the
      tokenizer step, embedded from lexer.go and registry.go.

    Go values are modelled as follows.  A pointer field that may be nil
    is an [option]; a Go string is a [string]; a slice is a [list]; the
    state table [map[string]state] is a [gmap string state].  A function
    that reports failure through [mylog.Check] does not return to its
    caller on a non-nil error: the call is an [Abort].  Recursion that
    the source does not bound is run with fuel; running out is
    [Diverge]. *)

From stdpp Require Import gmap strings list fin_maps sorting.
From Stdlib Require Import ZArith Lia.

Open Scope string_scope.
Open Scope list_scope.

(** ** Errors and outcomes *)

(** One constructor per [fmt.Errorf] site of lexer.go, plus the
    failures of the libraries called ([regexp2.Compile],
    [TokenTypeString] and [filepath.Match]). *)
Inductive BuildError : Type :=
| NoRootState
| MissingStates (missing : list string)
| RuleHasNothing
| PushAndPop
| TokenAndInclude
| TokenAndByGroups
| IncludeAndByGroups
| CombinedAndOther
| CombinedSubstateMissing (stateName : string)
| IncludeMissing (stateName : string)
| InvalidPattern (pat : string)
| UnknownTokenType (tokenName : string)
| ErrBadPattern.

(** The spec's four build-time failure classes. *)
Inductive ErrorClass : Type :=
| MissingRootState
| DanglingStateReference
| ConflictingRuleAction
| InvalidPatternClass
| OtherFailure.

Definition classify (e : BuildError) : ErrorClass :=
  match e with
  | NoRootState => MissingRootState
  | MissingStates _ => DanglingStateReference
  | CombinedSubstateMissing _ => DanglingStateReference
  | IncludeMissing _ => DanglingStateReference
  | RuleHasNothing => ConflictingRuleAction
  | PushAndPop => ConflictingRuleAction
  | TokenAndInclude => ConflictingRuleAction
  | TokenAndByGroups => ConflictingRuleAction
  | IncludeAndByGroups => ConflictingRuleAction
  | CombinedAndOther => ConflictingRuleAction
  | InvalidPattern _ => InvalidPatternClass
  | UnknownTokenType _ => OtherFailure
  | ErrBadPattern => OtherFailure
  end.

(** The names a failure message carries. *)
Definition namesListed (e : BuildError) : list string :=
  match e with
  | MissingStates missing => missing
  | IncludeMissing n => [n]
  | CombinedSubstateMissing n => [n]
  | _ => []
  end.

(** Outcome of a call: it returned [a], it was aborted by [mylog.Check]
    with error [e], or its recursion did not bottom out. *)
Inductive run (A : Type) : Type :=
| Done (a : A)
| Abort (e : BuildError)
| Diverge.

Arguments Done {A} a.
Arguments Abort {A} e.
Arguments Diverge {A}.

#[global] Instance run_ret : MRet run := fun A a => Done a.
#[global] Instance run_bind : MBind run := fun A B f m =>
  match m with
  | Done a => f a
  | Abort e => Abort e
  | Diverge => Diverge
  end.

(** [mylog.Check(err)]: continue on nil, abort the call otherwise. *)
Definition mylog_Check (err : option BuildError) : run unit :=
  match err with
  | None => Done tt
  | Some e => Abort e
  end.

(** [mylog.Check2(v, err)]: the value on nil, abort otherwise. *)
Definition mylog_Check2 {A : Type} (v : A) (err : option BuildError) : run A :=
  match err with
  | None => Done v
  | Some e => Abort e
  end.

(** [mylog.CheckIgnore(err)]: the error is reported and dropped. *)
Definition mylog_CheckIgnore (err : option BuildError) : unit := tt.

(** [p != nil] for a pointer field. *)
Definition notNil {A : Type} (p : option A) : bool :=
  match p with
  | Some _ => true
  | None => false
  end.

(** ** The configuration model (package internal/config) *)

Module config.

(** Modelled from the spec: the declarations of package
    internal/config (section 6, the fields the builder consumes) are
    not among the sources; the field names are the ones lexer.go and
    registry.go read. *)
Record Token : Type := { Token_Type : string }.
Record Push : Type := { Push_State : string }.
Record Pop : Type := { Pop_Depth : Z }.
Record Include : Type := { Include_State : string }.
Record Combined : Type := { Combined_States : list string }.
Record UsingSelf : Type := { UsingSelf_State : string }.

(** The dynamic type of [ByGroupsElement.V]. *)
Inductive ByGroupsElement : Type :=
| ElemToken (t : Token)
| ElemUsingSelf (u : UsingSelf)
| ElemOther.

Record ByGroups : Type := { ByGroupsElements : list ByGroupsElement }.

Record Rule : Type := {
  Pattern : string;
  RToken : option Token;
  RPush : option Push;
  RPop : option Pop;
  RInclude : option Include;
  RCombined : option Combined;
  RByGroups : option ByGroups;
  RUsingSelf : option UsingSelf
}.

Record State : Type := { Name : string; Rules : list Rule }.

Record Config : Type := {
  CName : string;
  Aliases : list string;
  Filenames : list string;
  MimeTypes : list string;
  Priority : Z
}.

Record Lexer : Type := { LConfig : Config; States : list State }.

End config.

(** ** Compiled rules and the state table *)

(** Modelled from the spec: [TokenType] (a generated enumeration) is not
    among the sources; it is the integer behind the enumeration, 0 being
    the zero value of an unset [tok]. *)
Definition TokenType : Type := Z.

(** A compiled [*regexp2.Regexp]: the pattern text it was compiled from,
    whether [regexp2.Multiline] was passed, and its [MatchTimeout] in
    nanoseconds. *)
Record Regexp : Type := {
  re_source : string;
  re_multiline : bool;
  MatchTimeout : Z
}.

Definition Millisecond : Z := 1000000%Z.

(** [regexp2.DefaultMatchTimeout]: no limit ([math.MaxInt64]). *)
Definition DefaultMatchTimeout : Z := 9223372036854775807%Z.

(** Modelled from the spec: the structs [byGroupElement], [rule] and
    [state] and the table type [rules] ([newRules], [AddState], [Get],
    [Contains]) are declared outside the sources; the fields are those
    lexer.go assigns, the table is the mapping from state name to state
    of section 3. *)
Record byGroupElement : Type := {
  ge_tok : TokenType;
  ge_useSelfState : string
}.

Record rule : Type := {
  pattern : Regexp;
  tok : TokenType;
  popDepth : Z;
  pushState : string;
  include : string;
  byGroups : list byGroupElement;
  useSelfState : string
}.

Record state : Type := { name : string; rules : list rule }.

Definition newRules : gmap string state := ∅.

Definition AddState (s : state) (tbl : gmap string state) : gmap string state :=
  <[name s := s]> tbl.

Definition Get (tbl : gmap string state) (n : string) : option state := tbl !! n.

Definition Contains (tbl : gmap string state) (n : string) : bool :=
  bool_decide (is_Some (tbl !! n)).

Record Lexer : Type := {
  lexer_config : config.Lexer;
  lexer_rules : gmap string state
}.

(** ** What the builder takes from outside the repository *)

(** [TokenTypeString] is the generated parser of token type names;
    [regexp2_valid pat] tells whether [regexp2.Compile(pat, Multiline)]
    succeeds; [range_order] is the order in which a Go [range] visits
    the entries of the state table, which the language leaves open. *)
Class Externals : Type := {
  TokenTypeString : string → option TokenType;
  regexp2_valid : string → bool;
  range_order : gmap string state → list (string * state);
  range_order_perm : ∀ m, range_order m ≡ₚ map_to_list m
}.

(** ** lexerBuilder *)

Section Builder.
Context `{Ext : Externals}.

(** [regexp2.Compile(pat, regexp2.Multiline)]. *)
Definition regexp2_Compile (pat : string) : Regexp * option BuildError :=
  if regexp2_valid pat
  then ({| re_source := pat; re_multiline := true;
           MatchTimeout := DefaultMatchTimeout |}, None)
  else ({| re_source := ""; re_multiline := false; MatchTimeout := 0%Z |},
        Some (InvalidPattern pat)).

Definition emptyRule (re : Regexp) : rule :=
  {| pattern := re; tok := 0%Z; popDepth := 0%Z; pushState := "";
     include := ""; byGroups := []; useSelfState := "" |}.

Definition makeRule (pat0 : string) : run rule :=
  let pat := "\A" +:+ pat0 in
  re ← (let '(v, err) := regexp2_Compile pat in mylog_Check2 v err);
  let re := {| re_source := re_source re; re_multiline := re_multiline re;
               MatchTimeout := (Millisecond * 250)%Z |} in
  mret (emptyRule re).

Definition makeMissingError (missing : list string) : option BuildError :=
  match missing with
  | [] => None
  | _ => Some (MissingStates missing)
  end.

(** The three loops of [validate], each over [cfg.Rules.States]. *)
Definition validate_foundRoot (states : list config.State) : bool :=
  fold_left (fun found s =>
               if String.eqb (config.Name s) "root" then true else found)
            states false.

Definition validate_stateNames (states : list config.State) : gset string :=
  fold_left (fun names s => {[config.Name s]} ∪ names) states ∅.

Definition validate_rule (stateNames : gset string) (missing : list string)
    (r : config.Rule) : list string :=
  match config.RPush r with
  | None => missing
  | Some p =>
      if String.eqb (config.Push_State p) "" then missing
      else if bool_decide (config.Push_State p ∈ stateNames) then missing
           else missing ++ [config.Push_State p]
  end.

Definition validate_missing (stateNames : gset string)
    (states : list config.State) : list string :=
  fold_left (fun missing s =>
               fold_left (validate_rule stateNames) (config.Rules s) missing)
            states [].

Definition validate (cfg : config.Lexer) : option BuildError :=
  let states := config.States cfg in
  if negb (validate_foundRoot states) then Some NoRootState
  else makeMissingError
         (validate_missing (validate_stateNames states) states).

Definition checkRule (r : config.Rule) : option BuildError :=
  if String.eqb (config.Pattern r) "" && negb (notNil (config.RPush r))
     && negb (notNil (config.RPop r)) && negb (notNil (config.RInclude r))
  then Some RuleHasNothing
  else if notNil (config.RPop r) && notNil (config.RPush r)
  then Some PushAndPop
  else if notNil (config.RToken r) && notNil (config.RInclude r)
  then Some TokenAndInclude
  else if notNil (config.RToken r) && notNil (config.RByGroups r)
  then Some TokenAndByGroups
  else if notNil (config.RInclude r) && notNil (config.RByGroups r)
  then Some IncludeAndByGroups
  else if notNil (config.RCombined r)
          && (notNil (config.RPush r) || notNil (config.RPop r)
              || notNil (config.RInclude r))
  then Some CombinedAndOther
  else None.

(** Field assignments [r.f = v] on a [rule]. *)
Definition set_tok (r : rule) (v : TokenType) : rule :=
  {| pattern := pattern r; tok := v; popDepth := popDepth r;
     pushState := pushState r; include := include r;
     byGroups := byGroups r; useSelfState := useSelfState r |}.

Definition set_popDepth (r : rule) (v : Z) : rule :=
  {| pattern := pattern r; tok := tok r; popDepth := v;
     pushState := pushState r; include := include r;
     byGroups := byGroups r; useSelfState := useSelfState r |}.

Definition set_pushState (r : rule) (v : string) : rule :=
  {| pattern := pattern r; tok := tok r; popDepth := popDepth r;
     pushState := v; include := include r;
     byGroups := byGroups r; useSelfState := useSelfState r |}.

Definition set_include (r : rule) (v : string) : rule :=
  {| pattern := pattern r; tok := tok r; popDepth := popDepth r;
     pushState := pushState r; include := v;
     byGroups := byGroups r; useSelfState := useSelfState r |}.

Definition set_byGroups (r : rule) (v : list byGroupElement) : rule :=
  {| pattern := pattern r; tok := tok r; popDepth := popDepth r;
     pushState := pushState r; include := include r;
     byGroups := v; useSelfState := useSelfState r |}.

Definition set_useSelfState (r : rule) (v : string) : rule :=
  {| pattern := pattern r; tok := tok r; popDepth := popDepth r;
     pushState := pushState r; include := include r;
     byGroups := byGroups r; useSelfState := v |}.

(** [mylog.Check2(TokenTypeString(s))]. *)
Definition tokenTypeOf (s : string) : run TokenType :=
  match TokenTypeString s with
  | Some typ => Done typ
  | None => Abort (UnknownTokenType s)
  end.

(** [strings.Join]. *)
Fixpoint strings_Join (elems : list string) (sep : string) : string :=
  match elems with
  | [] => ""
  | a :: rest =>
      match rest with
      | [] => a
      | _ :: _ => a +:+ sep +:+ strings_Join rest sep
      end
  end.

Definition combinedStateName (c : config.Combined) : string :=
  "__combined_" +:+ strings_Join (config.Combined_States c) "__".

Definition updatePushForCombinedState (r : rule) (cr : config.Rule) : rule :=
  match config.RCombined cr with
  | None => r
  | Some c => set_pushState r (combinedStateName c)
  end.

(** One turn of the [ByGroups] loop of [setRuleFieldsFrom]. *)
Definition byGroupElementOf (e : config.ByGroupsElement) : run byGroupElement :=
  let ge := {| ge_tok := 0%Z; ge_useSelfState := "" |} in
  match e with
  | config.ElemToken v =>
      typ ← tokenTypeOf (config.Token_Type v);
      mret {| ge_tok := typ; ge_useSelfState := ge_useSelfState ge |}
  | config.ElemUsingSelf v =>
      mret {| ge_tok := ge_tok ge; ge_useSelfState := config.UsingSelf_State v |}
  | config.ElemOther => mret ge
  end.

Fixpoint appendByGroups (r : rule) (es : list config.ByGroupsElement) : run rule :=
  match es with
  | [] => mret r
  | e :: rest =>
      ge ← byGroupElementOf e;
      appendByGroups (set_byGroups r (byGroups r ++ [ge])) rest
  end.

Definition setRuleFieldsFrom (r : rule) (cr : config.Rule) : run rule :=
  r ← match config.RToken cr with
      | Some t => typ ← tokenTypeOf (config.Token_Type t); mret (set_tok r typ)
      | None => mret r
      end;
  let r := match config.RPop cr with
           | Some p => set_popDepth r (config.Pop_Depth p)
           | None => r
           end in
  let r := match config.RPush cr with
           | Some p => set_pushState r (config.Push_State p)
           | None => r
           end in
  let r := match config.RInclude cr with
           | Some i => set_include r (config.Include_State i)
           | None => r
           end in
  r ← match config.RByGroups cr with
      | Some g => appendByGroups r (config.ByGroupsElements g)
      | None => mret r
      end;
  let r := match config.RUsingSelf cr with
           | Some u => set_useSelfState r (config.UsingSelf_State u)
           | None => r
           end in
  mret r.

(** The body of the loop of [ruleSequence]. *)
Definition ruleSequence_body (cr : config.Rule) : run rule :=
  _ ← mylog_Check (checkRule cr);
  r ← makeRule (config.Pattern cr);
  let r := updatePushForCombinedState r cr in
  setRuleFieldsFrom r cr.

Fixpoint ruleSequence (crs : list config.Rule) : run (list rule) :=
  match crs with
  | [] => mret []
  | cr :: rest =>
      r ← ruleSequence_body cr;
      rs ← ruleSequence rest;
      mret (r :: rs)
  end.

(** The substate loop of [createCombinedStateInRule]; [acc] is
    [combinedState.rules]. *)
Fixpoint combineSubstates (tbl : gmap string state) (stateName : string)
    (subs : list string) (acc : list rule) : list rule * option BuildError :=
  match subs with
  | [] => (acc, None)
  | substateName :: rest =>
      match Get tbl substateName with
      | None => (acc, Some (CombinedSubstateMissing stateName))
      | Some substate =>
          combineSubstates tbl stateName rest (acc ++ rules substate)
      end
  end.

Definition createCombinedStateInRule (tbl : gmap string state)
    (stateName : string) (cr : config.Rule)
    : gmap string state * option BuildError :=
  match config.RCombined cr with
  | None => (tbl, None)
  | Some c =>
      let combinedStateName := combinedStateName c in
      if Contains tbl combinedStateName then (tbl, None)
      else
        match combineSubstates tbl stateName (config.Combined_States c) [] with
        | (_, Some err) => (tbl, Some err)
        | (rs, None) =>
            (AddState {| name := combinedStateName; rules := rs |} tbl, None)
        end
  end.

Fixpoint createCombinedStates_loop (tbl : gmap string state)
    (stateName : string) (crs : list config.Rule) : run (gmap string state) :=
  match crs with
  | [] => mret tbl
  | cr :: rest =>
      let '(tbl, err) := createCombinedStateInRule tbl stateName cr in
      _ ← mylog_Check err;
      createCombinedStates_loop tbl stateName rest
  end.

Definition createCombinedStates (tbl : gmap string state)
    (st : config.State) : run (gmap string state * option BuildError) :=
  tbl ← createCombinedStates_loop tbl (config.Name st) (config.Rules st);
  mret (tbl, None).

(** The first loop of [build]: one table entry per configured state. *)
Fixpoint build_states (tbl : gmap string state)
    (states : list config.State) : run (gmap string state) :=
  match states with
  | [] => mret tbl
  | xmlState :: rest =>
      seq ← ruleSequence (config.Rules xmlState);
      let s := {| name := config.Name xmlState; rules := seq |} in
      build_states (AddState s tbl) rest
  end.

(** The second loop of [build]. *)
Fixpoint build_combined (tbl : gmap string state)
    (states : list config.State) : run (gmap string state) :=
  match states with
  | [] => mret tbl
  | xmlState :: rest =>
      '(tbl, err) ← createCombinedStates tbl xmlState;
      _ ← mylog_Check err;
      build_combined tbl rest
  end.

Definition build (cfg : config.Lexer) (tbl : gmap string state)
    : run (gmap string state * option BuildError) :=
  tbl ← build_states tbl (config.States cfg);
  tbl ← build_combined tbl (config.States cfg);
  mret (tbl, None).

(** The loop of [resolveIncludesIn]; [recurse] is the recursive call
    and [newRules] the slice being appended to. *)
Fixpoint resolveIncludesIn_loop (recurse : list rule → run (list rule))
    (tbl : gmap string state) (rs : list rule) (newRules : list rule)
    : run (list rule) :=
  match rs with
  | [] => mret newRules
  | rl :: rest =>
      if negb (String.eqb (include rl) "") then
        match Get tbl (include rl) with
        | None => Abort (IncludeMissing (include rl))
        | Some includeState =>
            resolved ← recurse (rules includeState);
            resolveIncludesIn_loop recurse tbl rest (newRules ++ resolved)
        end
      else resolveIncludesIn_loop recurse tbl rest (newRules ++ [rl])
  end.

(** [fuel] bounds the depth of the recursion, which the source leaves
    unbounded. *)
Fixpoint resolveIncludesIn (fuel : nat) (tbl : gmap string state)
    (rs : list rule) : run (list rule) :=
  match fuel with
  | O => Diverge
  | S fuel' => resolveIncludesIn_loop (resolveIncludesIn fuel' tbl) tbl rs []
  end.

(** The loop of [resolveIncludes] over the entries of the old table,
    in the order the [range] visits them. *)
Fixpoint resolveIncludes_loop (fuel : nat) (tbl : gmap string state)
    (entries : list (string * state)) (newRules : gmap string state)
    : run (gmap string state) :=
  match entries with
  | [] => mret newRules
  | (n, st) :: rest =>
      list ← resolveIncludesIn fuel tbl (rules st);
      let st := {| name := name st; rules := list |} in
      resolveIncludes_loop fuel tbl rest (<[n := st]> newRules)
  end.

Definition resolveIncludes (fuel : nat) (tbl : gmap string state)
    : run (gmap string state * option BuildError) :=
  newRules ← resolveIncludes_loop fuel tbl (range_order tbl) ∅;
  mret (newRules, None).

Definition newLexerBuilder (cfg : config.Lexer) : Lexer :=
  {| lexer_config := cfg; lexer_rules := newRules |}.

(** [Build]: the result of [validate] goes to [mylog.CheckIgnore], the
    result of [build] to [mylog.Check], the result of
    [resolveIncludes] is not looked at, and the error returned is
    always nil. *)
Definition Build (fuel : nat) (cfg : config.Lexer)
    : run (Lexer * option BuildError) :=
  let lexer := newLexerBuilder cfg in
  let _ := mylog_CheckIgnore (validate cfg) in
  '(tbl, err) ← build cfg (lexer_rules lexer);
  _ ← mylog_Check err;
  '(tbl, _) ← resolveIncludes fuel tbl;
  mret ({| lexer_config := cfg; lexer_rules := tbl |}, None).

End Builder.

(** ** LexerRegistry (registry.go) *)

Record LexerRegistry : Type := {
  Lexers : list Lexer;
  byName : gmap string Lexer;
  byAlias : gmap string Lexer
}.

(** [filepath.Base], [filepath.Match] (a verdict and an error, the
    error being [ErrBadPattern] for a malformed glob) and [sort.Sort],
    which is given the slice and its [Less]. *)
Class PathLib : Type := {
  filepath_Base : string → string;
  filepath_Match : string → string → bool * option BuildError;
  sort_Sort : (list Lexer → nat → nat → option bool) → list Lexer → list Lexer
}.

Definition priorityOf (l : Lexer) : Z :=
  config.Priority (config.LConfig (lexer_config l)).

(** [prioritisedLexers.Less]; [None] is an index out of range. *)
Definition Less (l : list Lexer) (i j : nat) : option bool :=
  li ← l !! i;
  lj ← l !! j;
  let ip := priorityOf li in
  let ip := if Z.eqb ip 0 then 1%Z else ip in
  let jp := priorityOf lj in
  let jp := if Z.eqb jp 0 then 1%Z else jp in
  Some (Z.gtb ip jp).

Section Registry.
Context `{PL : PathLib}.

(** The inner loop of [Match]: the verdict of [filepath.Match] is
    dropped, only its error is looked at. *)
Fixpoint Match_globs (globs : list string) (filename : string)
    (matched : list Lexer) : run (list Lexer) :=
  match globs with
  | [] => mret matched
  | glob :: rest =>
      _ ← (let '(ok, err) := filepath_Match glob filename in
           mylog_Check2 ok err);
      Match_globs rest filename matched
  end.

Fixpoint Match_lexers (lexers : list Lexer) (filename : string)
    (matched : list Lexer) : run (list Lexer) :=
  match lexers with
  | [] => mret matched
  | lexer :: rest =>
      let config := config.LConfig (lexer_config lexer) in
      matched ← Match_globs (config.Filenames config) filename matched;
      Match_lexers rest filename matched
  end.

Definition Match (l : LexerRegistry) (filename : string) : run (option Lexer) :=
  let filename := filepath_Base filename in
  let matched := [] in
  matched ← Match_lexers (Lexers l) filename matched;
  if Nat.ltb 0 (length matched)
  then mret (head (sort_Sort Less matched))
  else mret None.

(** What section 6 asks of the selection layer: the glob matches the
    base name. *)
Definition declaresMatch (filename : string) (lexer : Lexer) : Prop :=
  ∃ glob, glob ∈ config.Filenames (config.LConfig (lexer_config lexer))
          ∧ filepath_Match glob (filepath_Base filename) = (true, None).

End Registry.

(** ** The rest of LexerRegistry (registry.go) *)

(** [strings.ToLower], and [sort.Strings] with its contract: the result
    is the same strings in ascending byte order. *)
Class StringsLib : Type := {
  strings_ToLower : string → string;
  sort_Strings : list string → list string;
  sort_Strings_perm : ∀ l, sort_Strings l ≡ₚ l;
  sort_Strings_sorted :
    ∀ l, Sorted (fun a b => String.leb a b = true) (sort_Strings l)
}.

(** The contract of [sort.Sort] for [prioritisedLexers]: the result
    holds the same lexers, and no later entry is [Less] than an earlier
    one. *)
Class SortContract `{PL : PathLib} : Prop := {
  sort_Sort_perm : ∀ l, sort_Sort Less l ≡ₚ l;
  sort_Sort_sorted :
    ∀ l i j, (i < j)%nat → Less (sort_Sort Less l) j i ≠ Some true
}.

(** The priority [Less] compares: 1 when unset. *)
Definition effectivePriority (l : Lexer) : Z :=
  if Z.eqb (priorityOf l) 0 then 1%Z else priorityOf l.

Definition NewLexerRegistry : LexerRegistry :=
  {| Lexers := []; byName := ∅; byAlias := ∅ |}.



Section RegistryRest.
Context `{PL : PathLib} `{SL : StringsLib}.

(** The loop of [Names]; [out] is the slice being appended to. *)
Fixpoint Names_loop (lexers : list Lexer) (withAliases : bool)
    (out : list string) : list string :=
  match lexers with
  | [] => out
  | lexer :: rest =>
      let config := config.LConfig (lexer_config lexer) in
      let out := out ++ [config.CName config] in
      let out := if withAliases then out ++ config.Aliases config else out in
      Names_loop rest withAliases out
  end.

Definition Names (l : LexerRegistry) (withAliases : bool) : list string :=
  sort_Strings (Names_loop (Lexers l) withAliases []).

(** [LexerRegistry.Get]. *)
Definition Registry_Get (l : LexerRegistry) (name : string) : run (option Lexer) :=
  match byName l !! name with
  | Some lexer => mret (Some lexer)
  | None =>
  match byAlias l !! name with
  | Some lexer => mret (Some lexer)
  | None =>
  match byName l !! strings_ToLower name with
  | Some lexer => mret (Some lexer)
  | None =>
  match byAlias l !! strings_ToLower name with
  | Some lexer => mret (Some lexer)
  | None =>
      let candidates := [] in
      m ← Match l ("filename." +:+ name);
      let candidates := match m with
                        | Some lexer => candidates ++ [lexer]
                        | None => candidates
                        end in
      m ← Match l name;
      let candidates := match m with
                        | Some lexer => candidates ++ [lexer]
                        | None => candidates
                        end in
      if Nat.eqb (length candidates) 0 then mret None
      else mret (head (sort_Sort Less candidates))
  end end end end.

(** The loops of [MatchMimeType]. *)
Fixpoint MatchMimeType_types (lexer : Lexer) (types : list string)
    (mimeType : string) (matched : list Lexer) : list Lexer :=
  match types with
  | [] => matched
  | lmt :: rest =>
      MatchMimeType_types lexer rest mimeType
        (if String.eqb mimeType lmt then matched ++ [lexer] else matched)
  end.

Fixpoint MatchMimeType_lexers (lexers : list Lexer) (mimeType : string)
    (matched : list Lexer) : list Lexer :=
  match lexers with
  | [] => matched
  | l :: rest =>
      MatchMimeType_lexers rest mimeType
        (MatchMimeType_types l
           (config.MimeTypes (config.LConfig (lexer_config l))) mimeType matched)
  end.

Definition MatchMimeType (l : LexerRegistry) (mimeType : string) : option Lexer :=
  let matched := MatchMimeType_lexers (Lexers l) mimeType [] in
  if negb (Nat.eqb (length matched) 0)
  then head (sort_Sort Less matched)
  else None.

(** The alias loop of [Register]. *)
Fixpoint Register_aliases (aliases : list string) (lexer : Lexer)
    (byAlias : gmap string Lexer) : gmap string Lexer :=
  match aliases with
  | [] => byAlias
  | alias :: rest =>
      Register_aliases rest lexer
        (<[strings_ToLower alias := lexer]> (<[alias := lexer]> byAlias))
  end.

(** [Register]: the registry afterwards and the lexer returned. *)
Definition Register (l : LexerRegistry) (lexer : Lexer) : LexerRegistry * Lexer :=
  let config := config.LConfig (lexer_config lexer) in
  let byName := <[config.CName config := lexer]> (byName l) in
  let byName := <[strings_ToLower (config.CName config) := lexer]> byName in
  let byAlias := Register_aliases (config.Aliases config) lexer (byAlias l) in
  ({| Lexers := Lexers l ++ [lexer]; byName := byName; byAlias := byAlias |},
   lexer).

(** The keys [Register] writes for a lexer. *)
Definition claimedNames (lexer : Lexer) : list string :=
  let config := config.LConfig (lexer_config lexer) in
  [config.CName config; strings_ToLower (config.CName config)].

Definition claimedAliases (lexer : Lexer) : list string :=
  let config := config.LConfig (lexer_config lexer) in
  config.Aliases config ++ (strings_ToLower <$> config.Aliases config).

End RegistryRest.

(** ** The tokenizer *)

Module Tokenizer.

(** Modelled from the spec: the tokenizer ([newIterator] and the
    iterator it returns) is not among the sources; the definitions
    below follow the per-step algorithm of section 4.2 and the data
    model of section 3, a rule being a tagged variant as section 9
    has it. *)
Definition rune : Type := nat.

Record Token : Type := { tk_type : TokenType; tk_start : nat; tk_length : nat }.

(** A successful anchored match: its length and the spans (start in
    the text, length) of its capture groups, left to right. *)
Record MatchResult : Type := { m_length : nat; m_groups : list (nat * nat) }.

(** The state-stack part of a [Token] action: nothing, [Push] of a
    named state, [#push], or [Pop] of a depth ([#pop] is depth 1). *)
Inductive StackOp : Type :=
| NoOp
| PushState (target : string)
| PushSelf
| PopStates (depth : nat).

Inductive GroupAction : Type :=
| GroupToken (ty : TokenType)
| GroupUsingSelf (st : string).

Inductive Action : Type :=
| ActToken (ty : TokenType) (op : StackOp)
| ActByGroups (gs : list GroupAction)
| ActUsingSelf (st : option string).

(** [matchAt text p] is the anchored, time-boxed match at [p]; a
    timeout is a non-match. *)
Record Rule : Type := {
  matchAt : list rune → nat → option MatchResult;
  action : Action
}.

Section Engine.
(** The designated Error token type. *)
Variable Error : TokenType.

Definition errorToken (p : nat) : Token :=
  {| tk_type := Error; tk_start := p; tk_length := 1 |}.

Definition rulesOf (tbl : gmap string (list Rule)) (st : option string)
    : list Rule :=
  match st with
  | Some n => default [] (tbl !! n)
  | None => []
  end.

(** The stack grows at its end; the floor entry comes first. *)
Definition top (stack : list string) : option string := last stack.

Definition applyOp (op : StackOp) (stack : list string) : list string :=
  match op with
  | NoOp => stack
  | PushState target => stack ++ [target]
  | PushSelf =>
      match top stack with
      | Some cur => stack ++ [cur]
      | None => stack
      end
  | PopStates depth =>
      take (length stack - Nat.min depth (length stack - 1)) stack
  end.

Fixpoint firstMatch (rs : list Rule) (text : list rune) (p : nat)
    : option (Rule * MatchResult) :=
  match rs with
  | [] => None
  | r :: rest =>
      match matchAt r text p with
      | Some m => Some (r, m)
      | None => firstMatch rest text p
      end
  end.

Definition rebase (off : nat) (t : Token) : Token :=
  {| tk_type := tk_type t; tk_start := tk_start t + off;
     tk_length := tk_length t |}.

Definition span (text : list rune) (s len : nat) : list rune :=
  take len (drop s text).

Section Step.
(** A nested sub-session: the state it starts in and its text;
    [None] when it does not complete. *)
Variable nested : string → list rune → option (list Token).

Definition groupTokens (g : GroupAction) (s l : nat)
    (text : list rune) : option (list Token) :=
  match g with
  | GroupToken ty =>
      Some [{| tk_type := ty; tk_start := s; tk_length := l |}]
  | GroupUsingSelf st =>
      option_map (List.map (rebase s)) (nested st (span text s l))
  end.

Fixpoint byGroupsTokens (gs : list GroupAction)
    (spans : list (nat * nat)) (text : list rune) : option (list Token) :=
  match gs, spans with
  | g :: gs', (s, l) :: spans' =>
      toks ← groupTokens g s l text;
      more ← byGroupsTokens gs' spans' text;
      Some (toks ++ more)
  | _, _ => Some []
  end.

(** Step 2, dispatch by action: the tokens emitted and the stack
    afterwards. *)
Definition dispatch (r : Rule) (m : MatchResult) (stack : list string)
    (p : nat) (text : list rune) : option (list Token * list string) :=
  match action r with
  | ActToken ty op =>
      Some ([{| tk_type := ty; tk_start := p; tk_length := m_length m |}],
            applyOp op stack)
  | ActByGroups gs =>
      toks ← byGroupsTokens gs (m_groups m) text;
      Some (toks, stack)
  | ActUsingSelf st =>
      match (match st with Some n => Some n | None => top stack end) with
      | Some n =>
          toks ← nested n (span text p (m_length m));
          Some (List.map (rebase p) toks, stack)
      | None => Some ([], stack)
      end
  end.

(** Steps 2 and 3 at position [p < length text]: tokens emitted,
    new stack, new position. *)
Definition step (tbl : gmap string (list Rule)) (stack : list string)
    (p : nat) (text : list rune)
    : option (list Token * list string * nat) :=
  match firstMatch (rulesOf tbl (top stack)) text p with
  | None => Some ([errorToken p], stack, p + 1)
  | Some (r, m) =>
      '(toks, stack') ← dispatch r m stack p text;
      if Nat.eqb (m_length m) 0 && bool_decide (stack' = stack)
      then Some ([errorToken p], stack, p + 1)
      else Some (toks, stack', p + m_length m)
  end.
End Step.

(** Steps 1 to 4; [fuel] bounds the number of steps and the depth of
    nested sub-sessions, [None] is a session that did not end. *)
Fixpoint run_session (fuel : nat) (tbl : gmap string (list Rule))
    (stack : list string) (p : nat) (text : list rune)
    : option (list Token) :=
  match fuel with
  | O => None
  | S fuel' =>
      if Nat.leb (length text) p then Some []
      else
        '(toks, stack', p') ←
          step (fun st sub => run_session fuel' tbl [st] 0 sub)
               tbl stack p text;
        more ← run_session fuel' tbl stack' p' text;
        Some (toks ++ more)
  end.

Definition tokenise (fuel : nat) (tbl : gmap string (list Rule))
    (text : list rune) : option (list Token) :=
  run_session fuel tbl ["root"] 0 text.

End Engine.

End Tokenizer.

(** ** Concrete grammars and a concrete environment *)

Module Examples.

Definition exTokenTypeString (s : string) : option TokenType :=
  if String.eqb s "Text" then Some 1%Z
  else if String.eqb s "Number" then Some 2%Z
  else if String.eqb s "Error" then Some 3%Z
  else None.

(** An unclosed group is the one pattern this environment rejects. *)
Definition exValid (pat : string) : bool := negb (String.eqb pat "\A(").

Definition exExternals : Externals :=
  {| TokenTypeString := exTokenTypeString;
     regexp2_valid := exValid;
     range_order := map_to_list;
     range_order_perm := fun m => Permutation_refl (map_to_list m) |}.

(** A rule with a pattern and a [Token] element only. *)
Definition tokenRule (pat ty : string) : config.Rule :=
  {| config.Pattern := pat;
     config.RToken := Some {| config.Token_Type := ty |};
     config.RPush := None; config.RPop := None; config.RInclude := None;
     config.RCombined := None; config.RByGroups := None;
     config.RUsingSelf := None |}.

Definition pushRule (pat ty target : string) : config.Rule :=
  {| config.Pattern := pat;
     config.RToken := Some {| config.Token_Type := ty |};
     config.RPush := Some {| config.Push_State := target |};
     config.RPop := None; config.RInclude := None;
     config.RCombined := None; config.RByGroups := None;
     config.RUsingSelf := None |}.

Definition includeRule (target : string) : config.Rule :=
  {| config.Pattern := ""; config.RToken := None;
     config.RPush := None; config.RPop := None;
     config.RInclude := Some {| config.Include_State := target |};
     config.RCombined := None; config.RByGroups := None;
     config.RUsingSelf := None |}.

Definition combinedRule (pat : string) (subs : list string) : config.Rule :=
  {| config.Pattern := pat; config.RToken := None;
     config.RPush := None; config.RPop := None; config.RInclude := None;
     config.RCombined := Some {| config.Combined_States := subs |};
     config.RByGroups := None; config.RUsingSelf := None |}.

Definition pushPopRule (pat : string) : config.Rule :=
  {| config.Pattern := pat; config.RToken := None;
     config.RPush := Some {| config.Push_State := "root" |};
     config.RPop := Some {| config.Pop_Depth := 1%Z |};
     config.RInclude := None; config.RCombined := None;
     config.RByGroups := None; config.RUsingSelf := None |}.

Definition exConfig : config.Config :=
  {| config.CName := "ex"; config.Aliases := [];
     config.Filenames := ["*.ex"]; config.MimeTypes := [];
     config.Priority := 0%Z |}.

Definition grammar (states : list config.State) : config.Lexer :=
  {| config.LConfig := exConfig; config.States := states |}.

Definition mkState (n : string) (rs : list config.Rule) : config.State :=
  {| config.Name := n; config.Rules := rs |}.

(** No state is named root. *)
Definition cfg_noRoot : config.Lexer :=
  grammar [mkState "main" [tokenRule "a" "Text"]].

(** The rule of root pushes a state that is not defined. *)
Definition cfg_danglingPush : config.Lexer :=
  grammar [mkState "root" [pushRule "a" "Text" "nowhere"]].

(** Root includes two states that are not defined. *)
Definition cfg_danglingIncludes : config.Lexer :=
  grammar [mkState "root" [includeRule "x"; includeRule "y"]].

(** Root includes itself. *)
Definition cfg_selfInclude : config.Lexer :=
  grammar [mkState "root" [includeRule "root"]].

(** root includes B, B includes C. *)
Definition cfg_chain : config.Lexer :=
  grammar [mkState "root" [tokenRule "a1" "Text"; includeRule "B";
                           tokenRule "a2" "Text"];
           mkState "B" [tokenRule "b1" "Number"; includeRule "C";
                        tokenRule "b2" "Number"];
           mkState "C" [tokenRule "c1" "Error"]].

(** A rule without pattern whose only directive is [Combined]. *)
Definition cfg_combinedNoPattern : config.Lexer :=
  grammar [mkState "root" [combinedRule "" ["root"]]].

(** Two rules whose lists differ and whose state names collide. *)
Definition cfg_collision : config.Lexer :=
  grammar [mkState "root" [combinedRule "x" ["a__b"];
                           combinedRule "y" ["a"; "b"]];
           mkState "a" [tokenRule "a" "Text"];
           mkState "b" [tokenRule "b" "Number"];
           mkState "a__b" [tokenRule "ab" "Error"]].

(** Two rules declaring the same list. *)
Definition cfg_sameList : config.Lexer :=
  grammar [mkState "root" [combinedRule "x" ["a"; "b"];
                           combinedRule "y" ["a"; "b"]];
           mkState "a" [tokenRule "a" "Text"];
           mkState "b" [tokenRule "b" "Number"]].

(** A rule with both a push and a pop. *)
Definition cfg_pushPop : config.Lexer :=
  grammar [mkState "root" [tokenRule "a" "Text"; pushPopRule "b"]].

(** Root pushes an undefined state and includes another one. *)
Definition cfg_danglingBoth : config.Lexer :=
  grammar [mkState "root" [pushRule "a" "Text" "nowhere"; includeRule "x"]].

(** The pattern of the one rule does not compile. *)
Definition cfg_badPattern : config.Lexer :=
  grammar [mkState "root" [tokenRule "(" "Text"]].

(** The pattern of the one rule does not compile, and the rule has both
    a push and a pop. *)
Definition cfg_conflictBadPattern : config.Lexer :=
  grammar [mkState "root" [pushPopRule "("]].

(** The rule a configured rule compiles to in [exExternals]. *)
Definition compiled (pat : string) (ty : TokenType) : rule :=
  {| pattern := {| re_source := "\A" +:+ pat; re_multiline := true;
                   MatchTimeout := 250000000%Z |};
     tok := ty; popDepth := 0%Z; pushState := ""; include := "";
     byGroups := []; useSelfState := "" |}.

(** A registry of one lexer declaring the glob "*.ex", and path
    functions under which that glob matches every name. *)
Definition exLexer : Lexer :=
  {| lexer_config := grammar []; lexer_rules := ∅ |}.

Definition exRegistry : LexerRegistry :=
  {| Lexers := [exLexer]; byName := ∅; byAlias := ∅ |}.

Definition exPathLib : PathLib :=
  {| filepath_Base := fun f => f;
     filepath_Match := fun glob f => (true, None);
     sort_Sort := fun less l => l |}.

(** A table whose root has one rule: it matches the empty string and
    pushes root. *)
Definition emptyMatch (text : list Tokenizer.rune) (p : nat)
    : option Tokenizer.MatchResult :=
  Some {| Tokenizer.m_length := 0; Tokenizer.m_groups := [] |}.

Definition tbl_pushLoop : gmap string (list Tokenizer.Rule) :=
  {[ "root" := [ {| Tokenizer.matchAt := emptyMatch;
                    Tokenizer.action :=
                      Tokenizer.ActToken 1%Z (Tokenizer.PushState "root") |} ] ]}.

(** Scenario A of section 8: digits are a Number, anything else is an
    Error; runes are code points. *)
Definition isDigit (c : Tokenizer.rune) : bool :=
  Nat.leb 48 c && Nat.leb c 57.

Fixpoint digitsFrom (text : list Tokenizer.rune) : nat :=
  match text with
  | c :: rest => if isDigit c then S (digitsFrom rest) else 0
  | [] => 0
  end.

Definition matchDigits (text : list Tokenizer.rune) (p : nat)
    : option Tokenizer.MatchResult :=
  match digitsFrom (drop p text) with
  | O => None
  | n => Some {| Tokenizer.m_length := n; Tokenizer.m_groups := [] |}
  end.

Definition matchAny (text : list Tokenizer.rune) (p : nat)
    : option Tokenizer.MatchResult :=
  match text !! p with
  | Some _ => Some {| Tokenizer.m_length := 1; Tokenizer.m_groups := [] |}
  | None => None
  end.

Definition tbl_scenarioA : gmap string (list Tokenizer.Rule) :=
  {[ "root" := [ {| Tokenizer.matchAt := matchDigits;
                    Tokenizer.action := Tokenizer.ActToken 2%Z Tokenizer.NoOp |};
                 {| Tokenizer.matchAt := matchAny;
                    Tokenizer.action := Tokenizer.ActToken 3%Z Tokenizer.NoOp |} ] ]}.

(** A '#' followed by one more character, each in a capture group of
    its own. *)
Definition matchHash (text : list Tokenizer.rune) (p : nat)
    : option Tokenizer.MatchResult :=
  match text !! p, text !! (p + 1) with
  | Some c, Some _ =>
      if Nat.eqb c 35
      then Some {| Tokenizer.m_length := 2;
                   Tokenizer.m_groups := [(p, 1); (p + 1, 1)] |}
      else None
  | _, _ => None
  end.

(** Digits are a Number; of "#c" the '#' is a Text and the character
    after it is tokenised in a nested sub-session; the last rule
    matches the empty string and leaves the stack alone. *)
Definition tbl_nested : gmap string (list Tokenizer.Rule) :=
  {[ "root" := [ {| Tokenizer.matchAt := matchDigits;
                    Tokenizer.action := Tokenizer.ActToken 2%Z Tokenizer.NoOp |};
                 {| Tokenizer.matchAt := matchHash;
                    Tokenizer.action :=
                      Tokenizer.ActByGroups [Tokenizer.GroupToken 1%Z;
                                             Tokenizer.GroupUsingSelf "root"] |};
                 {| Tokenizer.matchAt := emptyMatch;
                    Tokenizer.action := Tokenizer.ActToken 1%Z Tokenizer.NoOp |} ] ]}.

(** A table whose root has one rule: it matches all that is left of
    the text and tokenises it in a nested sub-session of the current
    state. *)
Definition matchRest (text : list Tokenizer.rune) (p : nat)
    : option Tokenizer.MatchResult :=
  if Nat.ltb p (length text)
  then Some {| Tokenizer.m_length := length text - p; Tokenizer.m_groups := [] |}
  else None.

Definition tbl_nestLoop : gmap string (list Tokenizer.Rule) :=
  {[ "root" := [ {| Tokenizer.matchAt := matchRest;
                    Tokenizer.action := Tokenizer.ActUsingSelf None |} ] ]}.

End Examples.

(** ** Vocabulary of the properties *)

(** What one rule contributes to the resolved list: one turn of the
    loop of [resolveIncludesIn]. *)
Definition expandRule (recurse : list rule → run (list rule))
    (tbl : gmap string state) (rl : rule) : run (list rule) :=
  if negb (String.eqb (include rl) "") then
    match Get tbl (include rl) with
    | None => Abort (IncludeMissing (include rl))
    | Some includeState => recurse (rules includeState)
    end
  else Done [rl].

(** The rule list a table holds under a name. *)
Definition rulesIn (tbl : gmap string state) (n : string) : list rule :=
  match tbl !! n with
  | Some st => rules st
  | None => []
  end.

(** A rule with its [Include] replaced by the rules the table [final]
    holds for the state it names. *)
Definition substitute (final : gmap string state) (rl : rule) : list rule :=
  if String.eqb (include rl) "" then [rl] else rulesIn final (include rl).

(** The table has no [Include] rule left. *)
Definition includeFree (tbl : gmap string state) : Prop :=
  ∀ n st, tbl !! n = Some st → Forall (fun rl => include rl = "") (rules st).

(** The expected result of [Build] on [Examples.cfg_chain]. *)
Definition chainLexer : Lexer :=
  {| lexer_config := Examples.cfg_chain;
     lexer_rules :=
       list_to_map
         [("root", {| name := "root";
                      rules := [Examples.compiled "a1" 1%Z; Examples.compiled "b1" 2%Z;
                                Examples.compiled "c1" 3%Z; Examples.compiled "b2" 2%Z;
                                Examples.compiled "a2" 1%Z] |});
          ("B", {| name := "B";
                   rules := [Examples.compiled "b1" 2%Z; Examples.compiled "c1" 3%Z;
                             Examples.compiled "b2" 2%Z] |});
          ("C", {| name := "C"; rules := [Examples.compiled "c1" 3%Z] |})] |}.

(** [rank] bounds the include chains of the table: every state ranks
    below [N], and an [Include] of a state the table defines goes to a
    state of smaller rank. *)
Definition rankedb (rank : string → nat) (N : nat)
    (tbl : gmap string state) : bool :=
  forallb
    (fun '(n, st) =>
       Nat.ltb (rank n) N
       && forallb (fun rl =>
                     String.eqb (include rl) ""
                     || negb (Contains tbl (include rl))
                     || Nat.ltb (rank (include rl)) (rank n))
                  (rules st))
    (map_to_list tbl).

(** Some rule of the table includes a state the table lacks. *)
Definition danglingInclude (tbl : gmap string state) : Prop :=
  ∃ n st rl, tbl !! n = Some st ∧ rl ∈ rules st
             ∧ include rl ≠ "" ∧ tbl !! include rl = None.

(** [n] is the target of an [Include] of some rule of the table, and
    the table has no state of that name. *)
Definition missingIncludeTarget (tbl : gmap string state) (n : string) : Prop :=
  n ≠ "" ∧ tbl !! n = None
  ∧ ∃ k st rl, tbl !! k = Some st ∧ rl ∈ rules st ∧ include rl = n.

(** The table [build] assembles for [Examples.cfg_danglingBoth]. *)
Definition danglingBothTable : gmap string state :=
  {[ "root" := {| name := "root";
                  rules := [set_pushState (Examples.compiled "a" 1%Z) "nowhere";
                            set_include
                              (emptyRule {| re_source := "\A"; re_multiline := true;
                                            MatchTimeout := 250000000%Z |})
                              "x"] |} ]}.

(** The table [build] assembles for [Examples.cfg_selfInclude]. *)
Definition selfTable : gmap string state :=
  {[ "root" := {| name := "root";
                  rules := [set_include
                              (emptyRule {| re_source := "\A"; re_multiline := true;
                                            MatchTimeout := 250000000%Z |})
                              "root"] |} ]}.

(** A rank for the chain root -> B -> C. *)
Definition chainRank (n : string) : nat :=
  if String.eqb n "root" then 2 else if String.eqb n "B" then 1 else 0.

(** The expected result of [Build] on [Examples.cfg_noRoot]. *)
Definition noRootLexer : Lexer :=
  {| lexer_config := Examples.cfg_noRoot;
     lexer_rules :=
       {[ "main" := {| name := "main"; rules := [Examples.compiled "a" 1%Z] |} ]} |}.

(** A compiled rule that carries a push target and no token type. *)
Definition compiledPush (pat target : string) : rule :=
  set_pushState (Examples.compiled pat 0%Z) target.

(** The expected result of [Build] on [Examples.cfg_collision]: one
    synthesized state, holding the rules of the state "a__b". *)
Definition collisionLexer : Lexer :=
  {| lexer_config := Examples.cfg_collision;
     lexer_rules :=
       list_to_map
         [("root", {| name := "root";
                      rules := [compiledPush "x" "__combined_a__b";
                                compiledPush "y" "__combined_a__b"] |});
          ("a", {| name := "a"; rules := [Examples.compiled "a" 1%Z] |});
          ("b", {| name := "b"; rules := [Examples.compiled "b" 2%Z] |});
          ("a__b", {| name := "a__b"; rules := [Examples.compiled "ab" 3%Z] |});
          ("__combined_a__b",
           {| name := "__combined_a__b"; rules := [Examples.compiled "ab" 3%Z] |})] |}.

(** The matcher [makeRule] builds for a pattern: anchored by "\A",
    multiline, with a match budget of 250 ms. *)
Definition anchored (pat : string) : Regexp :=
  {| re_source := "\A" +:+ pat; re_multiline := true;
     MatchTimeout := (Millisecond * 250)%Z |}.

(** The rules [checkRule] turns down: a rule pairing Push with Pop,
    Token with Include, Token with ByGroups, Include with ByGroups,
    Combined with one of Push, Pop, Include, or a rule with an empty
    pattern and none of Push, Pop, Include. *)
Definition rejected (r : config.Rule) : bool :=
  (notNil (config.RPush r) && notNil (config.RPop r))
  || (notNil (config.RToken r) && notNil (config.RInclude r))
  || (notNil (config.RToken r) && notNil (config.RByGroups r))
  || (notNil (config.RInclude r) && notNil (config.RByGroups r))
  || (notNil (config.RCombined r)
      && (notNil (config.RPush r) || notNil (config.RPop r)
          || notNil (config.RInclude r)))
  || (String.eqb (config.Pattern r) "" && negb (notNil (config.RPush r))
      && negb (notNil (config.RPop r)) && negb (notNil (config.RInclude r))).

(** The rules section 4.1 says are turned down: the same pairs, or a
    rule with neither a pattern nor any directive. *)
Definition claimedConflict (r : config.Rule) : bool :=
  (notNil (config.RPush r) && notNil (config.RPop r))
  || (notNil (config.RToken r) && notNil (config.RInclude r))
  || (notNil (config.RToken r) && notNil (config.RByGroups r))
  || (notNil (config.RInclude r) && notNil (config.RByGroups r))
  || (notNil (config.RCombined r)
      && (notNil (config.RPush r) || notNil (config.RPop r)
          || notNil (config.RInclude r)))
  || (String.eqb (config.Pattern r) ""
      && negb (notNil (config.RToken r) || notNil (config.RPush r)
               || notNil (config.RPop r) || notNil (config.RInclude r)
               || notNil (config.RCombined r) || notNil (config.RByGroups r)
               || notNil (config.RUsingSelf r))).

(** The rule [r] is declared by state [s] of the grammar. *)
Definition declares (cfg : config.Lexer) (s : config.State)
    (r : config.Rule) : Prop :=
  s ∈ config.States cfg ∧ r ∈ config.Rules s.

Section LexemeVocabulary.
Context `{Ext : Externals}.

Definition groupElementOk (e : config.ByGroupsElement) : bool :=
  match e with
  | config.ElemToken t => notNil (TokenTypeString (config.Token_Type t))
  | _ => true
  end.

(** The pattern of the rule compiles and its token type names are
    known: the rule cannot fail outside [checkRule]. *)
Definition lexemesOk (r : config.Rule) : bool :=
  regexp2_valid ("\A" +:+ config.Pattern r)
  && match config.RToken r with
     | Some t => notNil (TokenTypeString (config.Token_Type t))
     | None => true
     end
  && match config.RByGroups r with
     | Some g => forallb groupElementOk (config.ByGroupsElements g)
     | None => true
     end.

Definition allLexemesOk (cfg : config.Lexer) : bool :=
  forallb (fun s => forallb lexemesOk (config.Rules s)) (config.States cfg).

(** The token type names of the rule are known. *)
Definition typesKnown (r : config.Rule) : bool :=
  match config.RToken r with
  | Some t => notNil (TokenTypeString (config.Token_Type t))
  | None => true
  end
  && match config.RByGroups r with
     | Some g => forallb groupElementOk (config.ByGroupsElements g)
     | None => true
     end.

(** [checkRule] accepts the rule and its token type names are known:
    the rule can only fail in [makeRule]. *)
Definition wellFormedRule (r : config.Rule) : bool :=
  negb (rejected r) && typesKnown r.

Definition wellFormed (cfg : config.Lexer) : bool :=
  forallb (fun s => forallb wellFormedRule (config.Rules s)) (config.States cfg).
End LexemeVocabulary.

(** Every rule of every state of the table satisfies [P]. *)
Definition tableAll (P : rule → Prop) (tbl : gmap string state) : Prop :=
  ∀ n st, tbl !! n = Some st → Forall P (rules st).

(** The rules of the grammar in the order the second loop of [build]
    visits them, each with the name of its state. *)
Definition rulesOfStates (states : list config.State)
    : list (string * config.Rule) :=
  flat_map (fun s => (fun r => (config.Name s, r)) <$> config.Rules s) states.

(** The second loop of [build], over that list. *)
Fixpoint combine_all (tbl : gmap string state)
    (items : list (string * config.Rule)) : run (gmap string state) :=
  match items with
  | [] => Done tbl
  | (n, cr) :: rest =>
      let '(tbl', err) := createCombinedStateInRule tbl n cr in
      mylog_Check err ≫= fun _ => combine_all tbl' rest
  end.

(** The grammar has a rule declaring [Combined] with the list [c]. *)
Definition declaresCombined (cfg : config.Lexer) (c : config.Combined) : Prop :=
  ∃ s r, declares cfg s r ∧ config.RCombined r = Some c.

(** A state of that name is configured. *)
Definition configured (cfg : config.Lexer) (n : string) : Prop :=
  ∃ s, s ∈ config.States cfg ∧ config.Name s = n.

(** A state named [n] is configured (decided). *)
Definition configuredb (cfg : config.Lexer) (n : string) : bool :=
  existsb (fun s => String.eqb (config.Name s) n) (config.States cfg).

(** No rule of the grammar declares a list other than that of [c]
    under the synthesized name of [c]. *)
Definition nameUnsharedb (cfg : config.Lexer) (c : config.Combined) : bool :=
  forallb
    (fun s =>
       forallb (fun r =>
                  match config.RCombined r with
                  | Some c' =>
                      negb (String.eqb (combinedStateName c') (combinedStateName c))
                      || bool_decide (config.Combined_States c'
                                      = config.Combined_States c)
                  | None => true
                  end)
               (config.Rules s))
    (config.States cfg).

(** The expected result of [Build] on [Examples.cfg_sameList]. *)
Definition sameListLexer : Lexer :=
  {| lexer_config := Examples.cfg_sameList;
     lexer_rules :=
       list_to_map
         [("root", {| name := "root";
                      rules := [compiledPush "x" "__combined_a__b";
                                compiledPush "y" "__combined_a__b"] |});
          ("a", {| name := "a"; rules := [Examples.compiled "a" 1%Z] |});
          ("b", {| name := "b"; rules := [Examples.compiled "b" 2%Z] |});
          ("__combined_a__b",
           {| name := "__combined_a__b";
              rules := [Examples.compiled "a" 1%Z; Examples.compiled "b" 2%Z] |})] |}.

(** [t] is a Push target of the grammar, not empty, that names no
    configured state. *)
Definition undefinedPushTarget (cfg : config.Lexer) (t : string) : Prop :=
  ∃ s r p, declares cfg s r ∧ config.RPush r = Some p
           ∧ config.Push_State p = t ∧ t ≠ "" ∧ ¬ configured cfg t.

(** The action is a Token that pushes a state. *)
Definition pushes (a : Tokenizer.Action) : bool :=
  match a with
  | Tokenizer.ActToken _ (Tokenizer.PushState _) => true
  | Tokenizer.ActToken _ Tokenizer.PushSelf => true
  | _ => false
  end.

(** No rule of the table pushes a state on a match of length zero. *)
Definition noEmptyPush (tbl : gmap string (list Tokenizer.Rule)) : Prop :=
  ∀ n rs r text p m,
    tbl !! n = Some rs → r ∈ rs → Tokenizer.matchAt r text p = Some m →
    Tokenizer.m_length m = 0 → pushes (Tokenizer.action r) = false.

(** The nested sub-sessions a ByGroups starts: the state and the span
    (start, length) of each group that is tokenised recursively. *)
Fixpoint groupStarts (gs : list Tokenizer.GroupAction)
    (spans : list (nat * nat)) : list (string * (nat * nat)) :=
  match gs, spans with
  | g :: gs', (s, l) :: spans' =>
      match g with
      | Tokenizer.GroupUsingSelf st => (st, (s, l)) :: groupStarts gs' spans'
      | Tokenizer.GroupToken _ => groupStarts gs' spans'
      end
  | _, _ => []
  end.

(** The nested sub-sessions the rule [r] starts when it matched at [p]
    under [stack]: the state and the span of each. *)
Definition nestedStarts (r : Tokenizer.Rule) (m : Tokenizer.MatchResult)
    (stack : list string) (p : nat) : list (string * (nat * nat)) :=
  match Tokenizer.action r with
  | Tokenizer.ActToken _ _ => []
  | Tokenizer.ActByGroups gs => groupStarts gs (Tokenizer.m_groups m)
  | Tokenizer.ActUsingSelf st =>
      match (match st with Some n => Some n | None => Tokenizer.top stack end) with
      | Some n => [(n, (p, Tokenizer.m_length m))]
      | None => []
      end
  end.

(** A nested sub-session is only started on a span shorter than the
    text of the session that starts it. *)
Definition nestedSpansShorter (tbl : gmap string (list Tokenizer.Rule)) : Prop :=
  ∀ n rs r text stack p m st s l,
    tbl !! n = Some rs → r ∈ rs → Tokenizer.matchAt r text p = Some m →
    (st, (s, l)) ∈ nestedStarts r m stack p →
    length (Tokenizer.span text s l) < length text.

(** The session from [stack] and [p] over [text] ends: some amount of
    fuel lets it return its tokens. *)
Definition sessionEnds (Error : TokenType)
    (tbl : gmap string (list Tokenizer.Rule)) (stack : list string)
    (p : nat) (text : list Tokenizer.rune) : Prop :=
  ∃ fuel toks, Tokenizer.run_session Error fuel tbl stack p text = Some toks.

(** Every nested sub-session a rule of the table starts on a match in
    [text] ends. *)
Definition nestedSessionsEnd (Error : TokenType)
    (tbl : gmap string (list Tokenizer.Rule))
    (text : list Tokenizer.rune) : Prop :=
  ∀ n rs r stack p m st s l,
    tbl !! n = Some rs → r ∈ rs → Tokenizer.matchAt r text p = Some m →
    (st, (s, l)) ∈ nestedStarts r m stack p →
    sessionEnds Error tbl [st] 0 (Tokenizer.span text s l).

(** Fuel that is enough for a session at position [p] of a text of
    [n] characters with a stack of [depth] states. *)
Definition sessionBound (n p depth : nat) : nat :=
  2 * (n - p) + depth + n * n + 1.

(** ** Vocabulary of the further properties *)

(** What one rule adds to the list [missing] of [validate]. *)
Definition offendingTarget (names : gset string) (r : config.Rule) : list string :=
  match config.RPush r with
  | Some p =>
      if String.eqb (config.Push_State p) "" then []
      else if bool_decide (config.Push_State p ∈ names) then []
           else [config.Push_State p]
  | None => []
  end.

(** The undefined Push targets of the grammar in declaration order,
    one entry for every rule that has one. *)
Definition offendingTargets (cfg : config.Lexer) : list string :=
  flat_map (fun s => flat_map (offendingTarget (validate_stateNames (config.States cfg)))
                              (config.Rules s))
           (config.States cfg).

(** Root pushes "nowhere" twice and "elsewhere" in between. *)
Definition cfg_repeatedPush : config.Lexer :=
  Examples.grammar
    [Examples.mkState "root"
       [Examples.pushRule "a" "Text" "nowhere";
        Examples.pushRule "b" "Text" "root";
        Examples.pushRule "c" "Text" "elsewhere";
        Examples.pushRule "d" "Text" "nowhere"]].

(** The element [ge] is what [setRuleFieldsFrom] makes of the ByGroups
    element [e]. *)
Definition compiledGroup `{Ext : Externals} (e : config.ByGroupsElement)
    (ge : byGroupElement) : Prop :=
  match e with
  | config.ElemToken t =>
      TokenTypeString (config.Token_Type t) = Some (ge_tok ge)
      ∧ ge_useSelfState ge = ""
  | config.ElemUsingSelf u =>
      ge_tok ge = 0%Z ∧ ge_useSelfState ge = config.UsingSelf_State u
  | config.ElemOther => ge_tok ge = 0%Z ∧ ge_useSelfState ge = ""
  end.

(** A rule with a pop of two states, two ByGroups elements and a
    UsingSelf. *)
Definition byGroupsRule : config.Rule :=
  {| config.Pattern := "(a)(b)"; config.RToken := None;
     config.RPush := None;
     config.RPop := Some {| config.Pop_Depth := 2%Z |};
     config.RInclude := None; config.RCombined := None;
     config.RByGroups :=
       Some {| config.ByGroupsElements :=
                 [config.ElemToken {| config.Token_Type := "Number" |};
                  config.ElemUsingSelf {| config.UsingSelf_State := "inner" |}] |};
     config.RUsingSelf := Some {| config.UsingSelf_State := "outer" |} |}.

(** No state declared after [s] (those of [later]) has the name of
    [s]. *)
Definition lastOfItsName (s : config.State) (later : list config.State) : bool :=
  forallb (fun s' => negb (String.eqb (config.Name s') (config.Name s))) later.

(** No rule of the state has an [Include] with a state name. *)
Definition declaresNoInclude (s : config.State) : bool :=
  forallb (fun r => match config.RInclude r with
                    | Some i => String.eqb (config.Include_State i) ""
                    | None => true
                    end)
          (config.Rules s).

(** Two states are named "root"; the second one has two rules, the
    second of them an Include without a state name. *)
Definition cfg_duplicateState : config.Lexer :=
  Examples.grammar
    [Examples.mkState "root" [Examples.tokenRule "old" "Error"];
     Examples.mkState "other" [Examples.tokenRule "o" "Number"];
     Examples.mkState "root" [Examples.tokenRule "new" "Text";
                              Examples.includeRule ""]].

(** The rule list [Build] gives root for that grammar. *)
Definition duplicateStateRules : list rule :=
  [Examples.compiled "new" 1%Z; Examples.compiled "" 0%Z].

(** Root declares a Combined of a state that does not exist. *)
Definition cfg_ghostCombined : config.Lexer :=
  Examples.grammar
    [Examples.mkState "root" [Examples.tokenRule "a" "Text"];
     Examples.mkState "strings" [Examples.combinedRule "q" ["root"; "ghost"]]].

(** The same externals with another order of visiting the table. *)
Definition withRange (E : Externals)
    (order : gmap string state → list (string * state))
    (Hperm : ∀ m, order m ≡ₚ map_to_list m) : Externals :=
  {| TokenTypeString := @TokenTypeString E;
     regexp2_valid := @regexp2_valid E;
     range_order := order;
     range_order_perm := Hperm |}.

(** The entries of the table, last first. *)
Definition reverseOrder (m : gmap string state) : list (string * state) :=
  reverse (map_to_list m).

(** The table [build] assembles for the chain grammar, before include
    resolution. *)
Definition chainTable : gmap string state :=
  match @build Examples.exExternals Examples.cfg_chain newRules with
  | Done (pre, _) => pre
  | _ => ∅
  end.

(** What the name and alias maps of the registry hold for a name: the
    four lookups of [Get], in its order. *)
Definition foundInMaps `{SL : StringsLib} (l : LexerRegistry) (n : string)
    : option Lexer :=
  match byName l !! n with
  | Some x => Some x
  | None =>
      match byAlias l !! n with
      | Some x => Some x
      | None =>
          match byName l !! strings_ToLower n with
          | Some x => Some x
          | None => byAlias l !! strings_ToLower n
          end
      end
  end.

(** The lexer declares the MIME type. *)
Definition declaresMime (mimeType : string) (x : Lexer) : Prop :=
  mimeType ∈ config.MimeTypes (config.LConfig (lexer_config x)).

(** Lower case for the letters A to Z, other bytes unchanged. *)
Definition asciiLower (c : Ascii.ascii) : Ascii.ascii :=
  let n := Ascii.nat_of_ascii c in
  if Nat.leb 65 n && Nat.leb n 90 then Ascii.ascii_of_nat (n + 32) else c.

Fixpoint lowerString (s : string) : string :=
  match s with
  | EmptyString => EmptyString
  | String c rest => String (asciiLower c) (lowerString rest)
  end.

(** A strings library: ASCII lower case and a merge sort by byte
    order. *)
Definition stringLe_dec (a b : string) : Decision (String.leb a b = true) :=
  decide (String.leb a b = true).

Definition exStringsLib : StringsLib :=
  {| strings_ToLower := lowerString;
     sort_Strings :=
       @merge_sort _ (fun a b => String.leb a b = true) stringLe_dec;
     sort_Strings_perm :=
       @merge_sort_Permutation _ (fun a b => String.leb a b = true) stringLe_dec;
     sort_Strings_sorted :=
       @Sorted_merge_sort _ (fun a b => String.leb a b = true) stringLe_dec
         String.leb_total |}.

Definition byPriority_dec (a b : Lexer)
    : Decision (effectivePriority b ≤ effectivePriority a)%Z :=
  decide (effectivePriority b ≤ effectivePriority a)%Z.

(** Path functions whose glob match is equality and whose sort is a
    merge sort by decreasing effective priority. *)
Definition sortingPathLib : PathLib :=
  {| filepath_Base := fun f => f;
     filepath_Match := fun glob f => (String.eqb glob f, None);
     sort_Sort := fun less l =>
       @merge_sort _ (fun a b => (effectivePriority b ≤ effectivePriority a)%Z)
         byPriority_dec l |}.

(** Three lexers: "Go" (priority unset, alias "golang"), "Gox"
    (priority 2) and "Text" (priority 1); the first two declare the
    MIME type "text/x-go". *)
Definition lexerNamed (n : string) (aliases mimes : list string) (prio : Z)
    : Lexer :=
  {| lexer_config :=
       {| config.LConfig :=
            {| config.CName := n; config.Aliases := aliases;
               config.Filenames := []; config.MimeTypes := mimes;
               config.Priority := prio |};
          config.States := [] |};
     lexer_rules := ∅ |}.

Definition goLexer : Lexer := lexerNamed "Go" ["golang"] ["text/x-go"] 0%Z.
Definition goxLexer : Lexer := lexerNamed "Gox" [] ["text/x-go"] 2%Z.
Definition textLexer : Lexer := lexerNamed "Text" ["plain"] ["text/plain"] 1%Z.

Definition registryOf `{SL : StringsLib} (lexers : list Lexer) : LexerRegistry :=
  fold_left (fun l x => (Register l x).1) lexers NewLexerRegistry.

(** What one lexer contributes to [Names]. *)
Definition namesOf (withAliases : bool) (x : Lexer) : list string :=
  config.CName (config.LConfig (lexer_config x))
  :: (if withAliases then config.Aliases (config.LConfig (lexer_config x))
      else []).

(** The byte is not an underscore. *)
Definition underscore : Ascii.ascii :=
  Ascii.Ascii true true true true true false true false.

Definition notUnderscore (c : Ascii.ascii) : bool :=
  negb (Ascii.eqb c underscore).

(** A state name that is not empty and holds no underscore. *)
Fixpoint plainChars (n : string) : bool :=
  match n with
  | EmptyString => true
  | String c rest => notUnderscore c && plainChars rest
  end.

Definition plainName (n : string) : bool :=
  negb (String.eqb n "") && plainChars n.

(** Four lexers of priorities unset, 2, 1 and -1. *)
Definition priorityList : list Lexer :=
  [goLexer; goxLexer; textLexer; lexerNamed "Low" [] [] (-1)%Z].

(** Two rules, the second with a pattern that does not compile. *)
Definition rulesWithBadPattern : list config.Rule :=
  [Examples.tokenRule "a" "Text"; Examples.tokenRule "(" "Text";
   Examples.tokenRule "b" "Nothing"].

(** * Properties *)

(** ** Outcomes *)

Lemma bind_Done {A B : Type} (m : run A) (f : A → run B) (b : B) :
  m ≫= f = Done b → ∃ a, m = Done a ∧ f a = Done b.
Proof. destruct m as [a| |]; cbn; intros H; [eauto | discriminate..]. Qed.

Lemma bind_Abort {A B : Type} (m : run A) (f : A → run B) (e : BuildError) :
  m ≫= f = Abort e → m = Abort e ∨ ∃ a, m = Done a ∧ f a = Abort e.
Proof. destruct m as [a| |]; cbn; intros H; [eauto | left; by injection H as -> | discriminate]. Qed.

Lemma bind_Diverge {A B : Type} (m : run A) (f : A → run B) :
  m ≫= f = Diverge → m = Diverge ∨ ∃ a, m = Done a ∧ f a = Diverge.
Proof. destruct m as [a| |]; cbn; intros H; [eauto | discriminate | left; done]. Qed.

Lemma mylog_Check_Done (err : option BuildError) (u : unit) :
  mylog_Check err = Done u → err = None.
Proof. destruct err; simpl; [discriminate | done]. Qed.

(** ** Include resolution *)

Section IncludeFacts.
Context `{Ext : Externals}.

Lemma loop_cons recurse tbl rl rest acc :
  resolveIncludesIn_loop recurse tbl (rl :: rest) acc =
  expandRule recurse tbl rl ≫= fun o =>
    resolveIncludesIn_loop recurse tbl rest (acc ++ o).
Proof.
  unfold expandRule. simpl.
  destruct (negb (String.eqb (include rl) "")); [|done].
  destruct (Get tbl (include rl)); done.
Qed.

Lemma loop_acc recurse tbl rs acc :
  resolveIncludesIn_loop recurse tbl rs acc =
  resolveIncludesIn_loop recurse tbl rs [] ≫= fun out => Done (acc ++ out).
Proof.
  revert acc. induction rs as [|rl rest IH]; intros acc.
  - simpl. by rewrite app_nil_r.
  - rewrite !loop_cons.
    destruct (expandRule recurse tbl rl) as [o| |]; simpl; [|done..].
    rewrite (IH (acc ++ o)), (IH o).
    destruct (resolveIncludesIn_loop recurse tbl rest []); simpl; [|done..].
    by rewrite app_assoc.
Qed.

Lemma loop_Done recurse tbl rs out :
  resolveIncludesIn_loop recurse tbl rs [] = Done out ↔
  ∃ outs, Forall2 (fun rl o => expandRule recurse tbl rl = Done o) rs outs
          ∧ out = concat outs.
Proof.
  revert out. induction rs as [|rl rest IH]; intros out.
  - simpl. split.
    + intros [= <-]. exists []. split; [constructor | done].
    + intros (outs & HF & ->). by inversion HF.
  - rewrite loop_cons. split.
    + intros H. apply bind_Done in H as (o & Ho & H).
      rewrite loop_acc in H. apply bind_Done in H as (out' & Hout' & [= <-]).
      apply IH in Hout' as (outs & HF & ->).
      exists (o :: outs). split; [by constructor | done].
    + intros (outs & HF & ->). inversion HF as [|? o ? outs' Ho HF']; subst.
      rewrite Ho. simpl. rewrite loop_acc.
      assert (resolveIncludesIn_loop recurse tbl rest [] = Done (concat outs'))
        as -> by (apply IH; eauto).
      done.
Qed.

(** The loop only depends on the recursive call where that call
    comes back. *)
Lemma loop_mono rec1 rec2 tbl rs acc :
  (∀ x, rec1 x ≠ Diverge → rec2 x = rec1 x) →
  resolveIncludesIn_loop rec1 tbl rs acc ≠ Diverge →
  resolveIncludesIn_loop rec2 tbl rs acc = resolveIncludesIn_loop rec1 tbl rs acc.
Proof.
  intros Hrec. revert acc. induction rs as [|rl rest IH]; intros acc; [done|].
  rewrite !loop_cons. unfold expandRule.
  destruct (negb (String.eqb (include rl) "")); simpl; [|apply IH].
  destruct (Get tbl (include rl)) as [st|]; simpl; [|done].
  destruct (rec1 (rules st)) as [o| |] eqn:E1; simpl.
  - rewrite Hrec, E1 by congruence. simpl. apply IH.
  - rewrite Hrec, E1 by congruence. done.
  - done.
Qed.

Lemma resolveIncludesIn_S fuel tbl rs :
  resolveIncludesIn fuel tbl rs ≠ Diverge →
  resolveIncludesIn (S fuel) tbl rs = resolveIncludesIn fuel tbl rs.
Proof.
  revert rs. induction fuel as [|fuel IH]; intros rs H; [done|].
  change (resolveIncludesIn_loop (resolveIncludesIn (S fuel) tbl) tbl rs [] =
          resolveIncludesIn_loop (resolveIncludesIn fuel tbl) tbl rs []).
  apply loop_mono; [apply IH | exact H].
Qed.

Lemma resolveIncludesIn_le (fuel fuel' : nat) tbl rs :
  (fuel ≤ fuel')%nat →
  resolveIncludesIn fuel tbl rs ≠ Diverge →
  resolveIncludesIn fuel' tbl rs = resolveIncludesIn fuel tbl rs.
Proof.
  induction 1 as [|fuel' Hle IH]; intros H; [done|].
  rewrite resolveIncludesIn_S; [by apply IH | by rewrite IH].
Qed.

(** A resolved list holds no [Include] rule. *)
Lemma resolveIncludesIn_no_include fuel tbl rs out :
  resolveIncludesIn fuel tbl rs = Done out →
  Forall (fun rl => include rl = "") out.
Proof.
  revert rs out. induction fuel as [|fuel IH]; intros rs out H; [done|].
  simpl in H. apply loop_Done in H as (outs & HF & ->).
  apply Forall_concat. induction HF as [|rl o rs' outs' Ho HF IHF]; constructor; [|done].
  unfold expandRule in Ho.
  destruct (String.eqb (include rl) "") eqn:E; simpl in Ho.
  - injection Ho as <-. constructor; [|constructor]. by apply String.eqb_eq.
  - destruct (Get tbl (include rl)) as [st|]; [|done]. by eapply IH.
Qed.

(** An abort of include resolution names a state the table lacks. *)
Lemma resolveIncludesIn_Abort fuel tbl rs e :
  resolveIncludesIn fuel tbl rs = Abort e →
  ∃ n, e = IncludeMissing n ∧ tbl !! n = None.
Proof.
  revert rs. induction fuel as [|fuel IH]; intros rs H; [done|].
  simpl in H. revert H. generalize (@nil rule).
  induction rs as [|rl rest IHrs]; intros acc H; [done|].
  rewrite loop_cons in H. apply bind_Abort in H as [H|(o & _ & H)].
  - unfold expandRule in H.
    destruct (negb (String.eqb (include rl) "")); [|done].
    destruct (Get tbl (include rl)) as [st|] eqn:EG; [by eapply IH|].
    injection H as <-. eauto.
  - by eapply IHrs.
Qed.
End IncludeFacts.

(** ** The phases of Build *)

Section BuildFacts.
Context `{Ext : Externals}.

Lemma resolveIncludes_loop_Done fuel tbl entries acc m :
  NoDup entries.*1 →
  resolveIncludes_loop fuel tbl entries acc = Done m →
  (∀ n st, (n, st) ∈ entries →
     ∃ out, resolveIncludesIn fuel tbl (rules st) = Done out
            ∧ m !! n = Some {| name := name st; rules := out |})
  ∧ (∀ n, n ∉ entries.*1 → m !! n = acc !! n).
Proof.
  revert acc. induction entries as [|[n0 st0] rest IH]; intros acc Hnd H.
  - injection H as <-. split; [|done]. intros n st Hin. by apply elem_of_nil in Hin.
  - simpl in H. apply bind_Done in H as (out & Hout & H).
    apply NoDup_cons in Hnd as [Hn0 Hnd].
    destruct (IH _ Hnd H) as [IH1 IH2]. split.
    + intros n st Hin. apply elem_of_cons in Hin as [[= -> ->]|Hin]; [|by apply IH1].
      exists out. split; [done|]. rewrite IH2 by done. apply lookup_insert_eq.
    + intros n Hn. simpl in Hn. apply not_elem_of_cons in Hn as [Hne Hn].
      rewrite IH2 by done. by apply lookup_insert_ne.
Qed.

(** The loop comes back with whatever the first failing entry gives. *)
Lemma resolveIncludes_loop_fail fuel tbl entries acc :
  (∃ m, resolveIncludes_loop fuel tbl entries acc = Done m)
  ∨ (∃ n st, (n, st) ∈ entries
       ∧ ((∃ e, resolveIncludesIn fuel tbl (rules st) = Abort e
                ∧ resolveIncludes_loop fuel tbl entries acc = Abort e)
          ∨ (resolveIncludesIn fuel tbl (rules st) = Diverge
             ∧ resolveIncludes_loop fuel tbl entries acc = Diverge))).
Proof.
  revert acc. induction entries as [|[n0 st0] rest IH]; intros acc.
  - left. by eexists.
  - simpl. destruct (resolveIncludesIn fuel tbl (rules st0)) as [out|e|] eqn:E.
    + cbn. destruct (IH (<[n0:={| name := name st0; rules := out |}]> acc))
        as [?|(n & st & Hin & Heq)]; [by left|].
      right. exists n, st. split; [apply elem_of_cons; by right|].
      exact Heq.
    + right. exists n0, st0. split; [apply elem_of_cons; by left|].
      left. exists e. by rewrite E.
    + right. exists n0, st0. split; [apply elem_of_cons; by left|].
      right. by rewrite E.
Qed.

Lemma range_order_elem tbl n st :
  (n, st) ∈ range_order tbl ↔ tbl !! n = Some st.
Proof. rewrite (range_order_perm tbl). apply elem_of_map_to_list. Qed.

Lemma range_order_NoDup tbl : NoDup (range_order tbl).*1.
Proof. rewrite (range_order_perm tbl). apply NoDup_fst_map_to_list. Qed.

Lemma range_order_keys tbl n :
  n ∈ (range_order tbl).*1 ↔ is_Some (tbl !! n).
Proof.
  rewrite list_elem_of_fmap. split.
  - intros ([n' st] & -> & Hin). apply range_order_elem in Hin. by eexists.
  - intros [st Hst]. exists (n, st). split; [done|]. by apply range_order_elem.
Qed.

Lemma resolveIncludes_Done fuel tbl final e :
  resolveIncludes fuel tbl = Done (final, e) →
  e = None
  ∧ (∀ n st, tbl !! n = Some st →
       ∃ out, resolveIncludesIn fuel tbl (rules st) = Done out
              ∧ final !! n = Some {| name := name st; rules := out |})
  ∧ (∀ n, tbl !! n = None → final !! n = None).
Proof.
  unfold resolveIncludes. intros H.
  apply bind_Done in H as (m & Hm & [= <- <-]).
  apply resolveIncludes_loop_Done in Hm as [H1 H2]; [|apply range_order_NoDup].
  split; [done|]. split.
  - intros n st Hst. apply H1. by apply range_order_elem.
  - intros n Hn. rewrite H2; [apply lookup_empty|].
    rewrite range_order_keys, Hn. by intros [? ?].
Qed.

(** When the table is not resolved, some state of it is responsible. *)
Lemma resolveIncludes_fail fuel tbl :
  (∃ final, resolveIncludes fuel tbl = Done (final, None))
  ∨ (∃ n st, tbl !! n = Some st
       ∧ ((∃ e, resolveIncludesIn fuel tbl (rules st) = Abort e
                ∧ resolveIncludes fuel tbl = Abort e)
          ∨ (resolveIncludesIn fuel tbl (rules st) = Diverge
             ∧ resolveIncludes fuel tbl = Diverge))).
Proof.
  unfold resolveIncludes.
  destruct (resolveIncludes_loop_fail fuel tbl (range_order tbl) ∅)
    as [[m ->]|(n & st & Hin & [(e & He & ->)|[Hd ->]])].
  - left. by eexists.
  - right. exists n, st. split; [by apply range_order_elem|]. left. eauto.
  - right. exists n, st. split; [by apply range_order_elem|]. right. done.
Qed.

Lemma tokenTypeOf_converges s : tokenTypeOf s ≠ Diverge.
Proof. unfold tokenTypeOf. by destruct (TokenTypeString s). Qed.

Lemma appendByGroups_converges r es : appendByGroups r es ≠ Diverge.
Proof.
  revert r. induction es as [|e es IH]; intros r; [done|]. simpl.
  destruct e as [t|u|]; cbn; try apply IH.
  unfold tokenTypeOf. destruct (TokenTypeString _); cbn; [apply IH | done].
Qed.

Lemma setRuleFieldsFrom_converges r cr : setRuleFieldsFrom r cr ≠ Diverge.
Proof.
  unfold setRuleFieldsFrom. intros H.
  apply bind_Diverge in H as [H|(r1 & _ & H)].
  - destruct (config.RToken cr); [|done]. unfold tokenTypeOf in H.
    by destruct (TokenTypeString _).
  - apply bind_Diverge in H as [H|(r2 & _ & H)]; [|done].
    destruct (config.RByGroups cr); [|done]. by apply appendByGroups_converges in H.
Qed.

Lemma makeRule_converges pat : makeRule pat ≠ Diverge.
Proof. unfold makeRule, regexp2_Compile. by destruct (regexp2_valid _). Qed.

Lemma ruleSequence_body_converges cr : ruleSequence_body cr ≠ Diverge.
Proof.
  unfold ruleSequence_body. intros H.
  apply bind_Diverge in H as [H|(u & _ & H)]; [by destruct (checkRule cr)|].
  apply bind_Diverge in H as [H|(r & _ & H)]; [by apply makeRule_converges in H|].
  by apply setRuleFieldsFrom_converges in H.
Qed.

Lemma ruleSequence_converges crs : ruleSequence crs ≠ Diverge.
Proof.
  induction crs as [|cr rest IH]; [done|]. simpl. intros H.
  apply bind_Diverge in H as [H|(r & _ & H)]; [by apply ruleSequence_body_converges in H|].
  apply bind_Diverge in H as [H|(rs & _ & H)]; done.
Qed.

Lemma build_states_converges tbl states : build_states tbl states ≠ Diverge.
Proof.
  revert tbl. induction states as [|s rest IH]; intros tbl; [done|]. simpl. intros H.
  apply bind_Diverge in H as [H|(seq & _ & H)]; [by apply ruleSequence_converges in H|].
  by apply IH in H.
Qed.

Lemma createCombinedStates_loop_converges tbl n crs :
  createCombinedStates_loop tbl n crs ≠ Diverge.
Proof.
  revert tbl. induction crs as [|cr rest IH]; intros tbl; [done|]. simpl.
  destruct (createCombinedStateInRule tbl n cr) as [tbl' [e|]]; cbn; [done|apply IH].
Qed.

Lemma build_combined_converges tbl states : build_combined tbl states ≠ Diverge.
Proof.
  revert tbl. induction states as [|s rest IH]; intros tbl; [done|]. simpl.
  unfold createCombinedStates.
  destruct (createCombinedStates_loop tbl (config.Name s) (config.Rules s)) as [t| |] eqn:E;
    cbn; [apply IH | done | by apply createCombinedStates_loop_converges in E].
Qed.

(** [build] comes back or aborts, and the error it returns is nil. *)
Lemma build_cases cfg tbl :
  (∃ pre, build cfg tbl = Done (pre, None)) ∨ (∃ e, build cfg tbl = Abort e).
Proof.
  unfold build.
  destruct (build_states tbl (config.States cfg)) as [t1|e|] eqn:E1; cbn.
  - destruct (build_combined t1 (config.States cfg)) as [t2|e|] eqn:E2; cbn.
    + left. by eexists.
    + right. by eexists.
    + by apply build_combined_converges in E2.
  - right. by eexists.
  - by apply build_states_converges in E1.
Qed.

Lemma Build_unfold fuel cfg :
  Build fuel cfg =
  build cfg newRules ≫= fun '(tbl, err) =>
    mylog_Check err ≫= fun _ =>
    resolveIncludes fuel tbl ≫= fun '(tbl, _) =>
    Done ({| lexer_config := cfg; lexer_rules := tbl |}, None).
Proof. reflexivity. Qed.

Lemma Build_after_build fuel cfg pre :
  build cfg newRules = Done (pre, None) →
  Build fuel cfg =
  resolveIncludes fuel pre ≫= fun '(tbl, _) =>
    Done ({| lexer_config := cfg; lexer_rules := tbl |}, None).
Proof. intros H. rewrite Build_unfold, H. reflexivity. Qed.

Lemma Build_Done fuel cfg lx err :
  Build fuel cfg = Done (lx, err) →
  err = None ∧ lexer_config lx = cfg
  ∧ ∃ pre, build cfg newRules = Done (pre, None)
           ∧ resolveIncludes fuel pre = Done (lexer_rules lx, None).
Proof.
  intros H. destruct (build_cases cfg newRules) as [[pre Hpre]|[e He]].
  - rewrite (Build_after_build _ _ _ Hpre) in H.
    apply bind_Done in H as ([final e] & Hres & [= <- <-]).
    destruct (resolveIncludes_Done _ _ _ _ Hres) as (-> & _).
    split; [done|]. split; [done|]. by exists pre.
  - rewrite Build_unfold, He in H. done.
Qed.
End BuildFacts.

(** ** Include transitivity *)

Section IncludeTransitivity.
Context `{Ext : Externals}.

Lemma resolveIncludesIn_substitute fuel tbl final rs out :
  resolveIncludes fuel tbl = Done (final, None) →
  resolveIncludesIn fuel tbl rs = Done out →
  out = flat_map (substitute final) rs.
Proof.
  intros Hres Hout. apply resolveIncludes_Done in Hres as (_ & Hfin & _).
  destruct fuel as [|fuel]; [done|]. simpl in Hout.
  apply loop_Done in Hout as (outs & HF & ->).
  induction HF as [|rl o rs' outs' Ho HF IH]; [done|].
  simpl. f_equal; [|exact IH]. clear IH HF.
  unfold expandRule in Ho. unfold substitute.
  destruct (String.eqb (include rl) ""); simpl in Ho; [by injection Ho|].
  unfold Get in Ho. destruct (tbl !! include rl) as [ist|] eqn:EG; [|done].
  destruct (Hfin _ _ EG) as (out' & Hout' & Hlk).
  unfold rulesIn. rewrite Hlk. simpl.
  rewrite resolveIncludesIn_S in Hout' by (rewrite Ho; done).
  congruence.
Qed.

(** C4. When [Build] returns a lexer, the table it holds has the
    states of the table [build] assembled, the rule list of every
    state is the list [build] gave it with each [Include] rule
    replaced, in place, by the final rule list of the state it names
    (so with A including B and B including C, the rules of C sit
    inside the expansion of B inside A), and no state keeps an
    [Include] rule. *)
Theorem Build_resolves_includes (fuel : nat) (cfg : config.Lexer)
    (lx : Lexer) (err : option BuildError) :
  Build fuel cfg = Done (lx, err) →
  ∃ pre, build cfg newRules = Done (pre, None)
    ∧ (∀ n, is_Some (lexer_rules lx !! n) ↔ is_Some (pre !! n))
    ∧ (∀ n st, pre !! n = Some st →
         ∃ st', lexer_rules lx !! n = Some st' ∧ name st' = name st
                ∧ rules st' = flat_map (substitute (lexer_rules lx)) (rules st))
    ∧ includeFree (lexer_rules lx).
Proof.
  intros H. apply Build_Done in H as (-> & _ & pre & Hpre & Hres).
  exists pre. split; [done|].
  pose proof (resolveIncludes_Done _ _ _ _ Hres) as (_ & Hfin & Hnone).
  split; [|split].
  - intros n. destruct (pre !! n) as [st|] eqn:E.
    + destruct (Hfin _ _ E) as (out & _ & ->). split; by eexists.
    + rewrite (Hnone _ E). done.
  - intros n st Hst. destruct (Hfin _ _ Hst) as (out & Hout & Hlk).
    eexists. split; [exact Hlk|]. split; [done|]. simpl.
    by eapply resolveIncludesIn_substitute.
  - intros n st' Hst'. destruct (pre !! n) as [st|] eqn:E.
    + destruct (Hfin _ _ E) as (out & Hout & Hlk).
      rewrite Hlk in Hst'. injection Hst' as <-. simpl.
      by eapply resolveIncludesIn_no_include.
    + rewrite (Hnone _ E) in Hst'. done.
Qed.
End IncludeTransitivity.

(** On the chain root -> B -> C, [Build] returns [chainLexer], where the
    one rule of C sits between the rules of B, themselves between the
    rules of root. *)
Lemma Build_resolves_includes_witness :
  @Build Examples.exExternals 5 Examples.cfg_chain = Done (chainLexer, None)
  ∧ ∃ pre, @build Examples.exExternals Examples.cfg_chain newRules = Done (pre, None)
      ∧ (∀ n, is_Some (lexer_rules chainLexer !! n) ↔ is_Some (pre !! n))
      ∧ (∀ n st, pre !! n = Some st →
           ∃ st', lexer_rules chainLexer !! n = Some st' ∧ name st' = name st
                  ∧ rules st' = flat_map (substitute (lexer_rules chainLexer)) (rules st))
      ∧ includeFree (lexer_rules chainLexer).
Proof.
  split; [vm_compute; reflexivity|].
  apply (@Build_resolves_includes Examples.exExternals 5 Examples.cfg_chain
           chainLexer None).
  vm_compute; reflexivity.
Defined.

(** ** Termination of include resolution *)

Section IncludeTermination.
Context `{Ext : Externals}.

Lemma loop_converges recurse tbl rs acc :
  (∀ rl, rl ∈ rs → expandRule recurse tbl rl ≠ Diverge) →
  resolveIncludesIn_loop recurse tbl rs acc ≠ Diverge.
Proof.
  revert acc. induction rs as [|rl rest IH]; intros acc Hall; [done|].
  rewrite loop_cons. intros H. apply bind_Diverge in H as [H|(o & _ & H)].
  - eapply Hall; [|exact H]. apply elem_of_cons. by left.
  - eapply IH; [|exact H]. intros rl' Hin. apply Hall, elem_of_cons. by right.
Qed.

Lemma rankedb_spec rank N tbl n st :
  rankedb rank N tbl = true → tbl !! n = Some st →
  (rank n < N)%nat
  ∧ ∀ rl, rl ∈ rules st → include rl ≠ "" → is_Some (tbl !! include rl) →
          (rank (include rl) < rank n)%nat.
Proof.
  unfold rankedb. rewrite forallb_forall. intros Hall Hst.
  specialize (Hall (n, st)). simpl in Hall.
  apply andb_true_iff in Hall as [Hn Hrs].
  2:{ apply list_elem_of_In, elem_of_map_to_list, Hst. }
  split; [by apply Nat.ltb_lt|].
  intros rl Hin Hne Hdef. rewrite forallb_forall in Hrs.
  specialize (Hrs rl (proj1 (list_elem_of_In _ _) Hin)).
  apply orb_true_iff in Hrs as [Hrs|Hrs]; [|by apply Nat.ltb_lt].
  apply orb_true_iff in Hrs as [Hrs|Hrs].
  - by apply String.eqb_eq in Hrs.
  - unfold Contains in Hrs. apply negb_true_iff, bool_decide_eq_false in Hrs. done.
Qed.

Lemma ranked_converges rank N tbl :
  rankedb rank N tbl = true →
  ∀ k n st, tbl !! n = Some st → (rank n < k)%nat →
            resolveIncludesIn k tbl (rules st) ≠ Diverge.
Proof.
  intros Hr k. induction k as [|k IH]; intros n st Hst Hlt; [lia|].
  simpl. apply loop_converges. intros rl Hin. unfold expandRule.
  destruct (String.eqb (include rl) "") eqn:E; simpl; [done|].
  unfold Get. destruct (tbl !! include rl) as [ist|] eqn:EG; [|done].
  apply (IH (include rl)); [done|].
  destruct (rankedb_spec _ _ _ _ _ Hr Hst) as [_ Hrl].
  assert (rank (include rl) < rank n)%nat; [|lia].
  apply Hrl; [done| |by eexists].
  intros Heq. rewrite Heq in E. done.
Qed.

(** A rule including an undefined state keeps its state from being
    resolved. *)
Lemma dangling_not_Done fuel tbl rs rl out :
  rl ∈ rs → include rl ≠ "" → tbl !! include rl = None →
  resolveIncludesIn fuel tbl rs ≠ Done out.
Proof.
  intros Hin Hne Hnone H. destruct fuel as [|fuel]; [done|]. simpl in H.
  apply loop_Done in H as (outs & HF & _).
  apply list_elem_of_lookup in Hin as [i Hi].
  destruct (Forall2_lookup_l _ _ _ _ _ HF Hi) as (o & _ & Ho).
  unfold expandRule, Get in Ho. rewrite Hnone in Ho.
  destruct (String.eqb (include rl) "") eqn:E; simpl in Ho; [|done].
  by apply String.eqb_eq in E.
Qed.

(** A state whose first rule includes that very state is never
    resolved, whatever the fuel. *)
Lemma self_include_diverges tbl n st rl rest :
  tbl !! n = Some st → rules st = rl :: rest → include rl = n → n ≠ "" →
  ∀ fuel, resolveIncludesIn fuel tbl (rules st) = Diverge.
Proof.
  intros Hst Hrs Hinc Hne fuel. induction fuel as [|fuel IH]; [done|].
  simpl. rewrite Hrs at 1. rewrite loop_cons. unfold expandRule, Get.
  rewrite Hinc. apply String.eqb_neq in Hne. rewrite Hne. simpl.
  rewrite Hst, IH. done.
Qed.

(** C5, as amended. Once [build] has assembled its table, include
    resolution terminates whenever the include chains of the table
    are bounded by a rank: with fuel at least the bound, [Build]
    either returns a lexer or aborts on an [Include] naming a state
    the table lacks, and it does abort when there is such an
    [Include]. *)
Theorem Build_terminates_when_ranked (rank : string → nat) (N fuel : nat)
    (cfg : config.Lexer) (pre : gmap string state) :
  build cfg newRules = Done (pre, None) →
  rankedb rank N pre = true →
  (N ≤ fuel)%nat →
  ((∃ lx, Build fuel cfg = Done (lx, None))
   ∨ (∃ n, Build fuel cfg = Abort (IncludeMissing n) ∧ pre !! n = None))
  ∧ (danglingInclude pre →
     ∃ n, Build fuel cfg = Abort (IncludeMissing n) ∧ pre !! n = None).
Proof.
  intros Hpre Hr Hle. rewrite (Build_after_build _ _ _ Hpre).
  assert (Hconv : ∀ n st, pre !! n = Some st →
                          resolveIncludesIn fuel pre (rules st) ≠ Diverge).
  { intros n st Hst. destruct (rankedb_spec _ _ _ _ _ Hr Hst) as [Hn _].
    pose proof (ranked_converges _ _ _ Hr N n st Hst Hn) as HN.
    rewrite (resolveIncludesIn_le N fuel); done. }
  destruct (resolveIncludes_fail fuel pre)
    as [[final Hf]|(n & st & Hst & [(e & He & Hab)|[Hd _]])].
  - split.
    + left. rewrite Hf. by eexists.
    + intros (n & st & rl & Hst & Hin & Hne & Hnone). exfalso.
      apply resolveIncludes_Done in Hf as (_ & Hfin & _).
      destruct (Hfin _ _ Hst) as (out & Hout & _).
      by eapply dangling_not_Done.
  - apply resolveIncludesIn_Abort in He as (m & -> & Hm).
    rewrite Hab. split; [right|intros _]; by exists m.
  - exfalso. by eapply Hconv.
Qed.
End IncludeTermination.

(** On the chain root -> B -> C, ranked 2, 1, 0, [Build] returns with
    fuel 3. *)
Lemma Build_terminates_when_ranked_witness :
  ∃ pre, @build Examples.exExternals Examples.cfg_chain newRules = Done (pre, None)
    ∧ rankedb chainRank 3 pre = true
    ∧ ((∃ lx, @Build Examples.exExternals 3 Examples.cfg_chain = Done (lx, None))
       ∨ (∃ n, @Build Examples.exExternals 3 Examples.cfg_chain
                 = Abort (IncludeMissing n) ∧ pre !! n = None))
    ∧ (danglingInclude pre →
       ∃ n, @Build Examples.exExternals 3 Examples.cfg_chain
              = Abort (IncludeMissing n) ∧ pre !! n = None).
Proof.
  eexists. split; [vm_compute; reflexivity|].
  split; [vm_compute; reflexivity|].
  apply (@Build_terminates_when_ranked Examples.exExternals chainRank 3 3
           Examples.cfg_chain).
  - vm_compute; reflexivity.
  - vm_compute; reflexivity.
  - lia.
Defined.

(** C5, as stated, fails on a state that includes itself: no amount of
    fuel lets [Build] come back, with a lexer or with an error. *)
Lemma Build_self_include_never_returns :
  ¬ ∃ fuel, @Build Examples.exExternals fuel Examples.cfg_selfInclude ≠ Diverge.
Proof.
  intros [fuel H]. apply H. clear H.
  assert (Hb : @build Examples.exExternals Examples.cfg_selfInclude newRules
               = Done (selfTable, None)) by (vm_compute; reflexivity).
  rewrite (Build_after_build _ _ _ Hb).
  assert (Hdiv : ∀ n st, selfTable !! n = Some st →
                 @resolveIncludesIn fuel selfTable (rules st) = Diverge).
  { intros n st Hst. unfold selfTable in Hst.
    apply lookup_singleton_Some in Hst as [<- <-].
    eapply (self_include_diverges selfTable "root"); [reflexivity..|done]. }
  destruct (@resolveIncludes_fail Examples.exExternals fuel selfTable)
    as [[final Hf]|(n & st & Hst & [(e & He & _)|[_ ->]])].
  - apply resolveIncludes_Done in Hf as (_ & Hfin & _).
    destruct (Hfin "root" _ eq_refl) as (out & Hout & _).
    rewrite (Hdiv "root") in Hout; done.
  - rewrite (Hdiv _ _ Hst) in He. done.
  - done.
Qed.

(** ** The missing root state *)

(** C1 fails on the code. For a grammar without a root state
    [validate] does report [NoRootState], but [Build] hands that report
    to [mylog.CheckIgnore]: it goes on and returns a lexer, with a nil
    error, whose table holds the one configured state. *)
Theorem Build_ignores_missing_root :
  validate Examples.cfg_noRoot = Some NoRootState
  ∧ classify NoRootState = MissingRootState
  ∧ @Build Examples.exExternals 1 Examples.cfg_noRoot = Done (noRootLexer, None)
  ∧ lexer_rules noRootLexer !! "root" = None
  ∧ is_Some (lexer_rules noRootLexer !! "main").
Proof.
  split; [reflexivity|]. split; [reflexivity|].
  split; [vm_compute; reflexivity|]. split; [reflexivity|].
  by eexists.
Qed.

(** The same holds for the other report of [validate]: a rule of root
    pushes an undefined state, [validate] lists it, and [Build] returns
    a lexer all the same. *)
Lemma Build_ignores_dangling_push :
  validate Examples.cfg_danglingPush = Some (MissingStates ["nowhere"])
  ∧ ∃ lx, @Build Examples.exExternals 1 Examples.cfg_danglingPush = Done (lx, None)
          ∧ (pushState <$> rulesIn (lexer_rules lx) "root") = ["nowhere"]
          ∧ lexer_rules lx !! "nowhere" = None.
Proof.
  split; [vm_compute; reflexivity|].
  eexists. split; [vm_compute; reflexivity|].
  split; vm_compute; reflexivity.
Qed.

(** ** Combined state names *)

(** C10. The name of a synthesized state is "__combined_" followed by
    the substate names joined by "__"; the lists ["a__b"] and ["a"; "b"]
    differ and get the same name; and in a grammar with one rule for
    each, both rules push that one name, under which the final table
    holds the state built first (the rules of "a__b"), not the rules of
    "a" followed by those of "b". *)
Theorem combinedStateName_not_injective :
  (∀ c, combinedStateName c
        = "__combined_" +:+ strings_Join (config.Combined_States c) "__")
  ∧ strings_Join ["a"; "b"; "c"] "__" = "a__b__c"
  ∧ ["a__b"] ≠ ["a"; "b"]
  ∧ combinedStateName {| config.Combined_States := ["a__b"] |}
    = combinedStateName {| config.Combined_States := ["a"; "b"] |}
  ∧ @Build Examples.exExternals 2 Examples.cfg_collision
    = Done (collisionLexer, None)
  ∧ (pushState <$> rulesIn (lexer_rules collisionLexer) "root")
    = ["__combined_a__b"; "__combined_a__b"]
  ∧ rulesIn (lexer_rules collisionLexer) "__combined_a__b"
    = rulesIn (lexer_rules collisionLexer) "a__b"
  ∧ rulesIn (lexer_rules collisionLexer) "__combined_a__b"
    ≠ rulesIn (lexer_rules collisionLexer) "a"
      ++ rulesIn (lexer_rules collisionLexer) "b".
Proof.
  split; [reflexivity|]. split; [reflexivity|]. split; [discriminate|].
  split; [reflexivity|]. split; [vm_compute; reflexivity|].
  split; [reflexivity|]. split; [reflexivity|].
  vm_compute. discriminate.
Qed.

(** ** Match *)

Section MatchFacts.
Context `{PL : PathLib}.

Lemma Match_globs_keeps globs filename matched out :
  Match_globs globs filename matched = Done out → out = matched.
Proof.
  induction globs as [|glob rest IH]; simpl; [by intros [= <-]|].
  destruct (filepath_Match glob filename) as [ok [e|]]; cbn; [done|exact IH].
Qed.

Lemma Match_lexers_keeps lexers filename matched out :
  Match_lexers lexers filename matched = Done out → out = matched.
Proof.
  revert matched. induction lexers as [|lexer rest IH]; intros matched; simpl.
  - by intros [= <-].
  - intros H. apply bind_Done in H as (m & Hm & H).
    apply Match_globs_keeps in Hm as ->. by apply IH.
Qed.

(** [Match] never selects a lexer. *)
Lemma Match_nil_or_abort (l : LexerRegistry) (filename : string) :
  Match l filename = Done None ∨ ∃ e, Match l filename = Abort e.
Proof.
  unfold Match.
  destruct (Match_lexers (Lexers l) (filepath_Base filename) []) as [m|e|] eqn:E; cbn.
  - apply Match_lexers_keeps in E as ->. by left.
  - right. by eexists.
  - exfalso. revert E. generalize (@nil Lexer).
    induction (Lexers l) as [|lexer rest IH]; intros matched; simpl; [done|].
    intros H. apply bind_Diverge in H as [H|(m & _ & H)]; [|by eapply IH].
    revert H. induction (config.Filenames _) as [|glob globs IHg]; simpl; [done|].
    destruct (filepath_Match glob (filepath_Base filename)) as [ok [e|]]; cbn; done.
Qed.
End MatchFacts.

(** C9 fails on the code. The loop of [Match] calls [filepath.Match]
    and drops its verdict, so nothing is ever added to [matched]:
    whatever the registry and the file name, [Match] returns nil or is
    aborted on a malformed glob.  So it is for a registry whose one
    lexer declares a glob that matches the file name. *)
Theorem Match_never_selects :
  (∀ (PL : PathLib) (l : LexerRegistry) (filename : string),
      Match l filename = Done None ∨ ∃ e, Match l filename = Abort e)
  ∧ @declaresMatch Examples.exPathLib "a.ex" Examples.exLexer
  ∧ Examples.exLexer ∈ Lexers Examples.exRegistry
  ∧ @Match Examples.exPathLib Examples.exRegistry "a.ex" = Done None.
Proof.
  split; [intros PL l filename; apply Match_nil_or_abort|].
  split; [|split; [|reflexivity]].
  - exists "*.ex". split; [|reflexivity]. apply elem_of_cons. by left.
  - apply elem_of_cons. by left.
Qed.

(** ** Rules, rule sequences and the first loop of build *)

Section RuleFacts.
Context `{Ext : Externals}.

Lemma appendByGroups_fields r es r' :
  appendByGroups r es = Done r' →
  pattern r' = pattern r ∧ pushState r' = pushState r ∧ include r' = include r.
Proof.
  revert r. induction es as [|e es IH]; intros r; simpl.
  - by intros [= <-].
  - intros H. apply bind_Done in H as (ge & _ & H). by apply IH in H.
Qed.

Lemma appendByGroups_Abort r es e :
  appendByGroups r es = Abort e →
  forallb groupElementOk es = false ∧ ∃ t, e = UnknownTokenType t.
Proof.
  revert r. induction es as [|el es IH]; intros r H; [done|].
  simpl in H. apply bind_Abort in H as [H|(ge & _ & H)].
  - destruct el as [t|u|]; cbn in H; [|done..]. simpl. unfold tokenTypeOf in H.
    destruct (TokenTypeString _); cbn in H; [done|]. injection H as <-.
    split; [done|]. by eexists.
  - apply IH in H as [Hf Ht]. split; [|done]. simpl. rewrite Hf.
    apply andb_false_r.
Qed.

Lemma setRuleFieldsFrom_fields r cr r' :
  setRuleFieldsFrom r cr = Done r' →
  pattern r' = pattern r
  ∧ pushState r' = match config.RPush cr with
                   | Some p => config.Push_State p
                   | None => pushState r
                   end
  ∧ include r' = match config.RInclude cr with
                 | Some i => config.Include_State i
                 | None => include r
                 end.
Proof.
  unfold setRuleFieldsFrom. intros H.
  apply bind_Done in H as (r1 & H1 & H).
  apply bind_Done in H as (r2 & H2 & [= <-]).
  assert (pattern r1 = pattern r ∧ pushState r1 = pushState r
          ∧ include r1 = include r) as (Ep & Es & Ei).
  { destruct (config.RToken cr); [|by injection H1 as <-].
    apply bind_Done in H1 as (typ & _ & [= <-]). done. }
  assert (pattern r2 = pattern r
          ∧ pushState r2 = match config.RPush cr with
                           | Some p => config.Push_State p
                           | None => pushState r
                           end
          ∧ include r2 = match config.RInclude cr with
                         | Some i => config.Include_State i
                         | None => include r
                         end) as (Ep2 & Es2 & Ei2).
  { destruct (config.RByGroups cr) as [g|].
    - apply appendByGroups_fields in H2 as (-> & -> & ->).
      destruct (config.RPop cr), (config.RPush cr), (config.RInclude cr); done.
    - injection H2 as <-.
      destruct (config.RPop cr), (config.RPush cr), (config.RInclude cr); done. }
  destruct (config.RUsingSelf cr); done.
Qed.

Lemma makeRule_spec pat :
  makeRule pat = if regexp2_valid ("\A" +:+ pat)
                 then Done (emptyRule (anchored pat))
                 else Abort (InvalidPattern ("\A" +:+ pat)).
Proof. unfold makeRule, regexp2_Compile. by destruct (regexp2_valid _). Qed.

Lemma checkRule_rejected r :
  (∀ e, checkRule r = Some e → classify e = ConflictingRuleAction)
  ∧ (is_Some (checkRule r) ↔ rejected r = true).
Proof.
  unfold checkRule, rejected.
  destruct (String.eqb (config.Pattern r) ""), (config.RToken r),
    (config.RPush r), (config.RPop r), (config.RInclude r),
    (config.RCombined r), (config.RByGroups r); simpl;
    (split; [by intros e [= <-]
            |split; [intros [? ?]; done | intros ?; first [done | by eexists]]]).
Qed.

Lemma ruleSequence_body_Done cr rl :
  ruleSequence_body cr = Done rl →
  checkRule cr = None
  ∧ regexp2_valid ("\A" +:+ config.Pattern cr) = true
  ∧ pattern rl = anchored (config.Pattern cr)
  ∧ pushState rl = match config.RPush cr, config.RCombined cr with
                   | Some p, _ => config.Push_State p
                   | None, Some c => combinedStateName c
                   | None, None => ""
                   end
  ∧ include rl = match config.RInclude cr with
                 | Some i => config.Include_State i
                 | None => ""
                 end.
Proof.
  unfold ruleSequence_body. intros H.
  apply bind_Done in H as (u & Hc & H). apply mylog_Check_Done in Hc.
  apply bind_Done in H as (r & Hr & H). rewrite makeRule_spec in Hr.
  destruct (regexp2_valid _) eqn:Ev; [|done]. injection Hr as <-.
  apply setRuleFieldsFrom_fields in H as (Hp & Hs & Hi).
  split; [done|]. split; [done|]. unfold updatePushForCombinedState in *.
  destruct (config.RCombined cr), (config.RPush cr), (config.RInclude cr); done.
Qed.

Lemma ruleSequence_body_Abort cr e :
  ruleSequence_body cr = Abort e →
  checkRule cr = Some e
  ∨ (checkRule cr = None
     ∧ ((regexp2_valid ("\A" +:+ config.Pattern cr) = false
         ∧ e = InvalidPattern ("\A" +:+ config.Pattern cr))
        ∨ (lexemesOk cr = false ∧ ∃ t, e = UnknownTokenType t))).
Proof.
  unfold ruleSequence_body. intros H.
  destruct (checkRule cr) as [e'|]; cbn in H; [left; congruence|]. right.
  split; [done|]. rewrite makeRule_spec in H. unfold lexemesOk.
  destruct (regexp2_valid _) eqn:Ev; cbn in H; [|left; split; congruence].
  right. unfold setRuleFieldsFrom in H.
  apply bind_Abort in H as [H|(r1 & H1 & H)].
  - destruct (config.RToken cr) as [t|]; [|done]. unfold tokenTypeOf in H.
    destruct (TokenTypeString _); cbn in H; [done|]. injection H as <-.
    simpl. eauto.
  - apply bind_Abort in H as [H|(r2 & _ & H)]; [|done].
    destruct (config.RByGroups cr) as [g|]; [|done].
    apply appendByGroups_Abort in H as [Hf Ht]. split; [|done].
    rewrite Hf. apply andb_false_r.
Qed.
End RuleFacts.

Section SequenceFacts.
Context `{Ext : Externals}.

Lemma ruleSequence_Done crs seq :
  ruleSequence crs = Done seq →
  Forall2 (fun cr rl => ruleSequence_body cr = Done rl) crs seq.
Proof.
  revert seq. induction crs as [|cr rest IH]; intros seq; simpl.
  - intros [= <-]. constructor.
  - intros H. apply bind_Done in H as (rl & Hrl & H).
    apply bind_Done in H as (rs & Hrs & [= <-]). constructor; auto.
Qed.

Lemma ruleSequence_Abort crs e :
  ruleSequence crs = Abort e →
  ∃ cr, cr ∈ crs ∧ ruleSequence_body cr = Abort e.
Proof.
  induction crs as [|cr rest IH]; simpl; [done|]. intros H.
  apply bind_Abort in H as [H|(rl & _ & H)].
  - exists cr. split; [apply elem_of_cons; by left | done].
  - apply bind_Abort in H as [H|(rs & _ & H)]; [|done].
    destruct (IH H) as (cr' & Hin & Hb). exists cr'.
    split; [apply elem_of_cons; by right | done].
Qed.

Lemma ruleSequence_Abort_split crs e :
  ruleSequence crs = Abort e →
  ∃ rs1 cr rs2 seq1, crs = rs1 ++ cr :: rs2 ∧ ruleSequence rs1 = Done seq1
                     ∧ ruleSequence_body cr = Abort e.
Proof.
  induction crs as [|cr rest IH]; simpl; [done|]. intros H.
  apply bind_Abort in H as [H|(rl & Hrl & H)].
  - by exists [], cr, rest, [].
  - apply bind_Abort in H as [H|(rs & _ & H)]; [|done].
    destruct (IH H) as (rs1 & cr' & rs2 & seq1 & -> & Hs1 & Hb).
    exists (cr :: rs1), cr', rs2, (rl :: seq1). split; [done|].
    split; [|done]. simpl. by rewrite Hrl, Hs1.
Qed.

Lemma ruleSequence_reaches rs1 cr rs2 seq1 e :
  ruleSequence rs1 = Done seq1 → ruleSequence_body cr = Abort e →
  ruleSequence (rs1 ++ cr :: rs2) = Abort e.
Proof.
  revert seq1. induction rs1 as [|c rest IH]; intros seq1; simpl.
  - intros _ ->. done.
  - intros H Hb. apply bind_Done in H as (rl & -> & H).
    apply bind_Done in H as (rs & Hrs & _). cbn.
    by rewrite (IH _ Hrs Hb).
Qed.

Lemma ruleSequence_body_ok cr :
  lexemesOk cr = true →
  match checkRule cr with
  | Some e => ruleSequence_body cr = Abort e
  | None => ∃ rl, ruleSequence_body cr = Done rl
  end.
Proof.
  intros Hok. destruct (checkRule cr) as [e|] eqn:Ec.
  - unfold ruleSequence_body. by rewrite Ec.
  - destruct (ruleSequence_body cr) as [rl|e|] eqn:Eb.
    + by eexists.
    + apply ruleSequence_body_Abort in Eb as [Eb|[_ [[Ev _]|[Eb _]]]].
      * congruence.
      * unfold lexemesOk in Hok. rewrite Ev in Hok. done.
      * congruence.
    + by apply ruleSequence_body_converges in Eb.
Qed.

Lemma ruleSequence_ok crs :
  forallb lexemesOk crs = true →
  (existsb rejected crs = false ∧ ∃ seq, ruleSequence crs = Done seq)
  ∨ (existsb rejected crs = true
     ∧ ∃ cr e, cr ∈ crs ∧ checkRule cr = Some e ∧ ruleSequence crs = Abort e).
Proof.
  induction crs as [|cr rest IH]; simpl; intros Hok.
  - left. split; [done|]. by eexists.
  - apply andb_true_iff in Hok as [Hcr Hrest].
    pose proof (ruleSequence_body_ok cr Hcr) as Hb.
    destruct (checkRule_rejected cr) as [_ Hrej].
    destruct (checkRule cr) as [e|] eqn:Ec.
    + right. split.
      * assert (rejected cr = true) as -> by (apply Hrej; by eexists). done.
      * exists cr, e. split; [apply elem_of_cons; by left|]. rewrite Hb. done.
    + assert (rejected cr = false) as ->.
      { destruct (rejected cr); [|done]. destruct Hrej as [_ Hrej].
        destruct (Hrej eq_refl). done. }
      destruct Hb as [rl Hrl]. rewrite Hrl. cbn.
      destruct (IH Hrest) as [[Hno [seq Hseq]]|[Hyes (cr' & e & Hin & Hc & Hab)]].
      * left. split; [done|]. rewrite Hseq. by eexists.
      * right. split; [done|]. exists cr', e.
        split; [apply elem_of_cons; by right|]. split; [done|]. by rewrite Hab.
Qed.

Lemma build_states_Done tbl states tbl' :
  build_states tbl states = Done tbl' →
  (∀ s, s ∈ states →
     is_Some (tbl' !! config.Name s)
     ∧ ∃ seq, ruleSequence (config.Rules s) = Done seq)
  ∧ (∀ k st, tbl' !! k = Some st →
       tbl !! k = Some st
       ∨ ∃ s seq, s ∈ states ∧ config.Name s = k
                  ∧ ruleSequence (config.Rules s) = Done seq
                  ∧ st = {| name := k; rules := seq |})
  ∧ (∀ k, is_Some (tbl !! k) → is_Some (tbl' !! k)).
Proof.
  revert tbl. induction states as [|s rest IH]; intros tbl; simpl.
  - intros [= <-]. split; [|split]; [|by left|done].
    intros s Hs. by apply elem_of_nil in Hs.
  - intros H. apply bind_Done in H as (seq & Hseq & H).
    destruct (IH _ H) as (IH1 & IH2 & IH3). unfold AddState in *. simpl in *.
    split; [|split].
    + intros s' Hs'. apply elem_of_cons in Hs' as [ -> | Hs' ]; [|by apply IH1].
      split; [|by eexists]. apply IH3. rewrite lookup_insert_eq. by eexists.
    + intros k st Hst. destruct (IH2 _ _ Hst) as [Hl|(s' & seq' & Hin & Hn & Hs & ->)].
      * destruct (decide (config.Name s = k)) as [<-|Hne].
        -- rewrite lookup_insert_eq in Hl. injection Hl as <-.
           right. exists s, seq. split; [apply elem_of_cons; by left|]. done.
        -- rewrite lookup_insert_ne in Hl by done. by left.
      * right. exists s', seq'. split; [apply elem_of_cons; by right|]. done.
    + intros k Hk. apply IH3. destruct (decide (config.Name s = k)) as [<-|Hne].
      * rewrite lookup_insert_eq. by eexists.
      * by rewrite lookup_insert_ne.
Qed.

Lemma build_states_Abort tbl states e :
  build_states tbl states = Abort e →
  ∃ s, s ∈ states ∧ ruleSequence (config.Rules s) = Abort e.
Proof.
  revert tbl. induction states as [|s rest IH]; intros tbl; simpl; [done|].
  intros H. apply bind_Abort in H as [H|(seq & _ & H)].
  - exists s. split; [apply elem_of_cons; by left | done].
  - destruct (IH _ H) as (s' & Hin & Hs'). exists s'.
    split; [apply elem_of_cons; by right | done].
Qed.

Lemma build_states_reaches tbl ss1 s ss2 tbl1 e :
  build_states tbl ss1 = Done tbl1 →
  ruleSequence (config.Rules s) = Abort e →
  build_states tbl (ss1 ++ s :: ss2) = Abort e.
Proof.
  revert tbl. induction ss1 as [|s1 rest IH]; intros tbl; simpl.
  - intros _ ->. done.
  - intros H Hs. apply bind_Done in H as (seq & -> & H). cbn. by apply IH.
Qed.

Lemma build_states_Abort_split tbl states e :
  build_states tbl states = Abort e →
  ∃ ss1 s ss2 tbl1, states = ss1 ++ s :: ss2 ∧ build_states tbl ss1 = Done tbl1
                    ∧ ruleSequence (config.Rules s) = Abort e.
Proof.
  revert tbl. induction states as [|s rest IH]; intros tbl; simpl; [done|].
  intros H. apply bind_Abort in H as [H|(seq & Hseq & H)].
  - by exists [], s, rest, tbl.
  - destruct (IH _ H) as (ss1 & s' & ss2 & tbl1 & -> & Ht1 & Hs').
    exists (s :: ss1), s', ss2, tbl1. split; [done|]. split; [|done].
    simpl. by rewrite Hseq.
Qed.

Lemma build_states_ok tbl states :
  forallb (fun s => forallb lexemesOk (config.Rules s)) states = true →
  (existsb (fun s => existsb rejected (config.Rules s)) states = false
   ∧ ∃ tbl', build_states tbl states = Done tbl')
  ∨ (existsb (fun s => existsb rejected (config.Rules s)) states = true
     ∧ ∃ s cr e, s ∈ states ∧ cr ∈ config.Rules s ∧ checkRule cr = Some e
                 ∧ build_states tbl states = Abort e).
Proof.
  revert tbl. induction states as [|s rest IH]; intros tbl; simpl; intros Hok.
  - left. split; [done|]. by eexists.
  - apply andb_true_iff in Hok as [Hs Hrest].
    destruct (ruleSequence_ok _ Hs) as [[-> [seq ->]]|[-> (cr & e & Hin & Hc & ->)]]; cbn.
    + destruct (IH (AddState {| name := config.Name s; rules := seq |} tbl) Hrest)
        as [[Hno [t Ht]]|[Hyes (s' & cr & e & Hin & Hcr & Hc & Hab)]].
      * left. split; [done|]. by eexists.
      * right. split; [done|]. exists s', cr, e.
        split; [apply elem_of_cons; by right|]. done.
    + right. split; [done|]. exists s, cr, e.
      split; [apply elem_of_cons; by left|]. done.
Qed.

Lemma createCombinedStates_loop_Abort tbl n crs e :
  createCombinedStates_loop tbl n crs = Abort e →
  e = CombinedSubstateMissing n.
Proof.
  revert tbl. induction crs as [|cr rest IH]; intros tbl; simpl; [done|].
  destruct (createCombinedStateInRule tbl n cr) as [tbl' err] eqn:E.
  intros H. apply bind_Abort in H as [H|(u & _ & H)]; [|by eapply IH].
  destruct err as [e'|]; [|done]. injection H as <-.
  unfold createCombinedStateInRule in E.
  destruct (config.RCombined cr) as [c|]; [|done].
  destruct (Contains tbl (combinedStateName c)); [done|].
  destruct (combineSubstates tbl n (config.Combined_States c) []) as [rs [e2|]] eqn:E2; [|done].
  injection E as _ <-. revert E2. generalize (@nil rule).
  induction (config.Combined_States c) as [|sub subs IHs]; intros acc; simpl; [done|].
  destruct (Get tbl sub); [apply IHs|]. by intros [= _ <-].
Qed.

Lemma build_combined_Abort tbl states e :
  build_combined tbl states = Abort e → ∃ n, e = CombinedSubstateMissing n.
Proof.
  revert tbl. induction states as [|s rest IH]; intros tbl; simpl; [done|].
  unfold createCombinedStates. intros H.
  destruct (createCombinedStates_loop tbl (config.Name s) (config.Rules s))
    as [t|e'|] eqn:E; cbn in H.
  - by eapply IH.
  - injection H as <-. apply createCombinedStates_loop_Abort in E. by eexists.
  - done.
Qed.

(** Where an abort of [Build] comes from. *)
Lemma Build_Abort fuel cfg e :
  Build fuel cfg = Abort e →
  build_states newRules (config.States cfg) = Abort e
  ∨ (∃ n, e = CombinedSubstateMissing n)
  ∨ (∃ n, e = IncludeMissing n).
Proof.
  rewrite Build_unfold. unfold build. intros H.
  destruct (build_states newRules (config.States cfg)) as [t1|e1|] eqn:E1; cbn in H.
  - destruct (build_combined t1 (config.States cfg)) as [t2|e2|] eqn:E2; cbn in H.
    + right. right.
      destruct (resolveIncludes_fail fuel t2)
        as [[final Hf]|(n & st & Hst & [(e' & He & Hab)|[_ Hd]])].
      * rewrite Hf in H. done.
      * rewrite Hab in H. injection H as <-.
        apply resolveIncludesIn_Abort in He as (m & -> & _). by eexists.
      * rewrite Hd in H. done.
    + injection H as <-. right. left. by eapply build_combined_Abort.
    + done.
  - left. congruence.
  - done.
Qed.

Lemma Build_aborts_in_build_states fuel cfg e :
  build_states newRules (config.States cfg) = Abort e →
  Build fuel cfg = Abort e.
Proof. intros H. rewrite Build_unfold. unfold build. by rewrite H. Qed.

Lemma existsb_declares cfg :
  existsb (fun s => existsb rejected (config.Rules s)) (config.States cfg) = true
  ↔ ∃ s r, declares cfg s r ∧ rejected r = true.
Proof.
  rewrite existsb_exists. unfold declares. split.
  - intros (s & Hs & Hr). apply existsb_exists in Hr as (r & Hr & Hrej).
    exists s, r. rewrite !list_elem_of_In. done.
  - intros (s & r & [Hs Hr] & Hrej). exists s. rewrite <- list_elem_of_In.
    split; [done|]. apply existsb_exists. exists r.
    rewrite <- list_elem_of_In. done.
Qed.

(** C7, as amended. For a grammar whose patterns all compile and whose
    token type names are all known, [Build] fails with a
    ConflictingRuleAction error exactly when some rule pairs Push
    with Pop, Token with Include, Token with ByGroups, Include with
    ByGroups, Combined with one of Push, Pop, Include, or has an
    empty pattern and none of Push, Pop, Include. *)
Theorem Build_conflict_iff (fuel : nat) (cfg : config.Lexer) :
  allLexemesOk cfg = true →
  (∃ e, Build fuel cfg = Abort e ∧ classify e = ConflictingRuleAction)
  ↔ ∃ s r, declares cfg s r ∧ rejected r = true.
Proof.
  intros Hok. rewrite <- existsb_declares. split.
  - intros (e & Hab & Hcl).
    destruct (build_states_ok newRules (config.States cfg) Hok)
      as [[Hno [t Ht]]|[Hyes _]]; [|done].
    apply Build_Abort in Hab as [Hab|[[n ->]|[n ->]]]; [congruence|done..].
  - intros Hex.
    destruct (build_states_ok newRules (config.States cfg) Hok)
      as [[Hno _]|[_ (s & cr & e & _ & _ & Hc & Hab)]]; [congruence|].
    exists e. split; [by apply Build_aborts_in_build_states|].
    by apply (checkRule_rejected cr).
Qed.
End SequenceFacts.

(** In a grammar whose second rule has both a push and a pop, [Build]
    fails with a ConflictingRuleAction error. *)
Lemma Build_conflict_iff_witness :
  allLexemesOk (Ext := Examples.exExternals) Examples.cfg_pushPop = true
  ∧ ((∃ e, @Build Examples.exExternals 1 Examples.cfg_pushPop = Abort e
           ∧ classify e = ConflictingRuleAction)
     ↔ ∃ s r, declares Examples.cfg_pushPop s r ∧ rejected r = true).
Proof.
  split; [vm_compute; reflexivity|].
  apply (@Build_conflict_iff Examples.exExternals 1 Examples.cfg_pushPop).
  vm_compute; reflexivity.
Defined.

(** C7, as stated, fails on a rule without pattern whose one directive
    is Combined: it pairs no two categories and it has a directive, yet
    [Build] fails with a ConflictingRuleAction error. *)
Lemma Build_conflict_on_lone_combined :
  (∃ e, @Build Examples.exExternals 1 Examples.cfg_combinedNoPattern = Abort e
        ∧ classify e = ConflictingRuleAction)
  ∧ ¬ ∃ s r, declares Examples.cfg_combinedNoPattern s r
             ∧ claimedConflict r = true.
Proof.
  split.
  - exists RuleHasNothing. split; [vm_compute; reflexivity | reflexivity].
  - intros (s & r & [Hs Hr] & Hc). simpl in Hs.
    apply list_elem_of_singleton in Hs as ->. simpl in Hr.
    apply list_elem_of_singleton in Hr as ->. vm_compute in Hc. discriminate.
Qed.

(** ** The second loop of build *)

Section CombineFacts.
Context `{Ext : Externals}.

Lemma combineSubstates_spec tbl n subs acc rs :
  combineSubstates tbl n subs acc = (rs, None) →
  rs = acc ++ flat_map (rulesIn tbl) subs
  ∧ Forall (fun sub => is_Some (tbl !! sub)) subs.
Proof.
  revert acc. induction subs as [|sub subs IH]; intros acc; simpl.
  - intros [= <-]. by rewrite app_nil_r.
  - unfold Get, rulesIn at 1. destruct (tbl !! sub) as [st|] eqn:E; [|done].
    intros H. apply IH in H as [-> HF]. split; [by rewrite app_assoc|].
    constructor; [by eexists | done].
Qed.

Lemma createCombinedStateInRule_cases tbl n cr tbl1 :
  createCombinedStateInRule tbl n cr = (tbl1, None) →
  (config.RCombined cr = None ∧ tbl1 = tbl)
  ∨ (∃ c, config.RCombined cr = Some c
          ∧ is_Some (tbl !! combinedStateName c) ∧ tbl1 = tbl)
  ∨ (∃ c, config.RCombined cr = Some c
          ∧ tbl !! combinedStateName c = None
          ∧ Forall (fun sub => is_Some (tbl !! sub)) (config.Combined_States c)
          ∧ tbl1 = <[combinedStateName c :=
                       {| name := combinedStateName c;
                          rules := flat_map (rulesIn tbl) (config.Combined_States c) |}]>
                     tbl).
Proof.
  unfold createCombinedStateInRule.
  destruct (config.RCombined cr) as [c|]; [|intros [= <-]; by left].
  intros H. right.
  destruct (Contains tbl (combinedStateName c)) eqn:Hc; unfold Contains in Hc.
  - injection H as <-. left. exists c. by apply bool_decide_eq_true in Hc.
  - apply bool_decide_eq_false in Hc.
    destruct (combineSubstates tbl n (config.Combined_States c) [])
      as [rs [e|]] eqn:E; [done|].
    injection H as <-. apply combineSubstates_spec in E as [-> HF]. right.
    exists c. split; [done|]. split; [|done].
    destruct (tbl !! combinedStateName c) eqn:E; [|done].
    exfalso. apply Hc. by eexists.
Qed.

Lemma combine_all_app tbl a b :
  combine_all tbl (a ++ b) = combine_all tbl a ≫= fun t => combine_all t b.
Proof.
  revert tbl. induction a as [|[n cr] a IH]; intros tbl; simpl; [done|].
  destruct (createCombinedStateInRule tbl n cr) as [t [e|]]; cbn; [done|apply IH].
Qed.

Lemma createCombinedStates_loop_flat tbl n crs :
  createCombinedStates_loop tbl n crs
  = combine_all tbl ((fun r => (n, r)) <$> crs).
Proof.
  revert tbl. induction crs as [|cr rest IH]; intros tbl; simpl; [done|].
  destruct (createCombinedStateInRule tbl n cr) as [t [e|]]; cbn; [done|apply IH].
Qed.

Lemma build_combined_flat tbl states :
  build_combined tbl states = combine_all tbl (rulesOfStates states).
Proof.
  revert tbl. induction states as [|s rest IH]; intros tbl; simpl; [done|].
  rewrite combine_all_app, <- createCombinedStates_loop_flat.
  unfold createCombinedStates.
  destruct (createCombinedStates_loop tbl (config.Name s) (config.Rules s));
    cbn; [apply IH | done..].
Qed.

Lemma rulesOfStates_elem states n r :
  (n, r) ∈ rulesOfStates states
  ↔ ∃ s, s ∈ states ∧ config.Name s = n ∧ r ∈ config.Rules s.
Proof.
  unfold rulesOfStates. rewrite list_elem_of_In, in_flat_map. split.
  - intros (s & Hs & Hin). apply list_elem_of_In, list_elem_of_fmap in Hin
      as (r' & Heq & Hr). injection Heq as -> ->.
    exists s. by rewrite list_elem_of_In.
  - intros (s & Hs & <- & Hr). exists s. rewrite <- list_elem_of_In.
    split; [done|]. apply list_elem_of_In, list_elem_of_fmap. by exists r.
Qed.

Lemma flat_map_rulesIn_mono (tbl tbl' : gmap string state) subs :
  tbl ⊆ tbl' → Forall (fun sub => is_Some (tbl !! sub)) subs →
  flat_map (rulesIn tbl') subs = flat_map (rulesIn tbl) subs.
Proof.
  intros Hsub HF. induction HF as [|sub subs [st Hst] HF IH]; [done|].
  simpl. rewrite IH. f_equal. unfold rulesIn.
  by rewrite Hst, (lookup_weaken _ _ _ _ Hst Hsub).
Qed.

(** The second loop only adds states: one for every [Combined] it
    meets whose name is free, holding the rules of the listed
    states. *)
Lemma combine_all_spec tbl items tbl' :
  combine_all tbl items = Done tbl' →
  tbl ⊆ tbl'
  ∧ (∀ n cr c, (n, cr) ∈ items → config.RCombined cr = Some c →
               is_Some (tbl' !! combinedStateName c))
  ∧ (∀ k st, tbl !! k = None → tbl' !! k = Some st →
       ∃ n cr c, (n, cr) ∈ items ∧ config.RCombined cr = Some c
                 ∧ combinedStateName c = k ∧ name st = k
                 ∧ Forall (fun sub => is_Some (tbl' !! sub)) (config.Combined_States c)
                 ∧ rules st = flat_map (rulesIn tbl') (config.Combined_States c)).
Proof.
  revert tbl. induction items as [|[n cr] rest IH]; intros tbl; simpl.
  - intros [= <-]. split; [done|]. split.
    + intros n cr c Hin. by apply elem_of_nil in Hin.
    + intros k st Hn Hs. congruence.
  - destruct (createCombinedStateInRule tbl n cr) as [tbl1 err] eqn:E.
    intros H. apply bind_Done in H as (u & Herr & H).
    apply mylog_Check_Done in Herr as ->.
    destruct (IH _ H) as (Hsub & Hall & Hnew).
    apply createCombinedStateInRule_cases in E
      as [[Hc ->]|[(c & Hc & Hin & ->)|(c & Hc & Hfree & HF & ->)]].
    + split; [done|]. split.
      * intros n' cr' c' Hin' Hc'. apply elem_of_cons in Hin' as [[= -> ->]|Hin'].
        -- congruence.
        -- by eapply Hall.
      * intros k st Hk Hst. destruct (Hnew _ _ Hk Hst) as (n' & cr' & c' & Hin' & ?).
        exists n', cr', c'. split; [apply elem_of_cons; by right | done].
    + split; [done|]. split.
      * intros n' cr' c' Hin' Hc'. apply elem_of_cons in Hin' as [[= -> ->]|Hin'].
        -- assert (c' = c) as -> by congruence. destruct Hin as [st Hst].
           exists st. by eapply lookup_weaken.
        -- by eapply Hall.
      * intros k st Hk Hst. destruct (Hnew _ _ Hk Hst) as (n' & cr' & c' & Hin' & ?).
        exists n', cr', c'. split; [apply elem_of_cons; by right | done].
    + assert (Hsub0 : tbl ⊆ <[combinedStateName c :=
                 {| name := combinedStateName c;
                    rules := flat_map (rulesIn tbl) (config.Combined_States c) |}]> tbl)
        by (by apply insert_subseteq).
      split; [by etrans|]. split.
      * intros n' cr' c' Hin' Hc'. apply elem_of_cons in Hin' as [[= -> ->]|Hin'].
        -- assert (c' = c) as -> by congruence.
           eexists. eapply lookup_weaken; [apply lookup_insert_eq | exact Hsub].
        -- by eapply Hall.
      * intros k st Hk Hst. destruct (decide (combinedStateName c = k)) as [<-|Hne].
        -- exists n, cr, c. split; [apply elem_of_cons; by left|]. split; [done|].
           split; [done|].
           pose proof (lookup_weaken _ _ _ _ (lookup_insert_eq tbl _ _) Hsub) as Hlk.
           rewrite Hlk in Hst. injection Hst as <-. simpl. split; [done|].
           split.
           ++ eapply Forall_impl; [exact HF|]. intros sub [st Hst].
              exists st. eapply lookup_weaken; [exact Hst | by etrans].
           ++ symmetry. apply flat_map_rulesIn_mono; [by etrans | done].
        -- destruct (Hnew k st) as (n' & cr' & c' & Hin' & ?); [|done|].
           { by rewrite lookup_insert_ne. }
           exists n', cr', c'. split; [apply elem_of_cons; by right | done].
Qed.

Lemma flat_map_rulesIn_Forall P tbl subs :
  tableAll P tbl → Forall P (flat_map (rulesIn tbl) subs).
Proof.
  intros HP. induction subs as [|sub subs IH]; [constructor|].
  simpl. apply Forall_app. split; [|done]. unfold rulesIn.
  destruct (tbl !! sub) as [st|] eqn:Es; [by eapply HP | constructor].
Qed.

Lemma combine_all_tableAll P tbl items tbl' :
  combine_all tbl items = Done tbl' → tableAll P tbl → tableAll P tbl'.
Proof.
  revert tbl. induction items as [|[n cr] rest IH]; intros tbl; simpl.
  - by intros [= <-].
  - destruct (createCombinedStateInRule tbl n cr) as [tbl1 err] eqn:E.
    intros H HP. apply bind_Done in H as (u & Herr & H).
    apply mylog_Check_Done in Herr as ->. apply (IH _ H).
    apply createCombinedStateInRule_cases in E
      as [[Hc ->]|[(c & Hc & Hin & ->)|(c & Hc & Hfree & HF & ->)]]; [done..|].
    intros k st Hst. destruct (decide (combinedStateName c = k)) as [<-|Hne].
    + rewrite lookup_insert_eq in Hst. injection Hst as <-. simpl.
      by apply flat_map_rulesIn_Forall.
    + rewrite lookup_insert_ne in Hst by done. by eapply HP.
Qed.

Lemma resolveIncludesIn_Forall P fuel tbl rs out :
  resolveIncludesIn fuel tbl rs = Done out →
  tableAll P tbl → Forall P rs → Forall P out.
Proof.
  intros H HP. revert rs out H. induction fuel as [|fuel IH]; intros rs out H Hrs; [done|].
  simpl in H. apply loop_Done in H as (outs & HF & ->).
  apply Forall_concat. induction HF as [|rl o rs' outs' Ho HF IHF]; [constructor|].
  apply Forall_cons in Hrs as [Hrl Hrs]. constructor; [|by apply IHF].
  unfold expandRule, Get in Ho. destruct (negb _).
  - destruct (tbl !! include rl) as [st|] eqn:E; [|done].
    eapply IH; [exact Ho|]. by eapply HP.
  - injection Ho as <-. by constructor.
Qed.

Lemma resolveIncludes_tableAll P fuel tbl final e :
  resolveIncludes fuel tbl = Done (final, e) → tableAll P tbl → tableAll P final.
Proof.
  intros H HP k st' Hst'. apply resolveIncludes_Done in H as (_ & Hfin & Hnone).
  destruct (tbl !! k) as [st|] eqn:E.
  - destruct (Hfin _ _ E) as (out & Hout & Hlk). rewrite Hlk in Hst'.
    injection Hst' as <-. simpl. eapply resolveIncludesIn_Forall; [done..|].
    by eapply HP.
  - rewrite (Hnone _ E) in Hst'. done.
Qed.

(** Every rule of a table [Build] returns is the compiled form of one
    of the rules of the grammar. *)
Lemma Build_tableAll P fuel cfg lx err :
  Build fuel cfg = Done (lx, err) →
  (∀ s cr rl, declares cfg s cr → ruleSequence_body cr = Done rl → P rl) →
  tableAll P (lexer_rules lx).
Proof.
  intros H HP. apply Build_Done in H as (_ & _ & pre & Hpre & Hres).
  eapply resolveIncludes_tableAll; [exact Hres|].
  unfold build in Hpre. apply bind_Done in Hpre as (t0 & Ht0 & Hpre).
  apply bind_Done in Hpre as (t1 & Ht1 & [= <-]).
  rewrite build_combined_flat in Ht1.
  eapply combine_all_tableAll; [exact Ht1|].
  apply build_states_Done in Ht0 as (_ & Hst & _).
  intros k st Hk. destruct (Hst _ _ Hk) as [Hl|(s & seq & Hs & Hn & Hseq & ->)]; [done|].
  simpl. apply ruleSequence_Done in Hseq. apply Forall_forall. intros rl Hrl.
  apply list_elem_of_lookup in Hrl as [i Hi].
  destruct (Forall2_lookup_r _ _ _ _ _ Hseq Hi) as (cr & Hcr & Hb).
  eapply HP; [|exact Hb]. split; [done|]. by eapply list_elem_of_lookup_2.
Qed.

Lemma Build_Done_rules fuel cfg lx err s cr :
  Build fuel cfg = Done (lx, err) → declares cfg s cr →
  ∃ rl, ruleSequence_body cr = Done rl.
Proof.
  intros H [Hs Hcr]. apply Build_Done in H as (_ & _ & pre & Hpre & _).
  unfold build in Hpre. apply bind_Done in Hpre as (t0 & Ht0 & _).
  apply build_states_Done in Ht0 as (Hall & _).
  destruct (Hall _ Hs) as (_ & seq & Hseq). apply ruleSequence_Done in Hseq.
  apply list_elem_of_lookup in Hcr as [i Hi].
  destruct (Forall2_lookup_l _ _ _ _ _ Hseq Hi) as (rl & _ & Hb). by exists rl.
Qed.
End CombineFacts.

(** ** Pattern compilation *)

Section PatternFacts.
Context `{Ext : Externals}.

Lemma lexemesOk_split r :
  lexemesOk r = regexp2_valid ("\A" +:+ config.Pattern r) && typesKnown r.
Proof. unfold lexemesOk, typesKnown. by rewrite andb_assoc. Qed.

Lemma wellFormedRule_checkRule r : wellFormedRule r = true → checkRule r = None.
Proof.
  unfold wellFormedRule. intros H. apply andb_true_iff in H as [Hrej _].
  destruct (checkRule r) as [e|] eqn:Ec; [|done].
  destruct (checkRule_rejected r) as [_ [Hr _]].
  rewrite Hr in Hrej by (by eexists). done.
Qed.

(** A rule [checkRule] accepts whose pattern does not compile stops
    its sequence with the compile error. *)
Lemma ruleSequence_body_invalid r :
  checkRule r = None → regexp2_valid ("\A" +:+ config.Pattern r) = false →
  ruleSequence_body r = Abort (InvalidPattern ("\A" +:+ config.Pattern r)).
Proof.
  intros Hc Hv. unfold ruleSequence_body. rewrite Hc. cbn.
  by rewrite makeRule_spec, Hv.
Qed.

Lemma ruleSequence_wellFormed crs :
  forallb wellFormedRule crs = true →
  (forallb (fun r => regexp2_valid ("\A" +:+ config.Pattern r)) crs = true
   ∧ ∃ seq, ruleSequence crs = Done seq)
  ∨ (∃ cr, cr ∈ crs ∧ regexp2_valid ("\A" +:+ config.Pattern cr) = false
           ∧ ruleSequence crs = Abort (InvalidPattern ("\A" +:+ config.Pattern cr))).
Proof.
  induction crs as [|cr rest IH]; simpl; intros Hok.
  - left. split; [done|]. by eexists.
  - apply andb_true_iff in Hok as [Hcr Hrest].
    pose proof (wellFormedRule_checkRule _ Hcr) as Hc.
    destruct (regexp2_valid ("\A" +:+ config.Pattern cr)) eqn:Ev.
    + assert (lexemesOk cr = true) as Hl.
      { rewrite lexemesOk_split, Ev. unfold wellFormedRule in Hcr.
        by apply andb_true_iff in Hcr as [_ ->]. }
      pose proof (ruleSequence_body_ok cr Hl) as Hb. rewrite Hc in Hb.
      destruct Hb as [rl ->]. cbn.
      destruct (IH Hrest) as [[Hall [seq ->]]|(cr' & Hin & Hv & ->)].
      * left. split; [done|]. by eexists.
      * right. exists cr'. split; [apply elem_of_cons; by right|]. done.
    + right. exists cr. split; [apply elem_of_cons; by left|]. split; [done|].
      by rewrite (ruleSequence_body_invalid _ Hc Ev).
Qed.

Lemma build_states_wellFormed tbl states :
  forallb (fun s => forallb wellFormedRule (config.Rules s)) states = true →
  (forallb (fun s => forallb (fun r => regexp2_valid ("\A" +:+ config.Pattern r))
                             (config.Rules s)) states = true
   ∧ ∃ tbl', build_states tbl states = Done tbl')
  ∨ (∃ s cr, s ∈ states ∧ cr ∈ config.Rules s
             ∧ regexp2_valid ("\A" +:+ config.Pattern cr) = false
             ∧ build_states tbl states
               = Abort (InvalidPattern ("\A" +:+ config.Pattern cr))).
Proof.
  revert tbl. induction states as [|s rest IH]; intros tbl; simpl; intros Hok.
  - left. split; [done|]. by eexists.
  - apply andb_true_iff in Hok as [Hs Hrest].
    destruct (ruleSequence_wellFormed _ Hs) as [[-> [seq ->]]|(cr & Hin & Hv & ->)]; cbn.
    + destruct (IH (AddState {| name := config.Name s; rules := seq |} tbl) Hrest)
        as [[Hall [t Ht]]|(s' & cr & Hin & Hcr & Hv & Hab)].
      * left. split; [done|]. by eexists.
      * right. exists s', cr. split; [apply elem_of_cons; by right|]. done.
    + right. exists s, cr. split; [apply elem_of_cons; by left|]. done.
Qed.

(** The aborts of [Build] with an InvalidPattern error: the first rule
    that is not compiled passed [checkRule] and its pattern, with "\A"
    before it, was refused. *)
Lemma Build_invalid_pattern fuel cfg e :
  Build fuel cfg = Abort e ∧ classify e = InvalidPatternClass
  ↔ ∃ ss1 s ss2 rs1 r rs2 tbl1 seq1,
      config.States cfg = ss1 ++ s :: ss2
      ∧ config.Rules s = rs1 ++ r :: rs2
      ∧ build_states newRules ss1 = Done tbl1
      ∧ ruleSequence rs1 = Done seq1
      ∧ checkRule r = None
      ∧ regexp2_valid ("\A" +:+ config.Pattern r) = false
      ∧ e = InvalidPattern ("\A" +:+ config.Pattern r).
Proof.
  split.
  - intros [Hab Hcl].
    apply Build_Abort in Hab as [Hab|[[n ->]|[n ->]]]; [|done..].
    apply build_states_Abort_split in Hab as (ss1 & s & ss2 & tbl1 & Hss & Ht1 & Hs).
    apply ruleSequence_Abort_split in Hs as (rs1 & r & rs2 & seq1 & Hrs & Hs1 & Hb).
    exists ss1, s, ss2, rs1, r, rs2, tbl1, seq1.
    apply ruleSequence_body_Abort in Hb as [Hc|[Hc [[Hv ->]|[_ [t ->]]]]].
    + apply (checkRule_rejected r) in Hc. rewrite Hc in Hcl. done.
    + done.
    + done.
  - intros (ss1 & s & ss2 & rs1 & r & rs2 & tbl1 & seq1
            & Hss & Hrs & Ht1 & Hs1 & Hc & Hv & ->).
    split; [|done]. apply Build_aborts_in_build_states. rewrite Hss.
    eapply build_states_reaches; [exact Ht1|]. rewrite Hrs.
    eapply ruleSequence_reaches; [exact Hs1|].
    by apply ruleSequence_body_invalid.
Qed.

(** C8, as amended. For the pattern of a rule [makeRule] hands the
    text "\A" followed by the declared pattern to the compiler, with
    the Multiline option, and gives the compiled matcher a budget of
    250 ms; it aborts with an InvalidPattern error when that text is
    refused.  When [Build] returns a lexer, the pattern of every rule
    of the grammar compiled, and every rule of the table carries the
    matcher of a rule of the grammar: its text is "\A" followed by the
    declared pattern and its budget is 250 ms.  [Build] fails with an
    InvalidPattern error exactly when the first rule it cannot compile
    (the states and the rules before it were compiled) passes
    [checkRule] and has a pattern that does not compile.  So for a
    grammar whose rules all pass [checkRule] and whose token type
    names are all known, [Build] fails with an InvalidPattern error
    exactly when the pattern of some rule does not compile. *)
Theorem makeRule_anchors_and_bounds :
  (∀ pat, makeRule pat
          = if regexp2_valid ("\A" +:+ pat)
            then Done (emptyRule {| re_source := "\A" +:+ pat;
                                    re_multiline := true;
                                    MatchTimeout := 250000000%Z |})
            else Abort (InvalidPattern ("\A" +:+ pat)))
  ∧ (∀ fuel cfg lx err,
       Build fuel cfg = Done (lx, err) →
       (∀ s r, declares cfg s r →
               regexp2_valid ("\A" +:+ config.Pattern r) = true)
       ∧ tableAll (fun rl => ∃ s r, declares cfg s r
                                    ∧ re_source (pattern rl) = "\A" +:+ config.Pattern r
                                    ∧ re_multiline (pattern rl) = true
                                    ∧ MatchTimeout (pattern rl) = 250000000%Z)
                  (lexer_rules lx))
  ∧ (∀ fuel cfg e,
       Build fuel cfg = Abort e ∧ classify e = InvalidPatternClass
       ↔ ∃ ss1 s ss2 rs1 r rs2 tbl1 seq1,
           config.States cfg = ss1 ++ s :: ss2
           ∧ config.Rules s = rs1 ++ r :: rs2
           ∧ build_states newRules ss1 = Done tbl1
           ∧ ruleSequence rs1 = Done seq1
           ∧ checkRule r = None
           ∧ regexp2_valid ("\A" +:+ config.Pattern r) = false
           ∧ e = InvalidPattern ("\A" +:+ config.Pattern r))
  ∧ (∀ fuel cfg,
       wellFormed cfg = true →
       (∃ e, Build fuel cfg = Abort e ∧ classify e = InvalidPatternClass)
       ↔ ∃ s r, declares cfg s r
                ∧ regexp2_valid ("\A" +:+ config.Pattern r) = false).
Proof.
  split; [apply makeRule_spec|]. split; [|split].
  - intros fuel cfg lx err H. split.
    + intros s r Hd. destruct (Build_Done_rules _ _ _ _ _ _ H Hd) as [rl Hrl].
      by apply ruleSequence_body_Done in Hrl as (_ & Hv & _).
    + eapply Build_tableAll; [exact H|]. intros s cr rl Hd Hb.
      exists s, cr. split; [done|].
      apply ruleSequence_body_Done in Hb as (_ & _ & -> & _). done.
  - apply Build_invalid_pattern.
  - intros fuel cfg Hwf. split.
    + intros (e & Hab). apply Build_invalid_pattern in Hab
        as (ss1 & s & ss2 & rs1 & r & rs2 & tbl1 & seq1
            & Hss & Hrs & _ & _ & _ & Hv & _).
      exists s, r. split; [|done]. unfold declares. rewrite Hss, Hrs.
      split; apply elem_of_app; right; apply elem_of_cons; by left.
    + intros (s & r & [Hs Hr] & Hv).
      destruct (build_states_wellFormed newRules (config.States cfg) Hwf)
        as [[Hall _]|(s' & cr & _ & _ & _ & Hab)].
      * rewrite forallb_forall in Hall.
        specialize (Hall s (proj1 (list_elem_of_In _ _) Hs)).
        rewrite forallb_forall in Hall.
        specialize (Hall r (proj1 (list_elem_of_In _ _) Hr)). congruence.
      * eexists. split; [by apply Build_aborts_in_build_states | done].
Qed.
End PatternFacts.

(** The table built for the chain grammar holds matchers whose text
    starts with "\A" and whose budget is 250 ms, and the grammar whose
    one pattern is an unclosed group is refused with an InvalidPattern
    error. *)
Lemma makeRule_anchors_and_bounds_witness :
  @Build Examples.exExternals 5 Examples.cfg_chain = Done (chainLexer, None)
  ∧ tableAll (fun rl => ∃ s r, declares Examples.cfg_chain s r
                               ∧ re_source (pattern rl) = "\A" +:+ config.Pattern r
                               ∧ re_multiline (pattern rl) = true
                               ∧ MatchTimeout (pattern rl) = 250000000%Z)
             (lexer_rules chainLexer)
  ∧ wellFormed (Ext := Examples.exExternals) Examples.cfg_badPattern = true
  ∧ @Build Examples.exExternals 1 Examples.cfg_badPattern
    = Abort (InvalidPattern "\A(")
  ∧ ((∃ e, @Build Examples.exExternals 1 Examples.cfg_badPattern = Abort e
           ∧ classify e = InvalidPatternClass)
     ↔ ∃ s r, declares Examples.cfg_badPattern s r
              ∧ Examples.exValid ("\A" +:+ config.Pattern r) = false).
Proof.
  destruct (@makeRule_anchors_and_bounds Examples.exExternals) as (_ & H2 & _ & H4).
  split; [vm_compute; reflexivity|]. split.
  - apply (H2 5 Examples.cfg_chain chainLexer None). vm_compute; reflexivity.
  - split; [vm_compute; reflexivity|]. split; [vm_compute; reflexivity|].
    apply (H4 1 Examples.cfg_badPattern). vm_compute; reflexivity.
Defined.

(** C8, as stated, fails on a grammar whose one rule has an unclosed
    group for pattern and both a push and a pop: the pattern does not
    compile, and [Build] fails in [checkRule], before the pattern is
    compiled, with a ConflictingRuleAction error; whatever the fuel, it
    does not fail with an InvalidPattern error. *)
Lemma Build_conflict_hides_bad_pattern :
  ¬ ((∃ s r, declares Examples.cfg_conflictBadPattern s r
             ∧ Examples.exValid ("\A" +:+ config.Pattern r) = false) →
     ∃ fuel e, @Build Examples.exExternals fuel Examples.cfg_conflictBadPattern
               = Abort e
               ∧ classify e = InvalidPatternClass).
Proof.
  intros H. destruct H as (fuel & e & Hab & Hcl).
  - exists (Examples.mkState "root" [Examples.pushPopRule "("]),
      (Examples.pushPopRule "(").
    split; [|reflexivity]. split; apply elem_of_cons; by left.
  - vm_compute in Hab. injection Hab as <-. discriminate.
Qed.

(** ** Combined states *)

Section CombinedFacts.
Context `{Ext : Externals}.

Lemma checkRule_combined r c :
  checkRule r = None → config.RCombined r = Some c →
  config.RPush r = None ∧ config.RPop r = None ∧ config.RInclude r = None.
Proof.
  unfold checkRule. intros H Hc. rewrite Hc in H.
  destruct (String.eqb (config.Pattern r) ""), (config.RToken r),
    (config.RPush r), (config.RPop r), (config.RInclude r),
    (config.RByGroups r); simpl in H; done.
Qed.

Lemma combined_push_target r c rl :
  ruleSequence_body r = Done rl → config.RCombined r = Some c →
  pushState rl = combinedStateName c.
Proof.
  intros Hb Hc. apply ruleSequence_body_Done in Hb as (Hck & _ & _ & Hp & _).
  destruct (checkRule_combined _ _ Hck Hc) as (Hpush & _).
  by rewrite Hpush, Hc in Hp.
Qed.

Lemma final_rulesIn fuel pre final k st :
  resolveIncludes fuel pre = Done (final, None) → pre !! k = Some st →
  rulesIn final k = flat_map (substitute final) (rules st).
Proof.
  intros Hres Hst.
  pose proof (resolveIncludes_Done _ _ _ _ Hres) as (_ & Hfin & _).
  destruct (Hfin _ _ Hst) as (out & Hout & Hlk). unfold rulesIn at 1.
  rewrite Hlk. simpl. by eapply resolveIncludesIn_substitute.
Qed.

Lemma final_flat_map fuel pre final subs :
  resolveIncludes fuel pre = Done (final, None) →
  Forall (fun sub => is_Some (pre !! sub)) subs →
  flat_map (substitute final) (flat_map (rulesIn pre) subs)
  = flat_map (rulesIn final) subs.
Proof.
  intros Hres HF. induction HF as [|sub subs [st Hst] HF IH]; [done|].
  simpl. rewrite flat_map_app, IH. f_equal.
  rewrite (final_rulesIn _ _ _ _ _ Hres Hst). unfold rulesIn. by rewrite Hst.
Qed.

Lemma configuredb_false cfg n s :
  configuredb cfg n = false → s ∈ config.States cfg → config.Name s ≠ n.
Proof.
  unfold configuredb. intros H Hs Hn.
  assert (existsb (fun s => String.eqb (config.Name s) n) (config.States cfg) = true);
    [|congruence].
  apply existsb_exists. exists s. rewrite <- list_elem_of_In.
  split; [done|]. by apply String.eqb_eq.
Qed.

Lemma nameUnsharedb_spec cfg c s r c' :
  nameUnsharedb cfg c = true → declares cfg s r →
  config.RCombined r = Some c' →
  combinedStateName c' = combinedStateName c →
  config.Combined_States c' = config.Combined_States c.
Proof.
  unfold nameUnsharedb. rewrite forallb_forall. intros H [Hs Hr] Hc Hn.
  specialize (H s (proj1 (list_elem_of_In _ _) Hs)).
  rewrite forallb_forall in H.
  specialize (H r (proj1 (list_elem_of_In _ _) Hr)).
  rewrite Hc, Hn, String.eqb_refl in H. simpl in H.
  by apply bool_decide_eq_true in H.
Qed.

(** C6, as amended. When [Build] returns a lexer, a rule declaring
    [Combined] with the list [c] has its push target set to the
    synthesized name of [c], and so has every other rule declaring
    that list; the table holds a state under that name (one: the
    table is a map, and a name already present is not built again);
    and when no configured state has that name and no rule declares
    another list under it, the rules of that state are the final
    rules of the listed states, concatenated in the order of the
    list. *)
Theorem Build_synthesizes_combined (fuel : nat) (cfg : config.Lexer)
    (lx : Lexer) (err : option BuildError)
    (s : config.State) (r : config.Rule) (c : config.Combined) :
  Build fuel cfg = Done (lx, err) →
  declares cfg s r →
  config.RCombined r = Some c →
  (∀ s' r', declares cfg s' r' → config.RCombined r' = Some c →
      ∃ rl, ruleSequence_body r' = Done rl
            ∧ pushState rl = combinedStateName c)
  ∧ is_Some (lexer_rules lx !! combinedStateName c)
  ∧ (configuredb cfg (combinedStateName c) = false →
     nameUnsharedb cfg c = true →
     rulesIn (lexer_rules lx) (combinedStateName c)
     = flat_map (rulesIn (lexer_rules lx)) (config.Combined_States c)).
Proof.
  intros HB Hd Hc. split.
  { intros s' r' Hd' Hc'. destruct (Build_Done_rules _ _ _ _ _ _ HB Hd') as [rl Hrl].
    exists rl. split; [done|]. by eapply combined_push_target. }
  apply Build_Done in HB as (_ & _ & pre & Hpre & Hres).
  unfold build in Hpre. apply bind_Done in Hpre as (t0 & Ht0 & Hpre).
  apply bind_Done in Hpre as (t1 & Ht1 & [= <-]).
  rewrite build_combined_flat in Ht1.
  apply combine_all_spec in Ht1 as (Hsub & Hall & Hnew).
  assert (Hin : (config.Name s, r) ∈ rulesOfStates (config.States cfg)).
  { apply rulesOfStates_elem. exists s. by destruct Hd. }
  destruct (Hall _ _ _ Hin Hc) as [st Hst].
  pose proof (resolveIncludes_Done _ _ _ _ Hres) as (_ & Hfin & _).
  split.
  { destruct (Hfin _ _ Hst) as (out & _ & Hlk). by eexists. }
  intros Hconf Hun.
  assert (Ht0none : t0 !! combinedStateName c = None).
  { destruct (t0 !! combinedStateName c) as [st0|] eqn:E0; [|done]. exfalso.
    apply build_states_Done in Ht0 as (_ & Hk & _).
    destruct (Hk _ _ E0) as [Hl|(s0 & seq & Hs0 & Hn0 & _)]; [done|].
    by eapply configuredb_false. }
  destruct (Hnew _ _ Ht0none Hst) as (n' & r' & c' & Hin' & Hc' & Hn' & _ & HF & Hrs).
  apply rulesOfStates_elem in Hin' as (s' & Hs' & _ & Hr').
  assert (Hl : config.Combined_States c' = config.Combined_States c).
  { eapply nameUnsharedb_spec; [exact Hun| |exact Hc'|exact Hn']. by split. }
  rewrite Hl in HF, Hrs.
  rewrite (final_rulesIn _ _ _ _ _ Hres Hst), Hrs.
  by eapply final_flat_map.
Qed.
End CombinedFacts.

(** In the grammar whose two rules both declare the list ["a"; "b"],
    both push "__combined_a__b", and that state holds the rule of "a"
    followed by the rule of "b". *)
Lemma Build_synthesizes_combined_witness :
  @Build Examples.exExternals 2 Examples.cfg_sameList = Done (sameListLexer, None)
  ∧ (∀ s' r', declares Examples.cfg_sameList s' r' →
        config.RCombined r' = Some {| config.Combined_States := ["a"; "b"] |} →
        ∃ rl, @ruleSequence_body Examples.exExternals r' = Done rl
              ∧ pushState rl = "__combined_a__b")
  ∧ is_Some (lexer_rules sameListLexer !! "__combined_a__b")
  ∧ rulesIn (lexer_rules sameListLexer) "__combined_a__b"
    = rulesIn (lexer_rules sameListLexer) "a"
      ++ rulesIn (lexer_rules sameListLexer) "b".
Proof.
  split; [vm_compute; reflexivity|].
  destruct (@Build_synthesizes_combined Examples.exExternals 2 Examples.cfg_sameList
              sameListLexer None
              (Examples.mkState "root" [Examples.combinedRule "x" ["a"; "b"];
                                        Examples.combinedRule "y" ["a"; "b"]])
              (Examples.combinedRule "y" ["a"; "b"])
              {| config.Combined_States := ["a"; "b"] |})
    as (H1 & H2 & H3).
  - vm_compute; reflexivity.
  - split; [apply elem_of_cons; by left|]. apply elem_of_cons; right.
    apply elem_of_cons; by left.
  - reflexivity.
  - split; [exact H1|]. split; [exact H2|].
    pose proof (H3 ltac:(vm_compute; reflexivity) ltac:(vm_compute; reflexivity)) as H3'.
    vm_compute in H3'. vm_compute. exact H3'.
Defined.

(** C6, as stated, fails when two lists share a synthesized name: the
    rule declaring ["a"; "b"] pushes the state that was built for
    ["a__b"], whose rules are not those of "a" followed by those of
    "b". *)
Lemma Build_collision_keeps_first_state :
  @Build Examples.exExternals 2 Examples.cfg_collision = Done (collisionLexer, None)
  ∧ declares Examples.cfg_collision
      (Examples.mkState "root" [Examples.combinedRule "x" ["a__b"];
                                Examples.combinedRule "y" ["a"; "b"]])
      (Examples.combinedRule "y" ["a"; "b"])
  ∧ rulesIn (lexer_rules collisionLexer)
      (combinedStateName {| config.Combined_States := ["a"; "b"] |})
    ≠ flat_map (rulesIn (lexer_rules collisionLexer)) ["a"; "b"].
Proof.
  split; [vm_compute; reflexivity|]. split.
  - split; [apply elem_of_cons; by left|]. apply elem_of_cons; right.
    apply elem_of_cons; by left.
  - vm_compute. discriminate.
Qed.

(** ** Dangling state references *)

Section ValidateFacts.
Context `{Ext : Externals}.

Lemma foundRoot_fold (states : list config.State) (b : bool) :
  fold_left (fun found s =>
               if String.eqb (config.Name s) "root" then true else found)
            states b
  = b || existsb (fun s => String.eqb (config.Name s) "root") states.
Proof.
  revert b. induction states as [|s rest IH]; intros b; simpl.
  - by rewrite orb_false_r.
  - rewrite IH. destruct (String.eqb (config.Name s) "root"), b; done.
Qed.

Lemma validate_foundRoot_configuredb cfg :
  validate_foundRoot (config.States cfg) = configuredb cfg "root".
Proof. unfold validate_foundRoot, configuredb. by rewrite foundRoot_fold. Qed.

Lemma validate_stateNames_spec cfg n :
  n ∈ validate_stateNames (config.States cfg) ↔ configured cfg n.
Proof.
  unfold validate_stateNames, configured.
  transitivity (n ∈ (∅ : gset string)
                ∨ ∃ s, s ∈ config.States cfg ∧ config.Name s = n).
  - generalize (∅ : gset string).
    induction (config.States cfg) as [|s rest IH]; intros acc; simpl.
    + split; [by left|]. intros [?|(s & Hs & _)]; [done|].
      by apply elem_of_nil in Hs.
    + rewrite IH, elem_of_union, elem_of_singleton. split.
      * intros [[ -> | Hin ]|(s' & Hs' & Hn)].
        -- right. exists s. split; [apply elem_of_cons; by left | done].
        -- by left.
        -- right. exists s'. split; [apply elem_of_cons; by right | done].
      * intros [Hin|(s' & Hs' & Hn)]; [left; by right|].
        apply elem_of_cons in Hs' as [ -> | Hs' ]; [left; by left|].
        right. by exists s'.
  - split; [|by right]. intros [Hin|H]; [|done]. by apply elem_of_empty in Hin.
Qed.

Lemma validate_rule_spec names missing r t :
  t ∈ validate_rule names missing r
  ↔ t ∈ missing
    ∨ ∃ p, config.RPush r = Some p ∧ config.Push_State p = t
           ∧ t ≠ "" ∧ t ∉ names.
Proof.
  unfold validate_rule. destruct (config.RPush r) as [p|].
  2:{ split; [by left|]. by intros [?|(p & ? & _)]. }
  destruct (String.eqb (config.Push_State p) "") eqn:Ee.
  { apply String.eqb_eq in Ee. split; [by left|].
    intros [?|(p' & [= <-] & <- & Hne & _)]; done. }
  apply String.eqb_neq in Ee. case_bool_decide as Hin.
  { split; [by left|]. intros [?|(p' & [= <-] & <- & _ & Hn)]; done. }
  rewrite elem_of_app, list_elem_of_singleton. split.
  - intros [?| ->]; [by left|]. right. by exists p.
  - intros [?|(p' & [= <-] & <- & _)]; [by left | by right].
Qed.

Lemma validate_rules_spec names rs missing t :
  t ∈ fold_left (validate_rule names) rs missing
  ↔ t ∈ missing
    ∨ ∃ r p, r ∈ rs ∧ config.RPush r = Some p ∧ config.Push_State p = t
             ∧ t ≠ "" ∧ t ∉ names.
Proof.
  revert missing. induction rs as [|r rest IH]; intros missing; simpl.
  - split; [by left|]. intros [?|(r & p & Hr & _)]; [done|].
    by apply elem_of_nil in Hr.
  - rewrite IH, validate_rule_spec. split.
    + intros [[?|(p & ?)]|(r' & p & Hr' & ?)].
      * by left.
      * right. exists r, p. split; [apply elem_of_cons; by left | done].
      * right. exists r', p. split; [apply elem_of_cons; by right | done].
    + intros [?|(r' & p & Hr' & ?)]; [left; by left|].
      apply elem_of_cons in Hr' as [ -> | Hr' ].
      * left. right. by exists p.
      * right. by exists r', p.
Qed.

Lemma validate_missing_spec names states t :
  t ∈ validate_missing names states
  ↔ ∃ s r p, s ∈ states ∧ r ∈ config.Rules s ∧ config.RPush r = Some p
             ∧ config.Push_State p = t ∧ t ≠ "" ∧ t ∉ names.
Proof.
  unfold validate_missing.
  transitivity (t ∈ (@nil string)
                ∨ ∃ s r p, s ∈ states ∧ r ∈ config.Rules s
                           ∧ config.RPush r = Some p
                           ∧ config.Push_State p = t ∧ t ≠ "" ∧ t ∉ names).
  - generalize (@nil string).
    induction states as [|s rest IH]; intros missing; simpl.
    + split; [by left|]. intros [?|(s & r & p & Hs & _)]; [done|].
      by apply elem_of_nil in Hs.
    + rewrite IH, validate_rules_spec. split.
      * intros [[?|(r & p & Hr & ?)]|(s' & r & p & Hs' & ?)].
        -- by left.
        -- right. exists s, r, p. split; [apply elem_of_cons; by left | done].
        -- right. exists s', r, p. split; [apply elem_of_cons; by right | done].
      * intros [?|(s' & r & p & Hs' & Hr & ?)]; [left; by left|].
        apply elem_of_cons in Hs' as [ -> | Hs' ].
        -- left. right. by exists r, p.
        -- right. by exists s', r, p.
  - split; [|by right]. intros [Hin|H]; [|done]. by apply elem_of_nil in Hin.
Qed.

(** An abort of include resolution names the target of an [Include]
    met on the way, in the list or in a state of the table, for which
    the table has no state. *)
Lemma resolveIncludesIn_Abort_target fuel tbl rs e :
  resolveIncludesIn fuel tbl rs = Abort e →
  ∃ rl, e = IncludeMissing (include rl) ∧ include rl ≠ ""
        ∧ tbl !! include rl = None
        ∧ (rl ∈ rs ∨ ∃ k st, tbl !! k = Some st ∧ rl ∈ rules st).
Proof.
  revert rs. induction fuel as [|fuel IH]; intros rs H; [done|].
  simpl in H. revert H. generalize (@nil rule).
  induction rs as [|rl rest IHrs]; intros acc H; [done|].
  rewrite loop_cons in H. apply bind_Abort in H as [H|(o & _ & H)].
  - unfold expandRule in H.
    destruct (String.eqb (include rl) "") eqn:Ee; simpl in H; [done|].
    apply String.eqb_neq in Ee.
    destruct (Get tbl (include rl)) as [st|] eqn:EG.
    + apply IH in H as (rl' & -> & Hne & Hnone & [Hin|Hin]).
      * exists rl'. split; [done|]. split; [done|]. split; [done|].
        right. by exists (include rl), st.
      * exists rl'. split; [done|]. split; [done|]. split; [done|]. by right.
    + injection H as <-. exists rl. split; [done|]. split; [done|].
      split; [done|]. left. apply elem_of_cons. by left.
  - destruct (IHrs _ H) as (rl' & -> & Hne & Hnone & [Hin|Hin]).
    + exists rl'. split; [done|]. split; [done|]. split; [done|].
      left. apply elem_of_cons. by right.
    + exists rl'. split; [done|]. split; [done|]. split; [done|]. by right.
Qed.

(** Once the table is assembled, [Build] only fails on an [Include]
    whose target the table lacks. *)
Lemma Build_Abort_after_build fuel cfg pre e :
  build cfg newRules = Done (pre, None) → Build fuel cfg = Abort e →
  ∃ n, e = IncludeMissing n ∧ missingIncludeTarget pre n.
Proof.
  intros Hpre H. rewrite (Build_after_build _ _ _ Hpre) in H.
  destruct (resolveIncludes_fail fuel pre)
    as [[final Hf]|(k & st & Hst & [(e' & He & Hab)|[_ Hd]])].
  - rewrite Hf in H. done.
  - rewrite Hab in H. injection H as <-.
    apply resolveIncludesIn_Abort_target in He
      as (rl & -> & Hne & Hnone & Hin).
    exists (include rl). split; [done|]. split; [done|]. split; [done|].
    destruct Hin as [Hin|(k' & st' & Hst' & Hin)].
    + by exists k, st, rl.
    + by exists k', st', rl.
  - rewrite Hd in H. done.
Qed.

(** C2, as amended. For a grammar that defines root, [validate]
    reports a DanglingStateReference error that lists exactly the
    non-empty Push targets naming no configured state; Include
    targets are not among them.  When [build] has assembled its table
    and some rule of it has an Include naming a state the table
    lacks, [Build] returns no lexer, whatever the fuel: it either
    fails with a DanglingStateReference error that names one Include
    target missing from the table, or, when the resolution enters an
    include cycle first, does not come back; and when the include
    chains of the table are bounded by a rank it does fail with such
    an error, given fuel for the bound. *)
Theorem dangling_references_reported (cfg : config.Lexer) :
  (configuredb cfg "root" = true →
   ∀ t, undefinedPushTarget cfg t
        ↔ ∃ missing, validate cfg = Some (MissingStates missing)
                     ∧ classify (MissingStates missing) = DanglingStateReference
                     ∧ t ∈ missing)
  ∧ (∀ pre, build cfg newRules = Done (pre, None) → danglingInclude pre →
       (∀ fuel lx err, Build fuel cfg ≠ Done (lx, err))
       ∧ (∀ fuel,
            Build fuel cfg = Diverge
            ∨ ∃ n, Build fuel cfg = Abort (IncludeMissing n)
                   ∧ classify (IncludeMissing n) = DanglingStateReference
                   ∧ missingIncludeTarget pre n)
       ∧ (∀ rank N fuel,
            rankedb rank N pre = true → (N ≤ fuel)%nat →
            ∃ n, Build fuel cfg = Abort (IncludeMissing n)
                 ∧ classify (IncludeMissing n) = DanglingStateReference
                 ∧ missingIncludeTarget pre n)).
Proof.
  split.
  - intros Hroot t. unfold validate. rewrite validate_foundRoot_configuredb, Hroot.
    simpl. unfold undefinedPushTarget, declares.
    pose proof (validate_missing_spec
                  (validate_stateNames (config.States cfg)) (config.States cfg) t)
      as Hm.
    destruct (validate_missing _ _) as [|m ms] eqn:Em; simpl.
    + split.
      * intros (s & r & p & [Hs Hr] & Hp & Ht & Hne & Hnc). exfalso.
        eapply elem_of_nil, Hm. exists s, r, p. rewrite validate_stateNames_spec. done.
      * intros (missing & [=] & _).
    + split.
      * intros (s & r & p & [Hs Hr] & Hp & Ht & Hne & Hnc). eexists.
        split; [done|]. split; [done|]. apply Hm. exists s, r, p.
        rewrite validate_stateNames_spec. done.
      * intros (missing & [= <-] & _ & Hin). apply Hm in Hin
          as (s & r & p & Hs & Hr & Hp & Ht & Hne & Hnc).
        exists s, r, p. rewrite validate_stateNames_spec in Hnc. done.
  - intros pre Hpre (k & st & rl & Hst & Hin & Hne & Hnone).
    assert (Hnot : ∀ fuel lx err, Build fuel cfg ≠ Done (lx, err)).
    { intros fuel lx err H. apply Build_Done in H as (_ & _ & pre' & Hpre' & Hres).
      rewrite Hpre in Hpre'. injection Hpre' as <-.
      apply resolveIncludes_Done in Hres as (_ & Hfin & _).
      destruct (Hfin _ _ Hst) as (out & Hout & _). by eapply dangling_not_Done. }
    assert (Hcases : ∀ fuel,
               Build fuel cfg = Diverge
               ∨ ∃ n, Build fuel cfg = Abort (IncludeMissing n)
                      ∧ classify (IncludeMissing n) = DanglingStateReference
                      ∧ missingIncludeTarget pre n).
    { intros fuel. destruct (Build fuel cfg) as [[lx err]|e|] eqn:EB.
      - by apply Hnot in EB.
      - right. destruct (Build_Abort_after_build _ _ _ _ Hpre EB) as (n & -> & Hn).
        by exists n.
      - by left. }
    split; [exact Hnot|]. split; [exact Hcases|].
    intros rank N fuel Hr Hle. destruct (Hcases fuel) as [Hd|H]; [|exact H].
    exfalso. rewrite (Build_after_build _ _ _ Hpre) in Hd.
    destruct (resolveIncludes_fail fuel pre)
      as [[final Hf]|(k' & st' & Hst' & [(e & _ & Hab)|[Hdiv _]])].
    + rewrite Hf in Hd. done.
    + rewrite Hab in Hd. done.
    + destruct (rankedb_spec _ _ _ _ _ Hr Hst') as [Hk _].
      pose proof (ranked_converges _ _ _ Hr N k' st' Hst' Hk) as HN.
      rewrite (resolveIncludesIn_le N fuel) in Hdiv; done.
Qed.
End ValidateFacts.

(** In the grammar whose root pushes the undefined "nowhere" and
    includes the undefined "x", [validate] lists "nowhere" only, and
    [Build] aborts on "x". *)
Lemma dangling_references_reported_witness :
  configuredb Examples.cfg_danglingBoth "root" = true
  ∧ validate Examples.cfg_danglingBoth = Some (MissingStates ["nowhere"])
  ∧ (∀ t, undefinedPushTarget Examples.cfg_danglingBoth t
          ↔ ∃ missing, validate Examples.cfg_danglingBoth = Some (MissingStates missing)
                       ∧ classify (MissingStates missing) = DanglingStateReference
                       ∧ t ∈ missing)
  ∧ @build Examples.exExternals Examples.cfg_danglingBoth newRules
    = Done (danglingBothTable, None)
  ∧ danglingInclude danglingBothTable
  ∧ rankedb (fun _ => 0) 1 danglingBothTable = true
  ∧ @Build Examples.exExternals 1 Examples.cfg_danglingBoth
    = Abort (IncludeMissing "x")
  ∧ ∃ n, @Build Examples.exExternals 1 Examples.cfg_danglingBoth
         = Abort (IncludeMissing n)
         ∧ classify (IncludeMissing n) = DanglingStateReference
         ∧ missingIncludeTarget danglingBothTable n.
Proof.
  assert (Hpre : @build Examples.exExternals Examples.cfg_danglingBoth newRules
                 = Done (danglingBothTable, None)) by (vm_compute; reflexivity).
  assert (Hd : danglingInclude danglingBothTable).
  { exists "root", {| name := "root";
                      rules := [set_pushState (Examples.compiled "a" 1%Z) "nowhere";
                                set_include
                                  (emptyRule {| re_source := "\A"; re_multiline := true;
                                                MatchTimeout := 250000000%Z |})
                                  "x"] |},
      (set_include (emptyRule {| re_source := "\A"; re_multiline := true;
                                 MatchTimeout := 250000000%Z |}) "x").
    split; [reflexivity|]. split; [|split; [discriminate | reflexivity]].
    apply elem_of_cons. right. apply elem_of_cons. by left. }
  destruct (@dangling_references_reported Examples.exExternals
              Examples.cfg_danglingBoth) as [H1 H2].
  destruct (H2 danglingBothTable Hpre Hd) as (_ & _ & H3).
  split; [reflexivity|]. split; [vm_compute; reflexivity|].
  split; [apply H1; reflexivity|]. split; [exact Hpre|]. split; [exact Hd|].
  split; [vm_compute; reflexivity|]. split; [vm_compute; reflexivity|].
  apply (H3 (fun _ => 0) 1 1); [vm_compute; reflexivity | lia].
Defined.

(** C2, as stated, fails on a grammar whose root includes the undefined
    states "x" and "y": whatever the fuel, [Build] gives no error that
    lists both. *)
Lemma Build_names_one_missing_include :
  ¬ ∃ fuel e, @Build Examples.exExternals fuel Examples.cfg_danglingIncludes = Abort e
              ∧ "x" ∈ namesListed e ∧ "y" ∈ namesListed e.
Proof.
  intros (fuel & e & H & _ & Hy).
  destruct fuel as [|fuel]; vm_compute in H; [discriminate|].
  injection H as <-. simpl in Hy. apply list_elem_of_singleton in Hy. discriminate.
Qed.

(** ** The tokenizer: fallback and progress *)

Section TokenizerFacts.
Import Tokenizer.
Variable Error : TokenType.

Lemma firstMatch_Some rs text p r m :
  firstMatch rs text p = Some (r, m) → r ∈ rs ∧ matchAt r text p = Some m.
Proof.
  induction rs as [|r0 rest IH]; simpl; [done|].
  destruct (matchAt r0 text p) as [m0|] eqn:E.
  - intros [= -> ->]. split; [apply elem_of_cons; by left | done].
  - intros H. apply IH in H as [Hin Hm]. split; [apply elem_of_cons; by right | done].
Qed.

Lemma rulesOf_elem tbl o r :
  r ∈ rulesOf tbl o → ∃ n rs, tbl !! n = Some rs ∧ r ∈ rs.
Proof.
  unfold rulesOf. destruct o as [n|]; [|by intros ?%elem_of_nil].
  destruct (tbl !! n) as [rs|] eqn:E; simpl; [|by intros ?%elem_of_nil].
  intros Hin. by exists n, rs.
Qed.

Lemma byGroupsTokens_Some nested gs spans text :
  Forall (fun x => is_Some (nested x.1 (span text x.2.1 x.2.2)))
         (groupStarts gs spans) →
  ∃ toks, byGroupsTokens nested gs spans text = Some toks.
Proof.
  revert spans. induction gs as [|g gs IH]; intros spans Hn.
  - exists []. by destruct spans.
  - destruct spans as [|[s l] spans]; simpl; [by eexists|]. simpl in Hn.
    assert (∃ toks, groupTokens nested g s l text = Some toks
                    ∧ Forall (fun x => is_Some (nested x.1 (span text x.2.1 x.2.2)))
                             (groupStarts gs spans)) as (toks & -> & Hrest).
    { destruct g as [ty|st]; simpl; [by eexists|].
      apply Forall_cons in Hn as [[sub Hsub] Hrest]. simpl in Hsub.
      rewrite Hsub. by eexists. }
    destruct (IH spans Hrest) as [more ->]. cbn. by eexists.
Qed.

Lemma applyOp_length op stack :
  (length (applyOp op stack) ≤ S (length stack))%nat.
Proof.
  destruct op as [|target| |depth]; simpl.
  - lia.
  - rewrite length_app. simpl. lia.
  - destruct (top stack); [rewrite length_app; simpl|]; lia.
  - rewrite length_take. lia.
Qed.

Lemma applyOp_pop_shrinks depth stack :
  applyOp (PopStates depth) stack ≠ stack →
  length (applyOp (PopStates depth) stack) < length stack.
Proof.
  simpl. intros Hne. rewrite length_take.
  destruct (decide (length stack - Nat.min depth (length stack - 1) < length stack))
    as [Hlt|Hge]; [lia|].
  exfalso. apply Hne. apply take_ge. lia.
Qed.

(** When no empty match pushes and the nested sub-sessions it starts
    come back, a step is taken, and it brings the session nearer to
    its end. *)
Lemma step_decreases nested tbl stack p text :
  noEmptyPush tbl →
  (∀ r m, firstMatch (rulesOf tbl (top stack)) text p = Some (r, m) →
          Forall (fun x => is_Some (nested x.1 (span text x.2.1 x.2.2)))
                 (nestedStarts r m stack p)) →
  p < length text →
  ∃ toks stack' p',
    step Error nested tbl stack p text = Some (toks, stack', p')
    ∧ sessionBound (length text) p' (length stack')
      < sessionBound (length text) p (length stack).
Proof.
  intros Hpush Hnested Hp. unfold step, sessionBound.
  destruct (firstMatch (rulesOf tbl (top stack)) text p) as [[r m]|] eqn:E.
  2:{ eexists _, _, _. split; [done | lia]. }
  specialize (Hnested r m eq_refl).
  apply firstMatch_Some in E as [Hin Hm].
  apply rulesOf_elem in Hin as (n & rs & Hrs & Hin).
  assert (∃ toks stack',
             dispatch nested r m stack p text = Some (toks, stack')
             ∧ (stack' = stack
                ∨ ∃ ty op, action r = ActToken ty op ∧ stack' = applyOp op stack))
    as (toks & stack' & -> & Hstack).
  { unfold dispatch. unfold nestedStarts in Hnested.
    destruct (action r) as [ty op|gs|st] eqn:Ea.
    - eexists _, _. split; [done|]. right. by exists ty, op.
    - destruct (byGroupsTokens_Some nested gs (m_groups m) text Hnested) as [toks ->].
      cbn. eexists _, _. split; [done | by left].
    - destruct (match st with Some n0 => Some n0 | None => top stack end) as [n0|].
      + apply Forall_cons in Hnested as [[sub Hsub] _]. simpl in Hsub.
        rewrite Hsub. cbn. eexists _, _. split; [done | by left].
      + eexists _, _. split; [done | by left]. }
  cbn. destruct (Nat.eqb_spec (m_length m) 0) as [Hz|Hnz]; simpl.
  - case_bool_decide as Hs.
    + eexists _, _, _. split; [done | lia].
    + eexists _, _, _. split; [done|].
      destruct Hstack as [?|(ty & op & Ea & ->)]; [done|].
      pose proof (Hpush n rs r text p m Hrs Hin Hm Hz) as Hno.
      rewrite Ea in Hno. destruct op as [|target| |depth]; simpl in Hno; try done.
      apply applyOp_pop_shrinks in Hs. lia.
  - eexists _, _, _. split; [done|].
    destruct Hstack as [->|(ty & op & _ & ->)]; [lia|].
    pose proof (applyOp_length op stack). lia.
Qed.

(** With spans that get shorter, the bound is enough fuel. *)
Lemma run_session_completes tbl :
  noEmptyPush tbl → nestedSpansShorter tbl →
  ∀ fuel stack p text,
    (sessionBound (length text) p (length stack) ≤ fuel)%nat →
    ∃ toks, run_session Error fuel tbl stack p text = Some toks.
Proof.
  intros Hpush Hnest fuel. induction fuel as [|fuel IH]; intros stack p text Hb.
  { unfold sessionBound in Hb. lia. }
  simpl. destruct (Nat.leb_spec (length text) p) as [Hle|Hgt]; [by eexists|].
  destruct (step_decreases (fun st sub => run_session Error fuel tbl [st] 0 sub)
              tbl stack p text Hpush) as (toks & stack' & p' & -> & Hlt).
  - intros r m E. apply firstMatch_Some in E as [Hin Hm].
    apply rulesOf_elem in Hin as (n & rs & Hrs & Hin).
    apply Forall_forall. intros [st [s l]] Hsl. simpl.
    pose proof (Hnest n rs r text stack p m st s l Hrs Hin Hm Hsl) as Hshort.
    destruct (IH [st] 0 (span text s l)) as [sub ->]; [|by eexists].
    unfold sessionBound in *. simpl. nia.
  - done.
  - cbn. destruct (IH stack' p' text) as [more ->]; [lia|]. cbn. by eexists.
Qed.

(** More fuel does not change what a session returns. *)
Lemma groupTokens_mono nested1 nested2 g s l text toks :
  (∀ st sub t, nested1 st sub = Some t → nested2 st sub = Some t) →
  groupTokens nested1 g s l text = Some toks →
  groupTokens nested2 g s l text = Some toks.
Proof.
  intros Hn. destruct g as [ty|st]; simpl; [done|].
  destruct (nested1 st (span text s l)) as [t|] eqn:E; simpl; [|done].
  intros [= <-]. by rewrite (Hn _ _ _ E).
Qed.

Lemma byGroupsTokens_mono nested1 nested2 gs spans text toks :
  (∀ st sub t, nested1 st sub = Some t → nested2 st sub = Some t) →
  byGroupsTokens nested1 gs spans text = Some toks →
  byGroupsTokens nested2 gs spans text = Some toks.
Proof.
  intros Hn. revert spans toks.
  induction gs as [|g gs IH]; intros spans toks; [by destruct spans|].
  destruct spans as [|[s l] spans]; simpl; [done|]. intros H.
  apply bind_Some in H as (t & Ht & H).
  apply bind_Some in H as (more & Hmore & [= <-]).
  rewrite (groupTokens_mono _ _ _ _ _ _ _ Hn Ht). cbn.
  by rewrite (IH _ _ Hmore).
Qed.

Lemma dispatch_mono nested1 nested2 r m stack p text out :
  (∀ st sub t, nested1 st sub = Some t → nested2 st sub = Some t) →
  dispatch nested1 r m stack p text = Some out →
  dispatch nested2 r m stack p text = Some out.
Proof.
  intros Hn. unfold dispatch. destruct (action r) as [ty op|gs|st]; [done| |].
  - intros H. apply bind_Some in H as (toks & Ht & [= <-]).
    by rewrite (byGroupsTokens_mono _ _ _ _ _ _ Hn Ht).
  - destruct (match st with Some n => Some n | None => top stack end) as [n|]; [|done].
    intros H. apply bind_Some in H as (toks & Ht & [= <-]).
    by rewrite (Hn _ _ _ Ht).
Qed.

Lemma step_mono nested1 nested2 tbl stack p text out :
  (∀ st sub t, nested1 st sub = Some t → nested2 st sub = Some t) →
  step Error nested1 tbl stack p text = Some out →
  step Error nested2 tbl stack p text = Some out.
Proof.
  intros Hn. unfold step.
  destruct (firstMatch (rulesOf tbl (top stack)) text p) as [[r m]|]; [|done].
  intros H. apply bind_Some in H as ([toks0 stack0] & Hd & H).
  rewrite (dispatch_mono _ _ _ _ _ _ _ _ Hn Hd). exact H.
Qed.

Lemma run_session_mono tbl fuel :
  ∀ fuel' stack p text toks,
    (fuel ≤ fuel')%nat →
    run_session Error fuel tbl stack p text = Some toks →
    run_session Error fuel' tbl stack p text = Some toks.
Proof.
  induction fuel as [|fuel IH]; intros fuel' stack p text toks Hle H; [done|].
  destruct fuel' as [|fuel']; [lia|]. simpl in *.
  destruct (Nat.leb (length text) p); [done|].
  apply bind_Some in H as ([[t stack'] p'] & Hs & H).
  apply bind_Some in H as (more & Hmore & [= <-]).
  rewrite (step_mono _ (fun st sub => run_session Error fuel' tbl [st] 0 sub)
             _ _ _ _ _ (fun st sub t0 => IH fuel' [st] 0 sub t0 ltac:(lia)) Hs).
  cbn. rewrite (IH fuel' _ _ _ _ ltac:(lia) Hmore). done.
Qed.

(** Sessions that end one by one end with one amount of fuel. *)
Lemma common_fuel tbl text (starts : list (string * (nat * nat))) :
  Forall (fun x => sessionEnds Error tbl [x.1] 0 (span text x.2.1 x.2.2)) starts →
  ∃ fuel, Forall (fun x => is_Some (run_session Error fuel tbl [x.1] 0
                                      (span text x.2.1 x.2.2))) starts.
Proof.
  induction 1 as [|x starts (f & toks & Hx) _ [f' IH]].
  - exists 0. constructor.
  - exists (Nat.max f f'). constructor.
    + exists toks. eapply run_session_mono; [|exact Hx]. lia.
    + eapply Forall_impl; [exact IH|]. intros y [t Hy]. exists t.
      eapply run_session_mono; [|exact Hy]. lia.
Qed.

(** A session ends when no empty match pushes and the nested
    sub-sessions started on its text end. *)
Lemma run_session_ends tbl text :
  noEmptyPush tbl → nestedSessionsEnd Error tbl text →
  ∀ k stack p, (sessionBound (length text) p (length stack) ≤ k)%nat →
               sessionEnds Error tbl stack p text.
Proof.
  intros Hpush Hend k. induction k as [|k IH]; intros stack p Hb.
  { unfold sessionBound in Hb. lia. }
  destruct (Nat.leb_spec (length text) p) as [Hle|Hgt].
  { exists 1, []. simpl. by rewrite (proj2 (Nat.leb_le _ _) Hle). }
  assert (∃ f0, ∀ r m,
             firstMatch (rulesOf tbl (top stack)) text p = Some (r, m) →
             Forall (fun x => is_Some (run_session Error f0 tbl [x.1] 0
                                         (span text x.2.1 x.2.2)))
                    (nestedStarts r m stack p)) as [f0 Hf0].
  { destruct (firstMatch (rulesOf tbl (top stack)) text p) as [[r m]|] eqn:E.
    2:{ exists 0. intros r m [=]. }
    apply firstMatch_Some in E as [Hin Hm].
    apply rulesOf_elem in Hin as (n & rs & Hrs & Hin).
    destruct (common_fuel tbl text (nestedStarts r m stack p)) as [f0 Hf0].
    - apply Forall_forall. intros [st [s l]] Hsl. simpl. by eapply Hend.
    - exists f0. by intros r' m' [= <- <-]. }
  destruct (step_decreases (fun st sub => run_session Error f0 tbl [st] 0 sub)
              tbl stack p text Hpush Hf0 Hgt) as (toks & stack' & p' & Hs & Hlt).
  destruct (IH stack' p') as (f1 & more & Hmore); [lia|].
  exists (S (Nat.max f0 f1)), (toks ++ more). simpl.
  rewrite (proj2 (Nat.leb_gt _ _) Hgt).
  rewrite (step_mono _ (fun st sub => run_session Error (Nat.max f0 f1) tbl [st] 0 sub)
             _ _ _ _ _
             (fun st sub t0 => run_session_mono tbl f0 (Nat.max f0 f1) [st] 0 sub t0
                                 ltac:(lia)) Hs).
  cbn. rewrite (run_session_mono tbl f1 (Nat.max f0 f1) _ _ _ _ ltac:(lia) Hmore).
  done.
Qed.

(** A step either moves the position forward or changes the stack. *)
Lemma step_progress nested tbl stack p text toks stack' p' :
  step Error nested tbl stack p text = Some (toks, stack', p') →
  p < p' ∨ (p' = p ∧ stack' ≠ stack).
Proof.
  unfold step.
  destruct (firstMatch (rulesOf tbl (top stack)) text p) as [[r m]|].
  2:{ intros [= <- <- <-]. left. lia. }
  destruct (dispatch nested r m stack p text) as [[toks0 stack0]|]; cbn; [|done].
  destruct (Nat.eqb_spec (m_length m) 0) as [Hz|Hnz]; simpl.
  - case_bool_decide as Hs.
    + intros [= <- <- <-]. left. lia.
    + intros [= <- <- <-]. right. split; [lia | done].
  - intros [= <- <- <-]. left. lia.
Qed.

(** C3, as amended. When no rule of the state on top of the stack
    matches, or the rule that matched consumed nothing and left the
    stack as it was, the step emits one Error token of length one at
    the position and moves the position by one.  Every step moves
    the position forward or changes the stack.  In a table where no
    rule pushes a state on an empty match, the session over a text
    ends whenever the nested sub-sessions that rules start on that
    text end; they do when a nested sub-session is only started on
    a span shorter than the text of the session that starts it, and
    then, for a text of n characters, (n+1)*(n+1)+1 bounds the steps
    of the session and the depth of its nested sub-sessions. *)
Theorem step_falls_back_and_progresses :
  (∀ nested tbl stack p text,
      (firstMatch (rulesOf tbl (top stack)) text p = None
       ∨ ∃ r m toks, firstMatch (rulesOf tbl (top stack)) text p = Some (r, m)
                     ∧ m_length m = 0
                     ∧ dispatch nested r m stack p text = Some (toks, stack)) →
      step Error nested tbl stack p text
      = Some ([{| tk_type := Error; tk_start := p; tk_length := 1 |}],
              stack, p + 1))
  ∧ (∀ nested tbl stack p text toks stack' p',
        step Error nested tbl stack p text = Some (toks, stack', p') →
        p < p' ∨ (p' = p ∧ stack' ≠ stack))
  ∧ (∀ tbl text,
        noEmptyPush tbl → nestedSessionsEnd Error tbl text →
        ∃ fuel toks, tokenise Error fuel tbl text = Some toks)
  ∧ (∀ tbl text fuel,
        noEmptyPush tbl → nestedSpansShorter tbl →
        ((length text + 1) * (length text + 1) + 1 ≤ fuel)%nat →
        ∃ toks, tokenise Error fuel tbl text = Some toks).
Proof.
  split; [|split; [|split]].
  - intros nested tbl stack p text [H|(r & m & toks & H & Hz & Hd)];
      unfold step; rewrite H; [done|].
    rewrite Hd. cbn. rewrite Hz. simpl. by rewrite bool_decide_eq_true_2.
  - apply step_progress.
  - intros tbl text Hpush Hend. by eapply run_session_ends.
  - intros tbl text fuel Hpush Hnest Hfuel. apply run_session_completes; [done..|].
    unfold sessionBound. simpl. lia.
Qed.

(** A table whose root matches the empty string and pushes root. *)
Lemma pushLoop_never_ends fuel :
  ∀ stack, top stack = Some "root" →
           run_session Error fuel Examples.tbl_pushLoop stack 0 [97] = None.
Proof.
  induction fuel as [|fuel IH]; intros stack Htop; [done|].
  simpl. unfold step. rewrite Htop. simpl.
  assert (Hlk : Examples.tbl_pushLoop !! "root"
                = Some [ {| matchAt := Examples.emptyMatch;
                            action := ActToken 1%Z (PushState "root") |} ])
    by apply lookup_singleton_eq.
  rewrite Hlk. cbn.
  rewrite bool_decide_eq_false_2.
  2:{ intros Heq. apply (f_equal length) in Heq. rewrite length_app in Heq.
      simpl in Heq. lia. }
  cbn. rewrite IH; [done|]. unfold top. apply last_snoc.
Qed.
End TokenizerFacts.

(** A table whose root tokenises, in a nested sub-session of root, all
    that is left of the text: the sub-session gets the text of the
    session, and none of them ends. *)
Lemma nestLoop_never_ends (Error : TokenType) (fuel : nat) :
  Tokenizer.run_session Error fuel Examples.tbl_nestLoop ["root"] 0 [97] = None.
Proof.
  induction fuel as [|fuel IH]; [done|].
  simpl. unfold Tokenizer.step. simpl.
  assert (Hlk : Examples.tbl_nestLoop !! "root"
                = Some [ {| Tokenizer.matchAt := Examples.matchRest;
                            Tokenizer.action := Tokenizer.ActUsingSelf None |} ])
    by apply lookup_singleton_eq.
  rewrite Hlk. cbn. unfold Tokenizer.span. simpl.
  unfold Tokenizer.rune in *. by rewrite IH.
Qed.

(** So the condition on nested sub-sessions cannot be dropped: no rule
    of that table pushes, and the session over a one-character text
    never ends. *)
Lemma tokenise_nestLoop_never_ends :
  noEmptyPush Examples.tbl_nestLoop
  ∧ ¬ ∃ fuel toks, Tokenizer.tokenise 3%Z fuel Examples.tbl_nestLoop [97] = Some toks.
Proof.
  split.
  - intros n rs r text p m Hrs Hin _ _. unfold Examples.tbl_nestLoop in Hrs.
    apply lookup_singleton_Some in Hrs as [_ <-].
    apply list_elem_of_singleton in Hin as ->. reflexivity.
  - intros (fuel & toks & H). unfold Tokenizer.tokenise in H.
    by rewrite nestLoop_never_ends in H.
Qed.

(** In [Examples.tbl_nested] no empty match pushes and the nested
    sub-session of "#c" gets one character of a text of two or more;
    the session over "12#7a" ends with a Number, a Text for the '#',
    the Number of the nested sub-session at its place in the text, and
    an Error for the 'a', on which only the rule matching the empty
    string matches.  In a table without rules the step at position 0
    is the fallback. *)
Lemma step_falls_back_and_progresses_witness :
  noEmptyPush Examples.tbl_nested
  ∧ nestedSpansShorter Examples.tbl_nested
  ∧ nestedSessionsEnd 3%Z Examples.tbl_nested [49; 50; 35; 55; 97]
  ∧ (∃ fuel toks, Tokenizer.tokenise 3%Z fuel Examples.tbl_nested [49; 50; 35; 55; 97]
                  = Some toks)
  ∧ (∃ toks, Tokenizer.tokenise 3%Z 37 Examples.tbl_nested [49; 50; 35; 55; 97]
             = Some toks)
  ∧ Tokenizer.tokenise 3%Z 37 Examples.tbl_nested [49; 50; 35; 55; 97]
    = Some [{| Tokenizer.tk_type := 2%Z; Tokenizer.tk_start := 0;
               Tokenizer.tk_length := 2 |};
            {| Tokenizer.tk_type := 1%Z; Tokenizer.tk_start := 2;
               Tokenizer.tk_length := 1 |};
            {| Tokenizer.tk_type := 2%Z; Tokenizer.tk_start := 3;
               Tokenizer.tk_length := 1 |};
            {| Tokenizer.tk_type := 3%Z; Tokenizer.tk_start := 4;
               Tokenizer.tk_length := 1 |}]
  ∧ Tokenizer.step 3%Z (fun _ _ => None) ∅ ["root"] 0 [97]
    = Some ([{| Tokenizer.tk_type := 3%Z; Tokenizer.tk_start := 0;
                Tokenizer.tk_length := 1 |}], ["root"], 1).
Proof.
  assert (Hrules : ∀ n rs r, Examples.tbl_nested !! n = Some rs → r ∈ rs →
            r = {| Tokenizer.matchAt := Examples.matchDigits;
                   Tokenizer.action := Tokenizer.ActToken 2%Z Tokenizer.NoOp |}
            ∨ r = {| Tokenizer.matchAt := Examples.matchHash;
                     Tokenizer.action :=
                       Tokenizer.ActByGroups [Tokenizer.GroupToken 1%Z;
                                              Tokenizer.GroupUsingSelf "root"] |}
            ∨ r = {| Tokenizer.matchAt := Examples.emptyMatch;
                     Tokenizer.action := Tokenizer.ActToken 1%Z Tokenizer.NoOp |}).
  { intros n rs r Hrs Hin. unfold Examples.tbl_nested in Hrs.
    apply lookup_singleton_Some in Hrs as [_ <-].
    apply elem_of_cons in Hin as [ -> | Hin ]; [by left|].
    apply elem_of_cons in Hin as [ -> | Hin ]; [right; by left|].
    apply elem_of_cons in Hin as [ -> | Hin ]; [right; by right|].
    by apply elem_of_nil in Hin. }
  assert (Hpush : noEmptyPush Examples.tbl_nested).
  { intros n rs r text p m Hrs Hin _ _.
    destruct (Hrules n rs r Hrs Hin) as [ -> | [ -> | -> ]]; reflexivity. }
  assert (Hstart : ∀ n rs r text stack p m st s l,
             Examples.tbl_nested !! n = Some rs → r ∈ rs →
             Tokenizer.matchAt r text p = Some m →
             (st, (s, l)) ∈ nestedStarts r m stack p →
             st = "root" ∧ s = p + 1 ∧ l = 1 ∧ (p + 2 ≤ length text)%nat).
  { intros n rs r text stack p m st s l Hrs Hin Hm Hsl.
    destruct (Hrules n rs r Hrs Hin) as [ -> | [ -> | -> ]];
      unfold nestedStarts in Hsl; simpl in Hsl;
      [by apply elem_of_nil in Hsl| |by apply elem_of_nil in Hsl].
    simpl in Hm. unfold Examples.matchHash in Hm.
    destruct (text !! p) as [c|] eqn:Ep; [|done].
    destruct (text !! (p + 1)) as [c'|] eqn:Ep'; [|done].
    destruct (Nat.eqb c 35); [|done]. injection Hm as <-. simpl in Hsl.
    apply list_elem_of_singleton in Hsl. injection Hsl as -> -> ->.
    apply lookup_lt_Some in Ep'. repeat split; lia. }
  assert (Hnest : nestedSpansShorter Examples.tbl_nested).
  { intros n rs r text stack p m st s l Hrs Hin Hm Hsl.
    destruct (Hstart _ _ _ _ _ _ _ _ _ _ Hrs Hin Hm Hsl) as (_ & _ & -> & Hlen).
    unfold Tokenizer.span. rewrite length_take. lia. }
  assert (Hend : nestedSessionsEnd 3%Z Examples.tbl_nested [49; 50; 35; 55; 97]).
  { intros n rs r stack p m st s l Hrs Hin Hm Hsl.
    destruct (Hstart _ _ _ _ _ _ _ _ _ _ Hrs Hin Hm Hsl) as (-> & -> & -> & Hlen).
    simpl in Hlen. exists 3.
    destruct p as [|[|[|[|p]]]]; [by eexists..|lia]. }
  destruct (step_falls_back_and_progresses 3%Z) as (H1 & _ & H3 & H4).
  split; [exact Hpush|]. split; [exact Hnest|]. split; [exact Hend|].
  split; [exact (H3 Examples.tbl_nested [49; 50; 35; 55; 97] Hpush Hend)|].
  split; [apply (H4 Examples.tbl_nested [49; 50; 35; 55; 97] 37 Hpush Hnest);
          simpl; lia|].
  split; [vm_compute; reflexivity|].
  apply (H1 (fun _ _ => None) ∅ ["root"] 0 [97]). left. reflexivity.
Defined.

(** Scenario A of section 8: digits are a Number, anything else is an
    Error, and the session over "12a" gives a Number of length two
    followed by an Error of length one. *)
Lemma tokenise_scenarioA :
  Tokenizer.tokenise 3%Z 4 Examples.tbl_scenarioA [49; 50; 97]
  = Some [{| Tokenizer.tk_type := 2%Z; Tokenizer.tk_start := 0;
             Tokenizer.tk_length := 2 |};
          {| Tokenizer.tk_type := 3%Z; Tokenizer.tk_start := 2;
             Tokenizer.tk_length := 1 |}].
Proof. vm_compute; reflexivity. Qed.

(** C3, as stated, fails on a table whose root has one rule that
    matches the empty string and pushes root: each step changes the
    stack and leaves the position where it is, and the session over a
    one-character text never ends. *)
Lemma tokenise_pushLoop_never_ends :
  ¬ ∃ fuel toks, Tokenizer.tokenise 3%Z fuel Examples.tbl_pushLoop [97] = Some toks.
Proof.
  intros (fuel & toks & H). unfold Tokenizer.tokenise in H.
  rewrite pushLoop_never_ends in H; [discriminate | reflexivity].
Qed.

(** * Further properties of the builder *)

(** ** The verdicts of validate *)

Section ValidateVerdicts.
Context `{Ext : Externals}.

Lemma configuredb_true cfg n : configuredb cfg n = true ↔ configured cfg n.
Proof.
  unfold configuredb, configured. rewrite existsb_exists. split.
  - intros (s & Hs & Hn). exists s. rewrite list_elem_of_In.
    split; [done|]. by apply String.eqb_eq.
  - intros (s & Hs & Hn). exists s. rewrite <- list_elem_of_In.
    split; [done|]. by apply String.eqb_eq.
Qed.

Lemma validate_rule_app names missing r :
  validate_rule names missing r = missing ++ offendingTarget names r.
Proof.
  unfold validate_rule, offendingTarget.
  destruct (config.RPush r) as [p|]; [|by rewrite app_nil_r].
  destruct (String.eqb _ ""); [by rewrite app_nil_r|].
  destruct (bool_decide _); [by rewrite app_nil_r | done].
Qed.

Lemma validate_rules_app names rs missing :
  fold_left (validate_rule names) rs missing
  = missing ++ flat_map (offendingTarget names) rs.
Proof.
  revert missing. induction rs as [|r rest IH]; intros missing; simpl.
  - by rewrite app_nil_r.
  - by rewrite IH, validate_rule_app, <- app_assoc.
Qed.

Lemma validate_missing_flat names states :
  validate_missing names states
  = flat_map (fun s => flat_map (offendingTarget names) (config.Rules s)) states.
Proof.
  unfold validate_missing.
  rewrite <- (app_nil_l (flat_map _ states)). generalize (@nil string).
  induction states as [|s rest IH]; intros missing; simpl.
  - by rewrite app_nil_r.
  - by rewrite IH, validate_rules_app, <- app_assoc.
Qed.

(** X1. [validate] gives the missing-root error exactly when no state
    is named root, whatever the Push targets are; it gives nil exactly
    when root is configured and no non-empty Push target is undefined;
    and any other error is a list of missing states that is not
    empty. *)
Theorem validate_verdicts (cfg : config.Lexer) :
  (validate cfg = Some NoRootState ↔ ¬ configured cfg "root")
  ∧ (validate cfg = None
     ↔ configured cfg "root" ∧ ∀ t, ¬ undefinedPushTarget cfg t)
  ∧ (∀ e, validate cfg = Some e →
          e = NoRootState ∨ ∃ missing, e = MissingStates missing ∧ missing ≠ []).
Proof.
  pose proof (configuredb_true cfg "root") as Hroot.
  assert (Hm : ∀ t, t ∈ validate_missing (validate_stateNames (config.States cfg))
                          (config.States cfg)
                    ↔ undefinedPushTarget cfg t).
  { intros t. rewrite validate_missing_spec. unfold undefinedPushTarget, declares.
    split.
    - intros (s & r & p & Hs & Hr & Hp & Ht & Hne & Hn). exists s, r, p.
      rewrite validate_stateNames_spec in Hn. done.
    - intros (s & r & p & [Hs Hr] & Hp & Ht & Hne & Hn). exists s, r, p.
      rewrite validate_stateNames_spec. done. }
  unfold validate. rewrite validate_foundRoot_configuredb.
  destruct (configuredb cfg "root"); simpl.
  - assert (Hc : configured cfg "root") by (by apply Hroot).
    destruct (validate_missing _ _) as [|m ms] eqn:Em; simpl.
    + split; [|split].
      * split; [done|]. intros Hn. by destruct Hn.
      * split; [|done]. intros _. split; [done|]. intros t Ht.
        apply Hm in Ht. by apply elem_of_nil in Ht.
      * done.
    + split; [|split].
      * split; [done|]. intros Hn. by destruct Hn.
      * split; [done|]. intros [_ Hno]. exfalso. apply (Hno m), Hm.
        apply elem_of_cons. by left.
      * intros e [= <-]. right. by eexists.
  - assert (Hc : ¬ configured cfg "root").
    { intros Hc. apply Hroot in Hc. done. }
    split; [|split].
    + done.
    + split; [done|]. by intros [? _].
    + intros e [= <-]. by left.
Qed.

(** X2. For a grammar that defines root, the list in the error of
    [validate] is the undefined Push targets in the order the rules
    are declared, with one entry for every rule that has one: a target
    pushed by two rules is listed twice. *)
Theorem validate_lists_in_order (cfg : config.Lexer) :
  configuredb cfg "root" = true →
  validate cfg = makeMissingError (offendingTargets cfg).
Proof.
  intros Hroot. unfold validate, offendingTargets.
  rewrite validate_foundRoot_configuredb, Hroot. simpl.
  by rewrite validate_missing_flat.
Qed.
End ValidateVerdicts.

(** Root pushes "nowhere", "root", "elsewhere" and "nowhere" again. *)
Lemma validate_lists_in_order_witness :
  configuredb cfg_repeatedPush "root" = true
  ∧ validate cfg_repeatedPush = makeMissingError (offendingTargets cfg_repeatedPush)
  ∧ validate cfg_repeatedPush
    = Some (MissingStates ["nowhere"; "elsewhere"; "nowhere"]).
Proof.
  split; [reflexivity|]. split.
  - apply (validate_lists_in_order cfg_repeatedPush). reflexivity.
  - vm_compute; reflexivity.
Defined.

(** ** Rule sequences and compiled rules *)

Section CompiledRules.
Context `{Ext : Externals}.

Lemma ruleSequence_Forall2 crs seq :
  Forall2 (fun cr rl => ruleSequence_body cr = Done rl) crs seq →
  ruleSequence crs = Done seq.
Proof.
  induction 1 as [|cr rl crs seq Hb HF IH]; simpl; [done|].
  by rewrite Hb, IH.
Qed.

(** X3. [ruleSequence] returns one compiled rule for every configured
    rule, in the same order, and when it fails it is with the error of
    the first rule that cannot be compiled, the rules before it having
    been compiled. *)
Theorem ruleSequence_in_order (crs : list config.Rule) :
  (∀ seq, ruleSequence crs = Done seq
          ↔ Forall2 (fun cr rl => ruleSequence_body cr = Done rl) crs seq)
  ∧ (∀ seq, ruleSequence crs = Done seq → length seq = length crs)
  ∧ (∀ e, ruleSequence crs = Abort e
          ↔ ∃ rs1 cr rs2 seq1, crs = rs1 ++ cr :: rs2
                               ∧ ruleSequence rs1 = Done seq1
                               ∧ ruleSequence_body cr = Abort e).
Proof.
  split; [|split].
  - intros seq. split; [apply ruleSequence_Done | apply ruleSequence_Forall2].
  - intros seq H. apply ruleSequence_Done in H. symmetry. by eapply Forall2_length.
  - intros e. split; [apply ruleSequence_Abort_split|].
    intros (rs1 & cr & rs2 & seq1 & -> & Hs1 & Hb). by eapply ruleSequence_reaches.
Qed.

Lemma appendByGroups_spec r es r' :
  appendByGroups r es = Done r' →
  ∃ ges, Forall2 compiledGroup es ges ∧ r' = set_byGroups r (byGroups r ++ ges).
Proof.
  revert r. induction es as [|e es IH]; intros r; simpl.
  - intros [= <-]. exists []. split; [constructor|].
    rewrite app_nil_r. by destruct r.
  - intros H. apply bind_Done in H as (ge & Hge & H).
    apply IH in H as (ges & HF & ->). exists (ge :: ges). split.
    + constructor; [|done]. destruct e as [t|u|]; cbn in Hge.
      * unfold tokenTypeOf in Hge. destruct (TokenTypeString _) eqn:Et; [|done].
        cbn in Hge. injection Hge as <-. done.
      * injection Hge as <-. done.
      * injection Hge as <-. done.
    + unfold set_byGroups. simpl. by rewrite <- app_assoc.
Qed.

(** X4. The rule compiled from a configured rule carries the anchored
    pattern, the token type its Token names (0 without Token), the
    depth of its Pop (0 without), as push target the state of its Push
    or else the synthesized name of its Combined, the state of its
    Include, one element for every ByGroups element in order (a token
    type, or the state of a UsingSelf), and the state of its
    UsingSelf. *)
Theorem compiled_rule_fields (cr : config.Rule) (rl : rule) :
  ruleSequence_body cr = Done rl →
  pattern rl = anchored (config.Pattern cr)
  ∧ match config.RToken cr with
    | Some t => TokenTypeString (config.Token_Type t) = Some (tok rl)
    | None => tok rl = 0%Z
    end
  ∧ popDepth rl = match config.RPop cr with
                  | Some p => config.Pop_Depth p
                  | None => 0%Z
                  end
  ∧ pushState rl = match config.RPush cr, config.RCombined cr with
                   | Some p, _ => config.Push_State p
                   | None, Some c => combinedStateName c
                   | None, None => ""
                   end
  ∧ include rl = match config.RInclude cr with
                 | Some i => config.Include_State i
                 | None => ""
                 end
  ∧ Forall2 compiledGroup
      (match config.RByGroups cr with
       | Some g => config.ByGroupsElements g
       | None => []
       end)
      (byGroups rl)
  ∧ useSelfState rl = match config.RUsingSelf cr with
                      | Some u => config.UsingSelf_State u
                      | None => ""
                      end.
Proof.
  intros H. pose proof (ruleSequence_body_Done _ _ H) as (_ & _ & Hp & Hs & Hi).
  split; [done|]. unfold ruleSequence_body in H.
  apply bind_Done in H as (u & _ & H). apply bind_Done in H as (r0 & Hr0 & H).
  rewrite makeRule_spec in Hr0. destruct (regexp2_valid _); [|done].
  injection Hr0 as <-. unfold setRuleFieldsFrom in H.
  apply bind_Done in H as (r1 & H1 & H). apply bind_Done in H as (r2 & H2 & [= <-]).
  assert (Htok : match config.RToken cr with
                 | Some t => TokenTypeString (config.Token_Type t) = Some (tok r1)
                 | None => tok r1 = 0%Z
                 end
                 ∧ popDepth r1 = 0%Z ∧ byGroups r1 = [] ∧ useSelfState r1 = "").
  { unfold updatePushForCombinedState in H1.
    destruct (config.RToken cr) as [t|].
    - unfold tokenTypeOf in H1. destruct (TokenTypeString _) eqn:Et; [|done].
      cbn in H1. injection H1 as <-. by destruct (config.RCombined cr).
    - injection H1 as <-. by destruct (config.RCombined cr). }
  destruct Htok as (Htok & Hpop & Hbg & Hus).
  assert (Hr2 : tok r2 = tok r1
                ∧ popDepth r2 = match config.RPop cr with
                                | Some p => config.Pop_Depth p
                                | None => 0%Z
                                end
                ∧ useSelfState r2 = ""
                ∧ Forall2 compiledGroup
                    (match config.RByGroups cr with
                     | Some g => config.ByGroupsElements g
                     | None => []
                     end) (byGroups r2)).
  { destruct (config.RByGroups cr) as [g|].
    - apply appendByGroups_spec in H2 as (ges & HF & ->).
      destruct (config.RPop cr), (config.RPush cr), (config.RInclude cr);
        simpl; rewrite ?Hbg; simpl; done.
    - injection H2 as <-.
      destruct (config.RPop cr), (config.RPush cr), (config.RInclude cr);
        simpl; rewrite ?Hbg; done. }
  destruct Hr2 as (Ht2 & Hp2 & Hu2 & HF).
  split.
  { destruct (config.RUsingSelf cr), (config.RToken cr); simpl; by rewrite Ht2. }
  split; [by destruct (config.RUsingSelf cr)|].
  split; [done|]. split; [done|].
  split; [by destruct (config.RUsingSelf cr)|].
  by destruct (config.RUsingSelf cr).
Qed.
End CompiledRules.

(** A rule with a pop of two states, a number group, a nested group
    and a UsingSelf. *)
Lemma compiled_rule_fields_witness :
  ∃ rl, @ruleSequence_body Examples.exExternals byGroupsRule = Done rl
    ∧ pattern rl = anchored "(a)(b)"
    ∧ tok rl = 0%Z ∧ popDepth rl = 2%Z ∧ pushState rl = "" ∧ include rl = ""
    ∧ byGroups rl = [ {| ge_tok := 2%Z; ge_useSelfState := "" |};
                      {| ge_tok := 0%Z; ge_useSelfState := "inner" |} ]
    ∧ useSelfState rl = "outer".
Proof.
  eexists. split; [vm_compute; reflexivity|].
  destruct (@compiled_rule_fields Examples.exExternals byGroupsRule _
              ltac:(vm_compute; reflexivity))
    as (H1 & H2 & H3 & H4 & H5 & _ & H7).
  split; [exact H1|]. split; [exact H2|]. split; [exact H3|].
  split; [exact H4|]. split; [exact H5|]. split; [reflexivity | exact H7].
Defined.

(** ** The table Build assembles *)

Section TableFacts.
Context `{Ext : Externals}.

Lemma Build_phases fuel cfg lx err :
  Build fuel cfg = Done (lx, err) →
  ∃ t0 pre, build_states newRules (config.States cfg) = Done t0
            ∧ combine_all t0 (rulesOfStates (config.States cfg)) = Done pre
            ∧ resolveIncludes fuel pre = Done (lexer_rules lx, None).
Proof.
  intros H. apply Build_Done in H as (_ & _ & pre & Hpre & Hres).
  unfold build in Hpre. apply bind_Done in Hpre as (t0 & Ht0 & Hpre).
  apply bind_Done in Hpre as (t1 & Ht1 & [= <-]).
  rewrite build_combined_flat in Ht1. by exists t0, t1.
Qed.

Lemma build_states_app tbl a b :
  build_states tbl (a ++ b) = build_states tbl a ≫= fun t => build_states t b.
Proof.
  revert tbl. induction a as [|s a IH]; intros tbl; simpl; [done|].
  destruct (ruleSequence (config.Rules s)); cbn; [apply IH | done..].
Qed.

Lemma build_states_other tbl states tbl' k :
  build_states tbl states = Done tbl' →
  (∀ s, s ∈ states → config.Name s ≠ k) →
  tbl' !! k = tbl !! k.
Proof.
  intros H Hne. apply build_states_Done in H as (_ & H2 & H3).
  destruct (tbl' !! k) as [st'|] eqn:E'.
  - destruct (H2 _ _ E') as [Hl|(s & seq & Hs & Hn & _)]; [done|].
    by destruct (Hne _ Hs).
  - destruct (tbl !! k) as [st|] eqn:E; [|done].
    destruct (H3 k) as [st' Hst']; [by eexists|]. congruence.
Qed.

Lemma lastOfItsName_spec s later s' :
  lastOfItsName s later = true → s' ∈ later → config.Name s' ≠ config.Name s.
Proof.
  unfold lastOfItsName. rewrite forallb_forall. intros H Hin Heq.
  specialize (H s' (proj1 (list_elem_of_In _ _) Hin)).
  rewrite Heq, String.eqb_refl in H. done.
Qed.

Lemma build_states_last tbl ss1 s ss2 tbl' :
  build_states tbl (ss1 ++ s :: ss2) = Done tbl' →
  lastOfItsName s ss2 = true →
  ∃ seq, ruleSequence (config.Rules s) = Done seq
         ∧ tbl' !! config.Name s = Some {| name := config.Name s; rules := seq |}.
Proof.
  intros H Hlast. rewrite build_states_app in H.
  apply bind_Done in H as (t1 & _ & H). simpl in H.
  apply bind_Done in H as (seq & Hseq & H). exists seq. split; [done|].
  rewrite (build_states_other _ _ _ (config.Name s) H).
  - unfold AddState. simpl. apply lookup_insert_eq.
  - intros s' Hs'. by eapply lastOfItsName_spec.
Qed.

Lemma Build_keeps_last_state_aux fuel cfg lx err ss1 s ss2 :
  Build fuel cfg = Done (lx, err) →
  config.States cfg = ss1 ++ s :: ss2 →
  lastOfItsName s ss2 = true →
  ∃ seq, ruleSequence (config.Rules s) = Done seq
         ∧ rulesIn (lexer_rules lx) (config.Name s)
           = flat_map (substitute (lexer_rules lx)) seq.
Proof.
  intros HB Hss Hlast. apply Build_phases in HB as (t0 & pre & Ht0 & Hpre & Hres).
  rewrite Hss in Ht0. destruct (build_states_last _ _ _ _ _ Ht0 Hlast) as (seq & Hseq & Hlk).
  exists seq. split; [done|].
  apply combine_all_spec in Hpre as (Hsub & _).
  pose proof (lookup_weaken _ _ _ _ Hlk Hsub) as Hpre.
  by rewrite (final_rulesIn _ _ _ _ _ Hres Hpre).
Qed.

(** X5. When several states of the grammar have the same name, the
    table holds the last of them: its rules are the compiled rules of
    that state with every Include replaced by the final rules of the
    state it names. A state synthesized for a Combined never takes the
    place of a configured state. *)
Theorem Build_keeps_last_state (fuel : nat) (cfg : config.Lexer) (lx : Lexer)
    (err : option BuildError) (ss1 : list config.State) (s : config.State)
    (ss2 : list config.State) :
  Build fuel cfg = Done (lx, err) →
  config.States cfg = ss1 ++ s :: ss2 →
  lastOfItsName s ss2 = true →
  ∃ seq, ruleSequence (config.Rules s) = Done seq
         ∧ rulesIn (lexer_rules lx) (config.Name s)
           = flat_map (substitute (lexer_rules lx)) seq.
Proof. apply Build_keeps_last_state_aux. Qed.

Lemma substitute_no_include final rs :
  Forall (fun rl => include rl = "") rs → flat_map (substitute final) rs = rs.
Proof.
  induction 1 as [|rl rs Hrl HF IH]; [done|].
  simpl. rewrite IH. unfold substitute. by rewrite Hrl.
Qed.

(** X6. When [Build] returns a lexer, a configured state that is the
    last one of its name in the grammar and none of whose rules has an
    Include with a non-empty state name is in the table as it was
    compiled: the rules under its name are its compiled rule sequence,
    one rule for each configured rule.  An Include whose state name is
    empty is not an include: the rule stays in the table.  (A state
    followed by another one of the same name is replaced by it, as X5
    has it, so the condition on the name cannot be dropped.) *)
Theorem Build_keeps_include_free_state (fuel : nat) (cfg : config.Lexer)
    (lx : Lexer) (err : option BuildError) (ss1 : list config.State)
    (s : config.State) (ss2 : list config.State) :
  Build fuel cfg = Done (lx, err) →
  config.States cfg = ss1 ++ s :: ss2 →
  lastOfItsName s ss2 = true →
  declaresNoInclude s = true →
  ∃ seq, ruleSequence (config.Rules s) = Done seq
         ∧ length seq = length (config.Rules s)
         ∧ rulesIn (lexer_rules lx) (config.Name s) = seq.
Proof.
  intros HB Hss Hlast Hno.
  destruct (Build_keeps_last_state_aux fuel cfg lx err ss1 s ss2 HB Hss Hlast)
    as (seq & Hseq & Heq).
  exists seq. split; [done|]. pose proof (ruleSequence_Done _ _ Hseq) as HF.
  split; [symmetry; by eapply Forall2_length|].
  rewrite Heq. apply substitute_no_include.
  unfold declaresNoInclude in Hno. rewrite forallb_forall in Hno.
  apply Forall_forall. intros rl Hrl. apply list_elem_of_lookup in Hrl as [i Hi].
  destruct (Forall2_lookup_r _ _ _ _ _ HF Hi) as (cr & Hcr & Hb).
  apply ruleSequence_body_Done in Hb as (_ & _ & _ & _ & ->).
  apply list_elem_of_lookup_2, list_elem_of_In, Hno in Hcr.
  destruct (config.RInclude cr); [by apply String.eqb_eq | done].
Qed.
End TableFacts.

(** Of the two states named root the second one is in the table, with
    its Include without state name kept as a rule. *)
Lemma Build_keeps_last_state_witness :
  ∃ lx, @Build Examples.exExternals 1 cfg_duplicateState = Done (lx, None)
    ∧ ∃ seq, @ruleSequence Examples.exExternals
               [Examples.tokenRule "new" "Text"; Examples.includeRule ""] = Done seq
             ∧ rulesIn (lexer_rules lx) "root"
               = flat_map (substitute (lexer_rules lx)) seq.
Proof.
  eexists. split; [vm_compute; reflexivity|].
  apply (@Build_keeps_last_state Examples.exExternals 1 cfg_duplicateState _ None
           [Examples.mkState "root" [Examples.tokenRule "old" "Error"];
            Examples.mkState "other" [Examples.tokenRule "o" "Number"]]
           (Examples.mkState "root" [Examples.tokenRule "new" "Text";
                                     Examples.includeRule ""])
           []);
    vm_compute; reflexivity.
Defined.

Lemma Build_keeps_include_free_state_witness :
  ∃ lx, @Build Examples.exExternals 1 cfg_duplicateState = Done (lx, None)
    ∧ rulesIn (lexer_rules lx) "root" = duplicateStateRules
    ∧ ∃ seq, @ruleSequence Examples.exExternals
               [Examples.tokenRule "new" "Text"; Examples.includeRule ""] = Done seq
             ∧ length seq = 2
             ∧ rulesIn (lexer_rules lx) "root" = seq.
Proof.
  eexists. split; [vm_compute; reflexivity|]. split; [vm_compute; reflexivity|].
  apply (@Build_keeps_include_free_state Examples.exExternals 1 cfg_duplicateState
           _ None
           [Examples.mkState "root" [Examples.tokenRule "old" "Error"];
            Examples.mkState "other" [Examples.tokenRule "o" "Number"]]
           (Examples.mkState "root" [Examples.tokenRule "new" "Text";
                                     Examples.includeRule ""])
           []);
    vm_compute; reflexivity.
Defined.

(** ** Combined states that cannot be built, and the states of the table *)

Section CombinedErrors.
Context `{Ext : Externals}.

Lemma combineSubstates_error tbl n subs acc rs e :
  combineSubstates tbl n subs acc = (rs, Some e) →
  e = CombinedSubstateMissing n ∧ ∃ sub, sub ∈ subs ∧ tbl !! sub = None.
Proof.
  revert acc. induction subs as [|sub subs IH]; intros acc; simpl; [done|].
  unfold Get. destruct (tbl !! sub) as [st|] eqn:E.
  - intros H. apply IH in H as (-> & sub' & Hin & Hn). split; [done|].
    exists sub'. split; [apply elem_of_cons; by right | done].
  - intros [= <- <-]. split; [done|]. exists sub.
    split; [apply elem_of_cons; by left | done].
Qed.

Lemma createCombinedStateInRule_error tbl n cr tbl' e :
  createCombinedStateInRule tbl n cr = (tbl', Some e) →
  tbl' = tbl ∧ e = CombinedSubstateMissing n
  ∧ ∃ c sub, config.RCombined cr = Some c ∧ tbl !! combinedStateName c = None
             ∧ sub ∈ config.Combined_States c ∧ tbl !! sub = None.
Proof.
  unfold createCombinedStateInRule.
  destruct (config.RCombined cr) as [c|]; [|done].
  destruct (Contains tbl (combinedStateName c)) eqn:Hc; [done|].
  unfold Contains in Hc. apply bool_decide_eq_false in Hc.
  destruct (combineSubstates tbl n (config.Combined_States c) [])
    as [rs [e'|]] eqn:E; [|done].
  intros [= <- <-]. apply combineSubstates_error in E as (-> & sub & Hin & Hn).
  split; [done|]. split; [done|]. exists c, sub. split; [done|].
  split; [|done]. destruct (tbl !! combinedStateName c) eqn:El; [|done].
  exfalso. apply Hc. by eexists.
Qed.

Lemma combine_all_Abort (t0 tbl : gmap string state) items e :
  t0 ⊆ tbl → combine_all tbl items = Abort e →
  ∃ n cr t1, (n, cr) ∈ items ∧ t0 ⊆ t1
             ∧ createCombinedStateInRule t1 n cr = (t1, Some e).
Proof.
  revert tbl. induction items as [|[n cr] rest IH]; intros tbl Hsub; simpl; [done|].
  destruct (createCombinedStateInRule tbl n cr) as [tbl1 [e'|]] eqn:E; cbn.
  - intros [= <-]. pose proof (createCombinedStateInRule_error _ _ _ _ _ E) as (-> & _).
    exists n, cr, tbl. split; [apply elem_of_cons; by left | done].
  - intros H.
    assert (tbl ⊆ tbl1) as Hsub1.
    { apply createCombinedStateInRule_cases in E
        as [[_ ->]|[(c & _ & _ & ->)|(c & _ & Hfree & _ & ->)]]; [done..|].
      by apply insert_subseteq. }
    destruct (IH tbl1) as (n' & cr' & t1 & Hin & Ht1 & Hc); [by etrans | done |].
    exists n', cr', t1. split; [apply elem_of_cons; by right | done].
Qed.

Lemma build_states_configured cfg t0 k :
  build_states newRules (config.States cfg) = Done t0 →
  is_Some (t0 !! k) ↔ configured cfg k.
Proof.
  intros H. apply build_states_Done in H as (H1 & H2 & _). split.
  - intros [st Hst]. destruct (H2 _ _ Hst) as [Hl|(s & seq & Hs & Hn & _)]; [done|].
    by exists s.
  - intros (s & Hs & <-). by apply H1.
Qed.

(** X7. When [Build] fails because a Combined lists a state that does
    not exist, the error carries the name of the state that declares
    the Combined, not the name that is missing; and the missing name is
    that of no configured state. *)
Theorem Build_combined_missing_names_declarer (fuel : nat) (cfg : config.Lexer)
    (n : string) :
  Build fuel cfg = Abort (CombinedSubstateMissing n) →
  ∃ s r c sub, declares cfg s r ∧ config.Name s = n
               ∧ config.RCombined r = Some c
               ∧ sub ∈ config.Combined_States c ∧ ¬ configured cfg sub.
Proof.
  intros H. rewrite Build_unfold in H. unfold build in H.
  destruct (build_states newRules (config.States cfg)) as [t0|e0|] eqn:E0; cbn in H.
  - rewrite build_combined_flat in H.
    destruct (combine_all t0 (rulesOfStates (config.States cfg))) as [pre|e1|] eqn:E1;
      cbn in H.
    + destruct (resolveIncludes_fail fuel pre)
        as [[final Hf]|(k & st & Hst & [(e' & He & Hab)|[_ Hd]])].
      * rewrite Hf in H. done.
      * rewrite Hab in H. injection H as ->.
        apply resolveIncludesIn_Abort in He as (m & [=] & _).
      * rewrite Hd in H. done.
    + injection H as ->.
      destruct (combine_all_Abort t0 t0 _ _ (reflexivity _) E1)
        as (n' & cr & t1 & Hin & Hsub & Hc).
      apply createCombinedStateInRule_error in Hc
        as (_ & [= <-] & c & sub & Hcomb & _ & Hsubin & Hnone).
      apply rulesOfStates_elem in Hin as (s & Hs & Hn & Hr).
      exists s, cr, c, sub. split; [done|]. split; [done|]. split; [done|].
      split; [done|]. intros Hconf.
      apply (build_states_configured _ _ _ E0) in Hconf as [st Hst].
      by rewrite (lookup_weaken _ _ _ _ Hst Hsub) in Hnone.
    + done.
  - injection H as ->. apply build_states_Abort in E0 as (s & _ & Hs).
    apply ruleSequence_Abort in Hs as (cr & _ & Hb).
    apply ruleSequence_body_Abort in Hb as [Hb|[_ [[_ [=]]|[_ [t [=]]]]]].
    by apply (checkRule_rejected cr) in Hb.
  - done.
Qed.

(** X8. When [Build] returns a lexer, the states of its table are the
    configured states and the states synthesized for the Combined
    lists the rules declare, and no others; and every state is stored
    under its own name. *)
Theorem Build_table_states (fuel : nat) (cfg : config.Lexer) (lx : Lexer)
    (err : option BuildError) :
  Build fuel cfg = Done (lx, err) →
  (∀ k, is_Some (lexer_rules lx !! k)
        ↔ configured cfg k
          ∨ ∃ c, declaresCombined cfg c ∧ combinedStateName c = k)
  ∧ (∀ k st, lexer_rules lx !! k = Some st → name st = k).
Proof.
  intros HB. apply Build_phases in HB as (t0 & pre & Ht0 & Hpre & Hres).
  pose proof (fun k => build_states_configured cfg t0 k Ht0) as Hconf.
  pose proof (combine_all_spec _ _ _ Hpre) as (Hsub & Hall & Hnew).
  pose proof (resolveIncludes_Done _ _ _ _ Hres) as (_ & Hfin & Hnone).
  assert (Hdom : ∀ k, is_Some (lexer_rules lx !! k) ↔ is_Some (pre !! k)).
  { intros k. destruct (pre !! k) as [st|] eqn:E.
    - destruct (Hfin _ _ E) as (out & _ & ->). split; by eexists.
    - by rewrite (Hnone _ E). }
  assert (Hname : ∀ k st, pre !! k = Some st → name st = k).
  { intros k st Hst. destruct (t0 !! k) as [st0|] eqn:E0.
    - rewrite (lookup_weaken _ _ _ _ E0 Hsub) in Hst. injection Hst as <-.
      apply build_states_Done in Ht0 as (_ & H2 & _).
      destruct (H2 _ _ E0) as [Hl|(s & seq & _ & _ & _ & ->)]; done.
    - by destruct (Hnew _ _ E0 Hst) as (_ & _ & _ & _ & _ & _ & Hn & _). }
  split.
  - intros k. rewrite Hdom. split.
    + intros [st Hst]. destruct (t0 !! k) as [st0|] eqn:E0.
      * left. apply Hconf. by eexists.
      * right. destruct (Hnew _ _ E0 Hst) as (n & cr & c & Hin & Hc & Hn & _).
        exists c. split; [|done].
        apply rulesOfStates_elem in Hin as (s & Hs & _ & Hr). by exists s, cr.
    + intros [Hc|(c & (s & r & [Hs Hr] & Hc) & <-)].
      * apply Hconf in Hc as [st Hst]. exists st. by eapply lookup_weaken.
      * eapply Hall; [|exact Hc]. apply rulesOfStates_elem. by exists s.
  - intros k st Hst. destruct (pre !! k) as [st0|] eqn:E.
    + destruct (Hfin _ _ E) as (out & _ & Hlk). rewrite Hlk in Hst.
      injection Hst as <-. simpl. by apply Hname.
    + by rewrite (Hnone _ E) in Hst.
Qed.
End CombinedErrors.

(** The Combined of the state "strings" lists the unknown "ghost": the
    error names "strings". *)
Lemma Build_combined_missing_names_declarer_witness :
  @Build Examples.exExternals 1 cfg_ghostCombined
  = Abort (CombinedSubstateMissing "strings")
  ∧ ∃ s r c sub, declares cfg_ghostCombined s r ∧ config.Name s = "strings"
                 ∧ config.RCombined r = Some c
                 ∧ sub ∈ config.Combined_States c
                 ∧ ¬ configured cfg_ghostCombined sub.
Proof.
  split; [vm_compute; reflexivity|].
  apply (@Build_combined_missing_names_declarer Examples.exExternals 1).
  vm_compute; reflexivity.
Defined.

(** The table of the grammar with two rules for the list ["a"; "b"]
    has the three configured states and the synthesized one. *)
Lemma Build_table_states_witness :
  @Build Examples.exExternals 2 Examples.cfg_sameList = Done (sameListLexer, None)
  ∧ (∀ k, is_Some (lexer_rules sameListLexer !! k)
          ↔ configured Examples.cfg_sameList k
            ∨ ∃ c, declaresCombined Examples.cfg_sameList c
                   ∧ combinedStateName c = k)
  ∧ (∀ k st, lexer_rules sameListLexer !! k = Some st → name st = k).
Proof.
  split; [vm_compute; reflexivity|].
  apply (@Build_table_states Examples.exExternals 2 Examples.cfg_sameList
           sameListLexer None).
  vm_compute; reflexivity.
Defined.

(** ** Include resolution: idempotence and the order of the range *)

Section ResolutionFacts.
Context `{Ext : Externals}.

Lemma resolveIncludes_complete fuel tbl final :
  (∀ k st, tbl !! k = Some st →
     ∃ out, resolveIncludesIn fuel tbl (rules st) = Done out
            ∧ final !! k = Some {| name := name st; rules := out |}) →
  (∀ k, tbl !! k = None → final !! k = None) →
  resolveIncludes fuel tbl = Done (final, None).
Proof.
  intros Hsome Hnone.
  destruct (resolveIncludes_fail fuel tbl)
    as [[final' Hf]|(k & st & Hst & [(e & He & _)|[Hd _]])].
  - rewrite Hf. do 2 f_equal. apply map_eq. intros k.
    apply resolveIncludes_Done in Hf as (_ & Hsome' & Hnone').
    destruct (tbl !! k) as [st|] eqn:E.
    + destruct (Hsome _ _ E) as (out & Hout & ->).
      destruct (Hsome' _ _ E) as (out' & Hout' & ->). congruence.
    + by rewrite (Hnone _ E), (Hnone' _ E).
  - destruct (Hsome _ _ Hst) as (out & Hout & _). congruence.
  - destruct (Hsome _ _ Hst) as (out & Hout & _). congruence.
Qed.

Lemma loop_no_include recurse tbl rs acc :
  Forall (fun rl => include rl = "") rs →
  resolveIncludesIn_loop recurse tbl rs acc = Done (acc ++ rs).
Proof.
  intros HF. revert acc. induction HF as [|rl rs Hrl HF IH]; intros acc; simpl.
  - by rewrite app_nil_r.
  - rewrite Hrl. simpl. rewrite IH. by rewrite <- app_assoc.
Qed.

Lemma resolveIncludes_includeFree fuel tbl final e :
  resolveIncludes fuel tbl = Done (final, e) → includeFree final.
Proof.
  intros H k st' Hst'. apply resolveIncludes_Done in H as (_ & Hsome & Hnone).
  destruct (tbl !! k) as [st|] eqn:E.
  - destruct (Hsome _ _ E) as (out & Hout & Hlk). rewrite Hlk in Hst'.
    injection Hst' as <-. by eapply resolveIncludesIn_no_include.
  - by rewrite (Hnone _ E) in Hst'.
Qed.

(** X9. Include resolution is idempotent: resolving the table it
    returned again, with any fuel but none, returns that same table. *)
Theorem resolveIncludes_idempotent (fuel fuel' : nat)
    (tbl final : gmap string state) (e : option BuildError) :
  resolveIncludes fuel tbl = Done (final, e) →
  (0 < fuel')%nat →
  resolveIncludes fuel' final = Done (final, None).
Proof.
  intros H Hpos. pose proof (resolveIncludes_includeFree _ _ _ _ H) as Hfree.
  apply resolveIncludes_complete; [|done].
  intros k st Hst. exists (rules st). split; [|by destruct st].
  destruct fuel' as [|fuel']; [lia|]. simpl.
  rewrite loop_no_include; [done|]. by eapply Hfree.
Qed.

End ResolutionFacts.

Section OrderFacts.
Context `{Ext : Externals}.

(** X10. The lexer [Build] returns does not depend on the order in
    which the range over the table visits its entries: if [Build]
    returns a lexer with one order, it returns the same lexer with any
    other. *)
Theorem Build_order_independent
    (order : gmap string state → list (string * state))
    (Hperm : ∀ m, order m ≡ₚ map_to_list m)
    (fuel : nat) (cfg : config.Lexer) (lx : Lexer) (err : option BuildError) :
  Build fuel cfg = Done (lx, err) →
  @Build (withRange Ext order Hperm) fuel cfg = Done (lx, err).
Proof.
  intros H. apply Build_Done in H as (-> & Hcfg & pre & Hpre & Hres).
  assert (Hpre' : @build (withRange Ext order Hperm) cfg newRules = Done (pre, None))
    by exact Hpre.
  rewrite (@Build_after_build (withRange Ext order Hperm) _ _ _ Hpre').
  apply resolveIncludes_Done in Hres as (_ & Hsome & Hnone).
  rewrite (@resolveIncludes_complete (withRange Ext order Hperm) fuel pre
             (lexer_rules lx) Hsome Hnone).
  cbn. destruct lx as [c t]. simpl in *. by rewrite Hcfg.
Qed.
End OrderFacts.

(** Resolving the table of the chain grammar once more leaves it as it
    is. *)
Lemma resolveIncludes_idempotent_witness :
  @resolveIncludes Examples.exExternals 3 chainTable
  = Done (lexer_rules chainLexer, None)
  ∧ @resolveIncludes Examples.exExternals 1 (lexer_rules chainLexer)
    = Done (lexer_rules chainLexer, None).
Proof.
  split; [vm_compute; reflexivity|].
  apply (@resolveIncludes_idempotent Examples.exExternals 3 1 chainTable
           (lexer_rules chainLexer) None); [|lia].
  vm_compute; reflexivity.
Defined.

Lemma reverseOrder_perm (m : gmap string state) : reverseOrder m ≡ₚ map_to_list m.
Proof. apply reverse_Permutation. Qed.

(** Visiting the table of the chain grammar last entry first gives the
    same lexer. *)
Lemma Build_order_independent_witness :
  @Build Examples.exExternals 5 Examples.cfg_chain = Done (chainLexer, None)
  ∧ @Build (withRange Examples.exExternals reverseOrder reverseOrder_perm)
      5 Examples.cfg_chain
    = Done (chainLexer, None).
Proof.
  split; [vm_compute; reflexivity|].
  apply (@Build_order_independent Examples.exExternals reverseOrder
           reverseOrder_perm 5 Examples.cfg_chain chainLexer None).
  vm_compute; reflexivity.
Defined.

(** * Properties of the registry *)

Section RegistryFacts.
Context `{PL : PathLib} `{SL : StringsLib}.

Lemma Register_aliases_keeps aliases lexer (m : gmap string Lexer) k :
  m !! k = Some lexer → Register_aliases aliases lexer m !! k = Some lexer.
Proof.
  revert m. induction aliases as [|a rest IH]; intros m Hk; simpl; [done|].
  apply IH. destruct (decide (strings_ToLower a = k)) as [->|Hne1].
  - apply lookup_insert_eq.
  - rewrite lookup_insert_ne by done. destruct (decide (a = k)) as [->|Hne2].
    + apply lookup_insert_eq.
    + by rewrite lookup_insert_ne.
Qed.

Lemma Register_aliases_in aliases lexer (m : gmap string Lexer) a :
  a ∈ aliases →
  Register_aliases aliases lexer m !! a = Some lexer
  ∧ Register_aliases aliases lexer m !! strings_ToLower a = Some lexer.
Proof.
  revert m. induction aliases as [|a0 rest IH]; intros m Hin; simpl.
  - by apply elem_of_nil in Hin.
  - apply elem_of_cons in Hin as [ -> | Hin ]; [|by apply IH].
    split; apply Register_aliases_keeps.
    + destruct (decide (strings_ToLower a0 = a0)) as [Heq|Hne].
      * rewrite Heq. apply lookup_insert_eq.
      * rewrite lookup_insert_ne by done. apply lookup_insert_eq.
    + apply lookup_insert_eq.
Qed.

Lemma Register_aliases_out aliases lexer (m : gmap string Lexer) k :
  k ∉ aliases → k ∉ strings_ToLower <$> aliases →
  Register_aliases aliases lexer m !! k = m !! k.
Proof.
  revert m. induction aliases as [|a rest IH]; intros m H1 H2; simpl; [done|].
  apply not_elem_of_cons in H1 as [Hne1 H1]. rewrite fmap_cons in H2.
  apply not_elem_of_cons in H2 as [Hne2 H2].
  rewrite IH by done. by rewrite !lookup_insert_ne.
Qed.

(** The file-name lookups of [Get] never add a candidate. *)
Lemma Registry_Get_fallthrough l n :
  foundInMaps l n = None →
  Registry_Get l n = Done None ∨ ∃ e, Registry_Get l n = Abort e.
Proof.
  unfold foundInMaps, Registry_Get.
  destruct (byName l !! n); [done|]. destruct (byAlias l !! n); [done|].
  destruct (byName l !! strings_ToLower n); [done|]. intros ->.
  destruct (Match_nil_or_abort l ("filename." +:+ n)) as [->|[e ->]];
    [|right; by eexists].
  cbn. destruct (Match_nil_or_abort l n) as [->|[e ->]]; [|right; by eexists].
  by left.
Qed.

Lemma Registry_Get_found l n x :
  foundInMaps l n = Some x → Registry_Get l n = Done (Some x).
Proof.
  unfold foundInMaps, Registry_Get.
  destruct (byName l !! n); [by intros [= ->]|].
  destruct (byAlias l !! n); [by intros [= ->]|].
  destruct (byName l !! strings_ToLower n); [by intros [= ->]|].
  by intros ->.
Qed.

(** X11. [Get] returns a lexer only from the name and alias maps: the
    one registered under the name, else under it as an alias, else
    under the lower-cased name, else under that as an alias.  A name
    found in none of them gives nil (or the abort of [Match] on a
    malformed glob): the lookups by file extension and by file name
    never find a lexer. *)
Theorem Registry_Get_only_by_name (l : LexerRegistry) (n : string) :
  (∀ x, Registry_Get l n = Done (Some x) ↔ foundInMaps l n = Some x)
  ∧ (foundInMaps l n = None →
     Registry_Get l n = Done None ∨ ∃ e, Registry_Get l n = Abort e).
Proof.
  split; [|apply Registry_Get_fallthrough].
  intros x. split; [|apply Registry_Get_found].
  destruct (foundInMaps l n) as [y|] eqn:E.
  - rewrite (Registry_Get_found _ _ _ E). by intros [= ->].
  - destruct (Registry_Get_fallthrough _ _ E) as [->|[e ->]]; done.
Qed.

Lemma Register_byName_claimed l lexer k :
  k ∈ claimedNames lexer → byName (Register l lexer).1 !! k = Some lexer.
Proof.
  unfold claimedNames. simpl. intros Hin.
  apply elem_of_cons in Hin as [ -> | Hin ].
  - destruct (decide (strings_ToLower
                        (config.CName (config.LConfig (lexer_config lexer)))
                      = config.CName (config.LConfig (lexer_config lexer))))
      as [Heq|Hne].
    + rewrite Heq. apply lookup_insert_eq.
    + rewrite lookup_insert_ne by done. apply lookup_insert_eq.
  - apply list_elem_of_singleton in Hin as ->. apply lookup_insert_eq.
Qed.

(** X12. After [Register], [Get] finds the lexer under its name; under
    each of its aliases, unless a lexer is registered under that name;
    and under every other spelling whose lower case is that of its
    name, unless the spelling itself is a registered name or alias.
    [Register] returns the lexer it was given and appends it to the
    list of lexers. *)
Theorem Register_then_Get (l : LexerRegistry) (lexer : Lexer) :
  let l' := (Register l lexer).1 in
  let config := config.LConfig (lexer_config lexer) in
  (Register l lexer).2 = lexer
  ∧ Lexers l' = Lexers l ++ [lexer]
  ∧ Registry_Get l' (config.CName config) = Done (Some lexer)
  ∧ (∀ a, a ∈ config.Aliases config → byName l' !! a = None →
          Registry_Get l' a = Done (Some lexer))
  ∧ (∀ n, strings_ToLower n = strings_ToLower (config.CName config) →
          byName l' !! n = None → byAlias l' !! n = None →
          Registry_Get l' n = Done (Some lexer)).
Proof.
  intros l' config. split; [done|]. split; [done|].
  assert (Hname : ∀ k, k ∈ claimedNames lexer → byName l' !! k = Some lexer)
    by (intros k; apply Register_byName_claimed).
  split; [|split].
  - apply Registry_Get_found. unfold foundInMaps. rewrite Hname; [done|].
    apply elem_of_cons. by left.
  - intros a Ha Hnone. apply Registry_Get_found. unfold foundInMaps.
    rewrite Hnone.
    assert (byAlias l' !! a = Some lexer) as ->; [|done].
    apply (Register_aliases_in _ lexer (byAlias l) a Ha).
  - intros n Hlow Hn1 Hn2. apply Registry_Get_found. unfold foundInMaps.
    rewrite Hn1, Hn2, Hlow, Hname; [done|].
    apply elem_of_cons. right. apply elem_of_cons. by left.
Qed.

(** X13. Registering a lexer does not disturb the names it does not
    claim: a name [Get] resolved before is resolved to the same lexer
    afterwards, as long as neither the name nor its lower case is the
    name, the lower-cased name, an alias or a lower-cased alias of the
    new lexer. *)
Theorem Register_keeps_other_names (l : LexerRegistry) (lexer : Lexer)
    (n : string) (x : Lexer) :
  Registry_Get l n = Done (Some x) →
  n ∉ claimedNames lexer ++ claimedAliases lexer →
  strings_ToLower n ∉ claimedNames lexer ++ claimedAliases lexer →
  Registry_Get (Register l lexer).1 n = Done (Some x).
Proof.
  intros HG Hn Hl. apply Registry_Get_only_by_name in HG.
  apply Registry_Get_found. revert HG. unfold foundInMaps.
  assert (Hout : ∀ k, k ∉ claimedNames lexer ++ claimedAliases lexer →
                 byName (Register l lexer).1 !! k = byName l !! k
                 ∧ byAlias (Register l lexer).1 !! k = byAlias l !! k).
  { intros k Hk. apply not_elem_of_app in Hk as [Hk1 Hk2].
    unfold claimedNames in Hk1. apply not_elem_of_cons in Hk1 as [Hne1 Hk1].
    apply not_elem_of_cons in Hk1 as [Hne2 _].
    unfold claimedAliases in Hk2. apply not_elem_of_app in Hk2 as [Hk2 Hk3].
    simpl. split.
    - by rewrite !lookup_insert_ne.
    - by apply Register_aliases_out. }
  destruct (Hout _ Hn) as [-> ->]. destruct (Hout _ Hl) as [-> ->]. done.
Qed.
End RegistryFacts.

(** The empty registry with "Go" registered. *)
Lemma Register_then_Get_witness :
  let l' := (@Register exStringsLib NewLexerRegistry goLexer).1 in
  @Registry_Get Examples.exPathLib exStringsLib l' "Go" = Done (Some goLexer)
  ∧ @Registry_Get Examples.exPathLib exStringsLib l' "golang"
    = Done (Some goLexer)
  ∧ @Registry_Get Examples.exPathLib exStringsLib l' "GO"
    = Done (Some goLexer).
Proof.
  destruct (@Register_then_Get Examples.exPathLib exStringsLib
              NewLexerRegistry goLexer) as (_ & _ & H1 & H2 & H3).
  split; [exact H1|]. split.
  - apply H2; [apply elem_of_cons; by left | vm_compute; reflexivity].
  - apply H3; vm_compute; reflexivity.
Defined.

(** "Go" and "Text" are registered; registering "Gox" leaves the
    lookup of "GOLANG" where it was. *)
Lemma Register_keeps_other_names_witness :
  @Registry_Get Examples.exPathLib exStringsLib
    (@registryOf exStringsLib [goLexer; textLexer]) "GOLANG"
  = Done (Some goLexer)
  ∧ @Registry_Get Examples.exPathLib exStringsLib
      (@Register exStringsLib
         (@registryOf exStringsLib [goLexer; textLexer]) goxLexer).1
      "GOLANG"
    = Done (Some goLexer).
Proof.
  split; [vm_compute; reflexivity|].
  apply (@Register_keeps_other_names Examples.exPathLib exStringsLib).
  - vm_compute; reflexivity.
  - apply (bool_decide_unpack _). vm_compute. exact I.
  - apply (bool_decide_unpack _). vm_compute. exact I.
Defined.

(** ** Priorities, MatchMimeType and Names *)

Lemma Less_lookup (l : list Lexer) (i j : nat) (li lj : Lexer) :
  l !! i = Some li → l !! j = Some lj →
  Less l i j = Some (Z.gtb (effectivePriority li) (effectivePriority lj)).
Proof. intros Hi Hj. unfold Less. rewrite Hi, Hj. reflexivity. Qed.

Lemma Less_Some (l : list Lexer) (i j : nat) (b : bool) :
  Less l i j = Some b →
  ∃ li lj, l !! i = Some li ∧ l !! j = Some lj
           ∧ b = Z.gtb (effectivePriority li) (effectivePriority lj).
Proof.
  unfold Less. destruct (l !! i) as [li|] eqn:Ei; [|done].
  destruct (l !! j) as [lj|] eqn:Ej; [|done]. cbn. intros [= <-].
  by exists li, lj.
Qed.

(** X14. [Less] orders the lexers of the slice by decreasing priority,
    an unset (zero) priority counting as 1: it is defined exactly for
    two indices in range, it is irreflexive and transitive, being
    incomparable is transitive too, and a lexer without priority is
    neither before nor after a lexer of priority 1. *)
Theorem Less_strict_weak_order (l : list Lexer) :
  (∀ i j, is_Some (Less l i j) ↔ (i < length l ∧ j < length l)%nat)
  ∧ (∀ i, Less l i i ≠ Some true)
  ∧ (∀ i j k, Less l i j = Some true → Less l j k = Some true →
              Less l i k = Some true)
  ∧ (∀ i j k, Less l i j = Some false → Less l j k = Some false →
              Less l i k = Some false)
  ∧ (∀ i j li lj, l !! i = Some li → l !! j = Some lj →
                  priorityOf li = 0%Z → priorityOf lj = 1%Z →
                  Less l i j = Some false ∧ Less l j i = Some false).
Proof.
  split; [|split; [|split; [|split]]].
  - intros i j. split.
    + intros [b Hb]. apply Less_Some in Hb as (li & lj & Hi & Hj & _).
      split; by eapply lookup_lt_Some.
    + intros [Hi Hj]. apply lookup_lt_is_Some in Hi as [li Hi].
      apply lookup_lt_is_Some in Hj as [lj Hj].
      rewrite (Less_lookup _ _ _ _ _ Hi Hj). by eexists.
  - intros i H. apply Less_Some in H as (li & lj & Hi & Hj & Hb).
    assert (li = lj) as -> by congruence. symmetry in Hb.
    apply Z.gtb_gt in Hb. lia.
  - intros i j k H1 H2.
    apply Less_Some in H1 as (li & lj & Hi & Hj & Hb1).
    apply Less_Some in H2 as (lj' & lk & Hj' & Hk & Hb2).
    assert (lj' = lj) as -> by congruence.
    rewrite (Less_lookup _ _ _ _ _ Hi Hk). f_equal.
    symmetry in Hb1, Hb2. apply Z.gtb_gt in Hb1, Hb2. apply Z.gtb_gt. lia.
  - intros i j k H1 H2.
    apply Less_Some in H1 as (li & lj & Hi & Hj & Hb1).
    apply Less_Some in H2 as (lj' & lk & Hj' & Hk & Hb2).
    assert (lj' = lj) as -> by congruence.
    rewrite (Less_lookup _ _ _ _ _ Hi Hk). f_equal.
    destruct (Z.gtb_spec (effectivePriority li) (effectivePriority lj)); [done|].
    destruct (Z.gtb_spec (effectivePriority lj) (effectivePriority lk)); [done|].
    destruct (Z.gtb_spec (effectivePriority li) (effectivePriority lk)); [lia|done].
  - intros i j li lj Hi Hj H0 H1.
    rewrite (Less_lookup _ _ _ _ _ Hi Hj), (Less_lookup _ _ _ _ _ Hj Hi).
    unfold effectivePriority. rewrite H0, H1. done.
Qed.


Section MimeFacts.
Context `{PL : PathLib}.

Lemma MatchMimeType_types_elem lexer types mt acc x :
  x ∈ MatchMimeType_types lexer types mt acc
  ↔ x ∈ acc ∨ (x = lexer ∧ mt ∈ types).
Proof.
  revert acc. induction types as [|lmt rest IH]; intros acc; simpl.
  - split; [by left|]. intros [?|[_ Hin]]; [done|]. by apply elem_of_nil in Hin.
  - rewrite IH. destruct (String.eqb_spec mt lmt) as [->|Hne].
    + rewrite elem_of_app, list_elem_of_singleton. split.
      * intros [[?| ->]|[-> Hin]]; [by left| |].
        -- right. split; [done|]. apply elem_of_cons. by left.
        -- right. split; [done|]. apply elem_of_cons. by right.
      * intros [?|[-> Hin]]; [left; by left|]. left. by right.
    + split.
      * intros [?|[-> Hin]]; [by left|]. right. split; [done|].
        apply elem_of_cons. by right.
      * intros [?|[-> Hin]]; [by left|]. right. split; [done|].
        apply elem_of_cons in Hin as [?|?]; done.
Qed.

Lemma MatchMimeType_lexers_elem lexers mt acc x :
  x ∈ MatchMimeType_lexers lexers mt acc
  ↔ x ∈ acc ∨ (x ∈ lexers ∧ declaresMime mt x).
Proof.
  revert acc. induction lexers as [|l0 rest IH]; intros acc; simpl.
  - split; [by left|]. intros [?|[Hin _]]; [done|]. by apply elem_of_nil in Hin.
  - rewrite IH, MatchMimeType_types_elem. unfold declaresMime. split.
    + intros [[?|[-> Hin]]|[Hin Hd]]; [by left| |].
      * right. split; [apply elem_of_cons; by left | done].
      * right. split; [apply elem_of_cons; by right | done].
    + intros [?|[Hin Hd]]; [left; by left|].
      apply elem_of_cons in Hin as [ -> | Hin ]; [left; by right | by right].
Qed.

(** X16. Given the contract of [sort.Sort], [MatchMimeType] returns
    nil exactly when no registered lexer declares the MIME type, and
    otherwise a registered lexer that declares it and whose priority
    (1 when unset) is the highest among those that do. *)
Theorem MatchMimeType_best (SC : SortContract) (l : LexerRegistry)
    (mimeType : string) :
  (MatchMimeType l mimeType = None
   ↔ ∀ x, x ∈ Lexers l → ¬ declaresMime mimeType x)
  ∧ (∀ x, MatchMimeType l mimeType = Some x →
          x ∈ Lexers l ∧ declaresMime mimeType x
          ∧ ∀ y, y ∈ Lexers l → declaresMime mimeType y →
                 (effectivePriority y ≤ effectivePriority x)%Z).
Proof.
  unfold MatchMimeType.
  pose proof (fun x => MatchMimeType_lexers_elem (Lexers l) mimeType [] x) as Hel.
  set (matched := MatchMimeType_lexers (Lexers l) mimeType []) in *.
  pose proof (sort_Sort_perm matched) as Hperm.
  pose proof (sort_Sort_sorted matched) as Hsorted.
  set (sorted := sort_Sort Less matched) in *.
  assert (Hel' : ∀ x, x ∈ matched ↔ x ∈ Lexers l ∧ declaresMime mimeType x).
  { intros x. rewrite Hel. split; [|by right].
    intros [Hin|?]; [by apply elem_of_nil in Hin | done]. }
  destruct matched as [|m0 ms] eqn:Em; simpl.
  - split; [|done]. split; [|done]. intros _ x Hin Hd.
    eapply elem_of_nil, Hel'. done.
  - destruct sorted as [|s0 ss] eqn:Es.
    { apply Permutation_length in Hperm. done. }
    simpl. split.
    + split; [done|]. intros Hno. exfalso.
      destruct (proj1 (Hel' m0)) as [Hin Hd]; [apply elem_of_cons; by left|].
      by eapply Hno.
    + intros x [= <-].
      assert (Hs0 : s0 ∈ m0 :: ms).
      { rewrite <- Hperm. apply elem_of_cons. by left. }
      apply Hel' in Hs0 as [Hin Hd]. split; [done|]. split; [done|].
      intros y Hy Hdy.
      assert (Hym : y ∈ s0 :: ss).
      { rewrite Hperm. apply Hel'. done. }
      apply list_elem_of_lookup in Hym as [j Hj]. destruct j as [|j].
      * injection Hj as <-. lia.
      * assert (Hlt : (0 < S j)%nat) by lia.
        specialize (Hsorted 0 (S j) Hlt).
        rewrite (Less_lookup (s0 :: ss) (S j) 0 y s0 Hj eq_refl) in Hsorted.
        destruct (Z.gtb_spec (effectivePriority y) (effectivePriority s0)); [done|].
        lia.
Qed.
End MimeFacts.

Section NamesFacts.
Context `{SL : StringsLib}.

Lemma Names_loop_flat lexers withAliases out :
  Names_loop lexers withAliases out
  = out ++ flat_map (namesOf withAliases) lexers.
Proof.
  revert out. induction lexers as [|x rest IH]; intros out; simpl.
  - by rewrite app_nil_r.
  - rewrite IH. unfold namesOf. destruct withAliases; simpl.
    + by rewrite <- !app_assoc.
    + by rewrite <- app_assoc.
Qed.

(** X17. [Names] returns, in ascending byte order, one entry for the
    name of every registered lexer, a lexer registered twice being
    listed twice, and with aliases one more entry for each alias. *)
Theorem Names_sorted_permutation (l : LexerRegistry) (withAliases : bool) :
  Names l withAliases ≡ₚ flat_map (namesOf withAliases) (Lexers l)
  ∧ Sorted (fun a b => String.leb a b = true) (Names l withAliases)
  ∧ length (Names l false) = length (Lexers l).
Proof.
  unfold Names. split; [|split].
  - rewrite sort_Strings_perm. by rewrite Names_loop_flat.
  - apply sort_Strings_sorted.
  - rewrite sort_Strings_perm, Names_loop_flat. simpl.
    induction (Lexers l) as [|x rest IH]; simpl; [done|]. by rewrite IH.
Qed.
End NamesFacts.

Lemma StronglySorted_lookup {A : Type} (R : relation A) (l : list A)
    (i j : nat) (a b : A) :
  StronglySorted R l → (i < j)%nat → l !! i = Some a → l !! j = Some b → R a b.
Proof.
  intros HS. revert i j. induction HS as [|x l HS IH HF]; intros i j Hlt Hi Hj.
  - done.
  - destruct j as [|j]; [lia|]. destruct i as [|i]; simpl in *.
    + injection Hi as <-. rewrite Forall_forall in HF. apply HF.
      by eapply list_elem_of_lookup_2.
    + apply (IH i j); [lia | done..].
Qed.

(** The merge sort by decreasing priority honours the contract of
    [sort.Sort]. *)
Lemma sortingPathLib_contract : @SortContract sortingPathLib.
Proof.
  split.
  - intros l. apply merge_sort_Permutation.
  - intros l i j Hlt H. apply Less_Some in H as (lj & li & Hj & Hi & Hb).
    symmetry in Hb. apply Z.gtb_gt in Hb.
    assert (HS : StronglySorted
                   (fun a b => (effectivePriority b ≤ effectivePriority a)%Z)
                   (sort_Sort (PathLib := sortingPathLib) Less l)).
    { apply Sorted_StronglySorted.
      - intros x y z H1 H2. simpl in *. lia.
      - apply Sorted_merge_sort. intros x y. simpl. lia. }
    pose proof (StronglySorted_lookup _ _ _ _ _ _ HS Hlt Hi Hj) as Hle.
    simpl in Hle. lia.
Qed.

(** "Go" (priority unset) and "Gox" (priority 2) declare "text/x-go":
    the second one is returned; nothing declares "text/html". *)
Lemma MatchMimeType_best_witness :
  let l := @registryOf exStringsLib [goLexer; goxLexer; textLexer] in
  @MatchMimeType sortingPathLib l "text/x-go" = Some goxLexer
  ∧ (goxLexer ∈ Lexers l ∧ declaresMime "text/x-go" goxLexer
     ∧ ∀ y, y ∈ Lexers l → declaresMime "text/x-go" y →
            (effectivePriority y ≤ effectivePriority goxLexer)%Z)
  ∧ @MatchMimeType sortingPathLib l "text/html" = None.
Proof.
  intros l.
  destruct (@MatchMimeType_best sortingPathLib sortingPathLib_contract l "text/x-go")
    as [_ H].
  split; [vm_compute; reflexivity|]. split.
  - apply H. vm_compute; reflexivity.
  - vm_compute; reflexivity.
Defined.

(** ** When synthesized names are distinct *)

Lemma plainChars_app_inj (a b x y : string) :
  plainChars a = true → plainChars b = true →
  (x = "" ∨ ∃ x', x = String underscore x') →
  (y = "" ∨ ∃ y', y = String underscore y') →
  a +:+ x = b +:+ y → a = b ∧ x = y.
Proof.
  revert b. induction a as [|c a IH]; intros b Ha Hb Hx Hy Heq.
  - destruct b as [|d b]; simpl in *; [done|].
    apply andb_true_iff in Hb as [Hd _].
    destruct Hx as [->|[x' ->]]; [done|]. injection Heq as <- _.
    done.
  - simpl in Ha. apply andb_true_iff in Ha as [Hc Ha].
    destruct b as [|d b]; simpl in *.
    + destruct Hy as [->|[y' ->]]; [done|]. injection Heq as -> _. done.
    + apply andb_true_iff in Hb as [Hd Hb]. injection Heq as -> Heq.
      destruct (IH b Ha Hb Hx Hy Heq) as [-> ->]. done.
Qed.

Lemma strings_Join_cons (a : string) (rest : list string) (sep : string) :
  strings_Join (a :: rest) sep
  = a +:+ match rest with
          | [] => ""
          | _ :: _ => sep +:+ strings_Join rest sep
          end.
Proof.
  destruct rest; simpl; [|done].
  induction a as [|c a IH]; [done|].
  change (String c a = String c (a +:+ "")). by f_equal.
Qed.

Lemma strings_Join_plain_inj (l1 l2 : list string) :
  forallb plainName l1 = true → forallb plainName l2 = true →
  strings_Join l1 "__" = strings_Join l2 "__" → l1 = l2.
Proof.
  revert l2. induction l1 as [|a r1 IH]; intros l2 H1 H2 Heq.
  - destruct l2 as [|b r2]; [done|]. exfalso.
    simpl in H2. apply andb_true_iff in H2 as [Hb _].
    unfold plainName in Hb. apply andb_true_iff in Hb as [Hb _].
    rewrite strings_Join_cons in Heq. simpl in Heq.
    destruct b as [|c b]; [done|]. done.
  - destruct l2 as [|b r2].
    + exfalso. simpl in H1. apply andb_true_iff in H1 as [Ha _].
      unfold plainName in Ha. apply andb_true_iff in Ha as [Ha _].
      rewrite strings_Join_cons in Heq. simpl in Heq.
      destruct a as [|c a]; [done|]. done.
    + simpl in H1, H2. apply andb_true_iff in H1 as [Ha H1].
      apply andb_true_iff in H2 as [Hb H2].
      unfold plainName in Ha, Hb. apply andb_true_iff in Ha as [_ Ha].
      apply andb_true_iff in Hb as [_ Hb].
      rewrite !strings_Join_cons in Heq.
      apply plainChars_app_inj in Heq as [-> Htail]; [|done..| |].
      * f_equal. destruct r1 as [|a1 r1], r2 as [|b1 r2]; [done..|].
        apply IH; [done..|]. by injection Htail.
      * destruct r1; [by left|]. right. by eexists.
      * destruct r2; [by left|]. right. by eexists.
Qed.

(** X18. Two lists of state names, none of them empty or holding an
    underscore, get the same synthesized name only when they are the
    same list: for such names every Combined list has a state of its
    own. *)
Theorem combinedStateName_injective_on_plain_names (c1 c2 : config.Combined) :
  forallb plainName (config.Combined_States c1) = true →
  forallb plainName (config.Combined_States c2) = true →
  combinedStateName c1 = combinedStateName c2 →
  config.Combined_States c1 = config.Combined_States c2.
Proof.
  intros H1 H2 Heq. apply strings_Join_plain_inj; [done..|].
  unfold combinedStateName in Heq. simpl in Heq. by injection Heq.
Qed.

(** The list ["a"; "b"] has the name of no other list of plain names;
    not that of ["ab"], for one. *)
Lemma combinedStateName_injective_on_plain_names_witness :
  forallb plainName ["a"; "b"] = true
  ∧ config.Combined_States {| config.Combined_States := ["a"; "b"] |}
    = config.Combined_States {| config.Combined_States := ["a"; "b"] |}
  ∧ combinedStateName {| config.Combined_States := ["a"; "b"] |}
    ≠ combinedStateName {| config.Combined_States := ["ab"] |}.
Proof.
  split; [reflexivity|]. split.
  - apply (combinedStateName_injective_on_plain_names
             {| config.Combined_States := ["a"; "b"] |}
             {| config.Combined_States := ["a"; "b"] |});
      reflexivity.
  - intros Heq.
    apply (combinedStateName_injective_on_plain_names
             {| config.Combined_States := ["a"; "b"] |}
             {| config.Combined_States := ["ab"] |}) in Heq;
      [discriminate | reflexivity..].
Defined.

(** ** The further properties on concrete input *)

(** The grammar without root, and the chain grammar, which has a root
    and pushes nothing. *)
Lemma validate_verdicts_witness :
  ¬ configured Examples.cfg_noRoot "root"
  ∧ configured Examples.cfg_chain "root"
  ∧ (∀ t, ¬ undefinedPushTarget Examples.cfg_chain t)
  ∧ ∃ missing, validate Examples.cfg_danglingPush = Some (MissingStates missing)
               ∧ missing ≠ [].
Proof.
  destruct (validate_verdicts Examples.cfg_noRoot) as (H1 & _ & _).
  destruct (validate_verdicts Examples.cfg_chain) as (_ & H2 & _).
  destruct (validate_verdicts Examples.cfg_danglingPush) as (_ & _ & H3).
  split; [apply H1; vm_compute; reflexivity|].
  destruct (proj1 H2) as [Hc Hno]; [vm_compute; reflexivity|].
  split; [exact Hc|]. split; [exact Hno|].
  destruct (H3 (MissingStates ["nowhere"])) as [?|(missing & Heq & Hne)];
    [vm_compute; reflexivity | discriminate |].
  exists missing. split; [|exact Hne]. rewrite <- Heq. vm_compute; reflexivity.
Defined.

(** Of three rules the second does not compile: the sequence fails
    with its error, and the bad token name of the third is not
    reached. *)
Lemma ruleSequence_in_order_witness :
  @ruleSequence Examples.exExternals rulesWithBadPattern
  = Abort (InvalidPattern "\A(")
  ∧ (∃ rs1 cr rs2 seq1,
        rulesWithBadPattern = rs1 ++ cr :: rs2
        ∧ @ruleSequence Examples.exExternals rs1 = Done seq1
        ∧ @ruleSequence_body Examples.exExternals cr = Abort (InvalidPattern "\A("))
  ∧ ∀ seq, @ruleSequence Examples.exExternals
             [Examples.tokenRule "a" "Text"; Examples.tokenRule "b" "Number"]
           = Done seq → length seq = 2.
Proof.
  destruct (@ruleSequence_in_order Examples.exExternals rulesWithBadPattern)
    as (_ & _ & H3).
  destruct (@ruleSequence_in_order Examples.exExternals
              [Examples.tokenRule "a" "Text"; Examples.tokenRule "b" "Number"])
    as (_ & H2 & _).
  split; [vm_compute; reflexivity|]. split; [|exact H2].
  apply H3. vm_compute; reflexivity.
Defined.

(** With "Go" registered, "go" is found through the lower-cased name
    and "filename.go" is not found at all. *)
Lemma Registry_Get_only_by_name_witness :
  let l := @registryOf exStringsLib [goLexer] in
  @Registry_Get Examples.exPathLib exStringsLib l "go" = Done (Some goLexer)
  ∧ @foundInMaps exStringsLib l "go" = Some goLexer
  ∧ (@Registry_Get Examples.exPathLib exStringsLib l "main.go" = Done None
     ∨ ∃ e, @Registry_Get Examples.exPathLib exStringsLib l "main.go" = Abort e)
  ∧ @Registry_Get Examples.exPathLib exStringsLib l "main.go" = Done None.
Proof.
  intros l.
  destruct (@Registry_Get_only_by_name Examples.exPathLib exStringsLib l "go")
    as [H1 _].
  destruct (@Registry_Get_only_by_name Examples.exPathLib exStringsLib l "main.go")
    as [_ H2].
  split; [vm_compute; reflexivity|].
  split; [apply H1; vm_compute; reflexivity|].
  split; [apply H2; vm_compute; reflexivity | vm_compute; reflexivity].
Defined.

(** Priorities 2, then unset, then -1: the first is before the
    second, the second before the last, hence the first before the
    last; unset and 1 are not ordered. *)
Lemma Less_strict_weak_order_witness :
  Less priorityList 1 0 = Some true
  ∧ Less priorityList 0 3 = Some true
  ∧ Less priorityList 1 3 = Some true
  ∧ Less priorityList 0 2 = Some false ∧ Less priorityList 2 0 = Some false
  ∧ Less priorityList 0 4 = None.
Proof.
  destruct (Less_strict_weak_order priorityList) as (_ & _ & H3 & _ & H5).
  split; [reflexivity|]. split; [reflexivity|].
  split; [apply (H3 1 0 3); reflexivity|].
  destruct (H5 0 2 goLexer textLexer) as [Ha Hb]; [reflexivity..|].
  split; [exact Ha|]. split; [exact Hb | reflexivity].
Defined.


(** The names of three lexers with their aliases: capitals sort before
    small letters. *)
Lemma Names_sorted_permutation_witness :
  let l := @registryOf exStringsLib [textLexer; goxLexer; goLexer] in
  @Names exStringsLib l true = ["Go"; "Gox"; "Text"; "golang"; "plain"]
  ∧ @Names exStringsLib l false = ["Go"; "Gox"; "Text"]
  ∧ Sorted (fun a b => String.leb a b = true) (@Names exStringsLib l true)
  ∧ length (@Names exStringsLib l false) = length (Lexers l).
Proof.
  intros l.
  destruct (@Names_sorted_permutation exStringsLib l true) as (_ & H2 & H3).
  split; [vm_compute; reflexivity|]. split; [vm_compute; reflexivity|].
  split; [exact H2 | exact H3].
Defined.
